(** * Graph-Algorithm-Visualizer: the graph store, the traversal generators
      and the animation controller of [scripts.js], embedded in Rocq.

    Conventions of the embedding.
    - Node ids, the id counter and the playback cursor are [nat].  An edge
      weight is a finite integer ([Z]), as [parseInt] gives it for an input
      whose value is within the doubles and as the sample graph has it.  A
      distance is an integer or [Infinity].  The one arithmetic operation of
      the program on weights, [dist + weight] in [dijkstra], is the addition
      of doubles:
      [js_add] gives the exact sum rounded to the nearest double, which is
      the exact sum up to 2^53 in absolute value, [Infinity] when the sum
      overflows upwards and [-Infinity] when it overflows downwards.  The
      events and the entries of [pq] carry integers, and [-Infinity], the
      one infinite value that reaches them, is written there as the integer
      [neg_infinity] = -2^1024, which is below every double.
    - The [Map] [adjacencyList] is a [gmap]; a [Set] of ids is a [gset].
    - The module-level [let] variables are the fields of the record [Store];
      every function takes the store and returns the new one.
    - [render], [updateStats] and the other drawing code only read the store
      and write to the DOM; they are left out.  The one piece of DOM that the
      controller owns, the traversal-order list, is the field [orderList].
    - A generator is represented by the list of the values it yields, which is
      how [startTraversal] and [stepTraversal] consume it. *)

From stdpp Require Import gmap strings list fin_maps sorting pretty.
From Stdlib Require Import ZArith Lia.

(** ** Data model *)

(** The strings ['unvisited'], ['inQueue'], ['current'], ['visited'] of a
    node's [state], and ['default'], ['active'], ['visited'] of an edge's. *)
Inductive NodeState := st_unvisited | st_inQueue | st_current | st_visited.
Inductive EdgeState := est_default | est_active | est_visited.

(** A JavaScript number that is either an integer or [Infinity]. *)
Inductive num := Finite (z : Z) | Infinity.

(** A node object.  The position is used by the drawing code only; it is
    kept as a pair of integers. *)
Record Node := {
  node_id : nat;
  node_x : Z;
  node_y : Z;
  node_state : NodeState;
  node_distance : num;
  node_label : string
}.

Record Edge := {
  edge_from : nat;
  edge_to : nat;
  edge_weight : Z;
  edge_state : EdgeState
}.

(** The objects yielded by the generators, by their [type].  [edge] and
    [distance] may be absent ([undefined]) in a visit or an enqueue step; a
    setDistance step always has its distance. *)
Inductive Step :=
  | Visit (node : nat) (edge : option (nat * nat)) (distance : option Z)
  | Enqueue (node : nat) (edge : option (nat * nat)) (distance : option Z)
  | SetDistance (node : nat) (distance : Z).

Definition step_node (st : Step) : nat :=
  match st with Visit n _ _ | Enqueue n _ _ | SetDistance n _ => n end.

Definition step_edge (st : Step) : option (nat * nat) :=
  match st with Visit _ e _ | Enqueue _ e _ => e | SetDistance _ _ => None end.

Definition step_distance (st : Step) : option Z :=
  match st with Visit _ _ d | Enqueue _ _ d => d | SetDistance _ d => Some d end.

Inductive GraphType := directed | undirected.
Inductive Algorithm := algo_bfs | algo_dfs | algo_dijkstra.

#[global] Instance NodeState_eq_dec : EqDecision NodeState.
Proof. solve_decision. Defined.
#[global] Instance EdgeState_eq_dec : EqDecision EdgeState.
Proof. solve_decision. Defined.
#[global] Instance num_eq_dec : EqDecision num.
Proof. solve_decision. Defined.
#[global] Instance GraphType_eq_dec : EqDecision GraphType.
Proof. solve_decision. Defined.
#[global] Instance Step_eq_dec : EqDecision Step.
Proof. solve_decision. Defined.

(** An adjacency entry [{node, weight}]. *)
Abbreviation AdjEntry := (nat * Z)%type.
Abbreviation Adjacency := (gmap nat (list AdjEntry)).

Record Store := {
  nodes : list Node;
  edges : list Edge;
  adjacencyList : Adjacency;
  startNode : option nat;
  selectedNode : option Node;
  isRunning : bool;
  isPaused : bool;
  animationQueue : list Step;
  currentStep : nat;
  nodeIdCounter : nat;
  (* DOM state read or written by the core *)
  graphType : GraphType;
  algorithm : Algorithm;
  orderList : list string
}.

(** ** Traversal engine *)

(** [adjacencyList.get(current) || []] *)
Definition neighbors (adj : Adjacency) (k : nat) : list AdjEntry :=
  default [] (adj !! k).

(** [{ type: 'visit', node, distance }] *)
Definition visit_step (n : nat) (d : option Z) : Step := Visit n None d.

(** [{ type: 'enqueue', node: to, edge: {from, to}, distance }] *)
Definition enqueue_step (from to : nat) (d : option Z) : Step :=
  Enqueue to (Some (from, to)) d.

(** [{ type: 'setDistance', node, distance }] *)
Definition setDistance_step (n : nat) (d : Z) : Step := SetDistance n d.

(** A [while] loop whose body yields events: [body st] is [None] when the
    loop condition fails, and otherwise the state after one iteration with
    the events yielded during it.  The loop gives [None] only when the fuel
    runs out before the loop condition fails. *)
Section Loop.
Context {St : Type}.
Variable body : St → option (St * list Step).

Fixpoint while_loop (fuel : nat) (st : St) : option (list Step) :=
  match fuel with
  | O => None
  | S fuel' =>
      match body st with
      | None => Some []
      | Some (st', evs) =>
          match while_loop fuel' st' with
          | Some rest => Some (evs ++ rest)
          | None => None
          end
      end
  end.
End Loop.

(** The number of adjacency entries of the nodes outside [visited]: the part
    of the termination measure that is spent when a node is visited. *)
Definition entries_outside (visited : gset nat)
    (L : list (nat * list AdjEntry)) : nat :=
  sum_list_with (λ kv, length kv.2) (filter (λ kv, kv.1 ∉ visited) L).

Definition pending_entries (adj : Adjacency) (visited : gset nat) : nat :=
  entries_outside visited (map_to_list adj).

(** Each loop removes one frontier entry per iteration and adds at most the
    adjacency entries of a node when it visits it, once per node: one more
    iteration than there are adjacency entries, plus the one that finds the
    frontier empty, is enough (see [run_algorithm_terminates]). *)
Definition traversal_fuel (adj : Adjacency) : nat :=
  S (S (pending_entries adj ∅)).

(** *** Breadth-first search *)

(** The [for] loop of [bfs] over the neighbours of [current]. *)
Fixpoint bfs_offer (visited : gset nat) (current : nat)
    (nbrs : list AdjEntry) (queue : list nat) : list nat * list Step :=
  match nbrs with
  | [] => (queue, [])
  | (neighbor, _) :: rest =>
      if decide (neighbor ∈ visited) then bfs_offer visited current rest queue
      else
        let '(queue', evs) :=
          bfs_offer visited current rest (queue ++ [neighbor]) in
        (queue', enqueue_step current neighbor None :: evs)
  end.

Definition bfs_body (adj : Adjacency) (st : gset nat * list nat)
    : option ((gset nat * list nat) * list Step) :=
  let '(visited, queue) := st in
  match queue with
  | [] => None
  | current :: queue =>
      if decide (current ∈ visited) then Some ((visited, queue), [])
      else
        let visited := {[current]} ∪ visited in
        let '(queue, evs) :=
          bfs_offer visited current (neighbors adj current) queue in
        Some ((visited, queue), visit_step current None :: evs)
  end.

Definition bfs (adj : Adjacency) (start : nat) : option (list Step) :=
  while_loop (bfs_body adj) (traversal_fuel adj) (∅, [start]).

(** *** Depth-first search *)

(** The array [stack] is kept with its last element first, so that
    [stack.push(x)] is [x :: stack] and [stack.pop()] takes the head. *)
Fixpoint dfs_offer (visited : gset nat) (current : nat)
    (nbrs : list AdjEntry) (stack : list nat) : list nat * list Step :=
  match nbrs with
  | [] => (stack, [])
  | (neighbor, _) :: rest =>
      if decide (neighbor ∈ visited) then dfs_offer visited current rest stack
      else
        let '(stack', evs) :=
          dfs_offer visited current rest (neighbor :: stack) in
        (stack', enqueue_step current neighbor None :: evs)
  end.

Definition dfs_body (adj : Adjacency) (st : gset nat * list nat)
    : option ((gset nat * list nat) * list Step) :=
  let '(visited, stack) := st in
  match stack with
  | [] => None
  | current :: stack =>
      if decide (current ∈ visited) then Some ((visited, stack), [])
      else
        let visited := {[current]} ∪ visited in
        let '(stack, evs) :=
          dfs_offer visited current (reverse (neighbors adj current)) stack in
        Some ((visited, stack), visit_step current None :: evs)
  end.

Definition dfs (adj : Adjacency) (start : nat) : option (list Step) :=
  while_loop (dfs_body adj) (traversal_fuel adj) (∅, [start]).

(** *** Dijkstra *)

(** An entry [{node, dist}] of the array [pq]. *)
Abbreviation PqEntry := (nat * Z)%type.

(** [pq.sort((a, b) => a.dist - b.dist)]: a stable sort on [dist]. *)
Fixpoint pq_insert (x : PqEntry) (l : list PqEntry) : list PqEntry :=
  match l with
  | [] => [x]
  | y :: l' => if (x.2 <=? y.2)%Z then x :: y :: l' else y :: pq_insert x l'
  end.

Definition pq_sort (l : list PqEntry) : list PqEntry := foldr pq_insert [] l.

(** *** The addition of doubles, on integers *)

(** The largest finite double, (2^53 - 1) * 2^971. *)
Definition max_double : Z := ((2 ^ 53 - 1) * 2 ^ 971)%Z.

(** The exponent of the unit in the last place of the doubles around the
    integer [z >= 0]: a double has 53 significant bits. *)
Definition ulp_exp (z : Z) : Z := Z.max 0 (Z.log2 z - 52).

(** The nearest multiple of the unit in the last place to the integer
    [z >= 0], a tie going to the even multiple (round to nearest, ties to
    even). *)
Definition round_magnitude (z : Z) : Z :=
  (let ulp := 2 ^ ulp_exp z in
   let q := z / ulp in
   let r := z mod ulp in
   let q' :=
     if 2 * r <? ulp then q
     else if ulp <? 2 * r then q + 1
     else if Z.even q then q else q + 1 in
   q' * ulp)%Z.

(** [-Infinity] where an integer is expected: -2^1024 is below every
    double, so that [<] and the order of [pq] treat it as the code treats
    [-Infinity]. *)
Definition neg_infinity : Z := (- 2 ^ 1024)%Z.

(** The double nearest to an integer.  Above the largest double the result
    is [Infinity], below its opposite it is [-Infinity]. *)
Definition js_round (z : Z) : num :=
  if (0 <=? z)%Z then
    if (round_magnitude z <=? max_double)%Z then Finite (round_magnitude z)
    else Infinity
  else
    if (round_magnitude (- z) <=? max_double)%Z
    then Finite (- round_magnitude (- z))
    else Finite neg_infinity.

(** [a + b] on a distance [a] and a weight [b]: the exact sum, rounded;
    [-Infinity] plus a weight is [-Infinity]. *)
Definition js_add (a b : Z) : num :=
  if (a =? neg_infinity)%Z then Finite neg_infinity else js_round (a + b).

(** [newDist < distances.get(neighbor)]: false when [newDist] is
    [Infinity], and when the map has no entry (the comparison with
    [undefined]). *)
Definition lt_distance (newDist : num) (d : option num) : bool :=
  match newDist, d with
  | Finite x, Some (Finite z) => (x <? z)%Z
  | Finite _, Some Infinity => true
  | Infinity, _ => false
  | _, None => false
  end.

Record DijkstraState := {
  dj_distances : gmap nat num;
  dj_visited : gset nat;
  dj_pq : list PqEntry
}.

(** The [for] loop of [dijkstra] over the neighbours of [current]. *)
Fixpoint dijkstra_relax (visited : gset nat) (current : nat) (dist : Z)
    (nbrs : list AdjEntry) (distances : gmap nat num) (pq : list PqEntry)
    : gmap nat num * list PqEntry * list Step :=
  match nbrs with
  | [] => (distances, pq, [])
  | (neighbor, weight) :: rest =>
      if decide (neighbor ∈ visited)
      then dijkstra_relax visited current dist rest distances pq
      else
        match js_add dist weight with
        | Finite newDist =>
            if lt_distance (Finite newDist) (distances !! neighbor) then
              let '(distances', pq', evs) :=
                dijkstra_relax visited current dist rest
                  (<[neighbor := Finite newDist]> distances)
                  (pq ++ [(neighbor, newDist)]) in
              (distances', pq',
               enqueue_step current neighbor (Some newDist) :: evs)
            else dijkstra_relax visited current dist rest distances pq
        | Infinity =>
            (* [Infinity < distances.get(neighbor)] is false *)
            dijkstra_relax visited current dist rest distances pq
        end
  end.

Definition dijkstra_body (adj : Adjacency) (st : DijkstraState)
    : option (DijkstraState * list Step) :=
  match pq_sort (dj_pq st) with
  | [] => None
  | (current, dist) :: pq =>
      if decide (current ∈ dj_visited st)
      then Some ({| dj_distances := dj_distances st;
                    dj_visited := dj_visited st;
                    dj_pq := pq |}, [])
      else
        let visited := {[current]} ∪ dj_visited st in
        let '(distances, pq, evs) :=
          dijkstra_relax visited current dist (neighbors adj current)
            (dj_distances st) pq in
        Some ({| dj_distances := distances; dj_visited := visited;
                 dj_pq := pq |},
              visit_step current (Some dist) :: evs)
  end.

Definition dijkstra_init (ns : list Node) (start : nat) : DijkstraState :=
  {| dj_distances :=
       <[start := Finite 0]>
         (foldl (λ d n, <[node_id n := Infinity]> d) ∅ ns);
     dj_visited := ∅;
     dj_pq := [(start, 0%Z)] |}.

Definition dijkstra (ns : list Node) (adj : Adjacency) (start : nat)
    : option (list Step) :=
  match while_loop (dijkstra_body adj) (traversal_fuel adj)
          (dijkstra_init ns start) with
  | Some evs => Some (setDistance_step start 0 :: evs)
  | None => None
  end.

(** ** Graph store *)

(** The store when the script is loaded.  The script does not fix the first
    values of the two selects; the actions below can set them to any value. *)
Definition init_store : Store :=
  {| nodes := []; edges := []; adjacencyList := ∅; startNode := None;
     selectedNode := None; isRunning := false; isPaused := false;
     animationQueue := []; currentStep := 0; nodeIdCounter := 0;
     graphType := undirected; algorithm := algo_bfs; orderList := [] |}.

(** [String.fromCharCode(65 + n % 26) + (n >= 26 ? Math.floor(n / 26) : '')] *)
Definition make_label (n : nat) : string :=
  String (Ascii.ascii_of_nat (65 + n mod 26))
         (if 26 <=? n then pretty (n / 26) else EmptyString).

Definition addNode (x y : Z) (s : Store) : Store :=
  let node :=
    {| node_id := nodeIdCounter s; node_x := x; node_y := y;
       node_state := st_unvisited; node_distance := Infinity;
       node_label := make_label (length (nodes s)) |} in
  {| nodes := nodes s ++ [node];
     edges := edges s;
     adjacencyList := <[node_id node := []]> (adjacencyList s);
     startNode := startNode s;
     selectedNode := selectedNode s;
     isRunning := isRunning s;
     isPaused := isPaused s;
     animationQueue := animationQueue s;
     currentStep := currentStep s;
     nodeIdCounter := S (nodeIdCounter s);
     graphType := graphType s;
     algorithm := algorithm s;
     orderList := orderList s |}.

(** The predicate that [createEdge] and [executeStep] give to [edges.find]. *)
Definition edge_matches (gt : GraphType) (from to : nat) (e : Edge) : bool :=
  (bool_decide (edge_from e = from) && bool_decide (edge_to e = to)) ||
  (bool_decide (gt = undirected) &&
   bool_decide (edge_from e = to) && bool_decide (edge_to e = from)).

(** A call either returns or throws (a [TypeError] on [undefined]); the
    store has been mutated in place up to that point in both cases. *)
Inductive outcome := Returned (s : Store) | Thrown (s : Store).

Definition with_edges (s : Store) (es : list Edge) : Store :=
  {| nodes := nodes s; edges := es; adjacencyList := adjacencyList s;
     startNode := startNode s; selectedNode := selectedNode s;
     isRunning := isRunning s; isPaused := isPaused s;
     animationQueue := animationQueue s; currentStep := currentStep s;
     nodeIdCounter := nodeIdCounter s; graphType := graphType s;
     algorithm := algorithm s; orderList := orderList s |}.

Definition with_adjacency (s : Store) (adj : Adjacency) : Store :=
  {| nodes := nodes s; edges := edges s; adjacencyList := adj;
     startNode := startNode s; selectedNode := selectedNode s;
     isRunning := isRunning s; isPaused := isPaused s;
     animationQueue := animationQueue s; currentStep := currentStep s;
     nodeIdCounter := nodeIdCounter s; graphType := graphType s;
     algorithm := algorithm s; orderList := orderList s |}.

Definition with_selectedNode (s : Store) (n : option Node) : Store :=
  {| nodes := nodes s; edges := edges s; adjacencyList := adjacencyList s;
     startNode := startNode s; selectedNode := n;
     isRunning := isRunning s; isPaused := isPaused s;
     animationQueue := animationQueue s; currentStep := currentStep s;
     nodeIdCounter := nodeIdCounter s; graphType := graphType s;
     algorithm := algorithm s; orderList := orderList s |}.

(** [adjacencyList.get(k).push(entry)]: throws when [k] has no entry. *)
Definition adjacency_push (k : nat) (entry : AdjEntry) (adj : Adjacency)
    : option Adjacency :=
  match adj !! k with
  | Some l => Some (<[k := l ++ [entry]]> adj)
  | None => None
  end.

Definition createEdge (from to : Node) (weight : Z) (s : Store) : outcome :=
  match List.find (edge_matches (graphType s) (node_id from) (node_id to))
          (edges s) with
  | Some _ => Returned (with_selectedNode s None)
  | None =>
      let s1 :=
        with_edges s
          (edges s ++ [{| edge_from := node_id from; edge_to := node_id to;
                          edge_weight := weight; edge_state := est_default |}]) in
      match adjacency_push (node_id from) (node_id to, weight)
              (adjacencyList s1) with
      | None => Thrown s1
      | Some adj1 =>
          let s2 := with_adjacency s1 adj1 in
          if decide (graphType s = undirected) then
            match adjacency_push (node_id to) (node_id from, weight) adj1 with
            | None => Thrown s2
            | Some adj2 => Returned (with_selectedNode (with_adjacency s2 adj2) None)
            end
          else Returned (with_selectedNode s2 None)
      end
  end.

Definition setStartNode (node : Node) (s : Store) : Store :=
  {| nodes := nodes s; edges := edges s; adjacencyList := adjacencyList s;
     startNode := Some (node_id node); selectedNode := selectedNode s;
     isRunning := isRunning s; isPaused := isPaused s;
     animationQueue := animationQueue s; currentStep := currentStep s;
     nodeIdCounter := nodeIdCounter s; graphType := graphType s;
     algorithm := algorithm s; orderList := orderList s |}.

Definition deleteNode (node : Node) (s : Store) : Store :=
  {| nodes := filter (λ n, node_id n ≠ node_id node) (nodes s);
     edges := filter (λ e, edge_from e ≠ node_id node ∧ edge_to e ≠ node_id node)
                (edges s);
     adjacencyList :=
       filter (λ n : AdjEntry, n.1 ≠ node_id node) <$>
         delete (node_id node) (adjacencyList s);
     startNode :=
       if decide (startNode s = Some (node_id node)) then None else startNode s;
     selectedNode := selectedNode s;
     isRunning := isRunning s; isPaused := isPaused s;
     animationQueue := animationQueue s; currentStep := currentStep s;
     nodeIdCounter := nodeIdCounter s; graphType := graphType s;
     algorithm := algorithm s; orderList := orderList s |}.

Definition reset_node (n : Node) : Node :=
  {| node_id := node_id n; node_x := node_x n; node_y := node_y n;
     node_state := st_unvisited; node_distance := Infinity;
     node_label := node_label n |}.

Definition reset_edge (e : Edge) : Edge :=
  {| edge_from := edge_from e; edge_to := edge_to e;
     edge_weight := edge_weight e; edge_state := est_default |}.

Definition resetTraversal (s : Store) : Store :=
  {| nodes := reset_node <$> nodes s;
     edges := reset_edge <$> edges s;
     adjacencyList := adjacencyList s;
     startNode := startNode s; selectedNode := selectedNode s;
     isRunning := false; isPaused := false;
     animationQueue := []; currentStep := 0;
     nodeIdCounter := nodeIdCounter s; graphType := graphType s;
     algorithm := algorithm s; orderList := [] |}.

Definition clearGraph (s : Store) : Store :=
  resetTraversal
    {| nodes := []; edges := []; adjacencyList := ∅;
       startNode := None; selectedNode := None;
       isRunning := isRunning s; isPaused := isPaused s;
       animationQueue := animationQueue s; currentStep := currentStep s;
       nodeIdCounter := 0; graphType := graphType s;
       algorithm := algorithm s; orderList := orderList s |}.

(** ** Animation controller *)

Definition set_node_state (st : NodeState) (n : Node) : Node :=
  {| node_id := node_id n; node_x := node_x n; node_y := node_y n;
     node_state := st; node_distance := node_distance n;
     node_label := node_label n |}.

Definition set_node_distance (d : num) (n : Node) : Node :=
  {| node_id := node_id n; node_x := node_x n; node_y := node_y n;
     node_state := node_state n; node_distance := d;
     node_label := node_label n |}.

Definition set_edge_state (st : EdgeState) (e : Edge) : Edge :=
  {| edge_from := edge_from e; edge_to := edge_to e;
     edge_weight := edge_weight e; edge_state := st |}.

(** [if (step.distance !== undefined) node.distance = step.distance] *)
Definition assign_distance (d : option Z) (n : Node) : Node :=
  match d with
  | Some z => set_node_distance (Finite z) n
  | None => n
  end.

(** [const x = xs.find(p); if (x) { mutate x }]: the first element that
    satisfies [p] is updated in place. *)
Fixpoint update_first {A} (p : A → bool) (f : A → A) (l : list A) : list A :=
  match l with
  | [] => []
  | a :: l' => if p a then f a :: l' else a :: update_first p f l'
  end.

(** [nodes.forEach(n => { if (n.state === 'current') n.state = 'visited' })] *)
Definition demote_current (n : Node) : Node :=
  if decide (node_state n = st_current) then set_node_state st_visited n else n.

Definition has_id (i : nat) (n : Node) : bool := bool_decide (node_id n = i).

(** [if (step.edge) { const edge = edges.find(...); if (edge) edge.state = st }] *)
Definition mark_edge (gt : GraphType) (e : option (nat * nat)) (st : EdgeState)
    (es : list Edge) : list Edge :=
  match e with
  | Some (from, to) => update_first (edge_matches gt from to) (set_edge_state st) es
  | None => es
  end.

Definition with_playback (s : Store) (ns : list Node) (es : list Edge)
    (log : list string) : Store :=
  {| nodes := ns; edges := es; adjacencyList := adjacencyList s;
     startNode := startNode s; selectedNode := selectedNode s;
     isRunning := isRunning s; isPaused := isPaused s;
     animationQueue := animationQueue s; currentStep := currentStep s;
     nodeIdCounter := nodeIdCounter s; graphType := graphType s;
     algorithm := algorithm s; orderList := log |}.

Definition executeStep (step : Step) (s : Store) : Store :=
  let ns := demote_current <$> nodes s in
  let node := List.find (has_id (step_node step)) ns in
  match step with
  | Visit i e d =>
      with_playback s
        (update_first (has_id i)
           (λ n, assign_distance d (set_node_state st_current n)) ns)
        (mark_edge (graphType s) e est_visited (edges s))
        (match node with
         | Some n => orderList s ++ [node_label n]
         | None => orderList s
         end)
  | Enqueue i e d =>
      with_playback s
        (update_first (has_id i)
           (λ n, if decide (node_state n = st_unvisited)
                 then assign_distance d (set_node_state st_inQueue n)
                 else n) ns)
        (mark_edge (graphType s) e est_active (edges s))
        (orderList s)
  | SetDistance i d =>
      with_playback s
        (update_first (has_id i) (set_node_distance (Finite d)) ns)
        (edges s) (orderList s)
  end.

(** The [switch] on [algorithmSelect.value] and the generator it picks; the
    generators read the globals [nodes] and [adjacencyList]. *)
Definition run_algorithm (a : Algorithm) (ns : list Node) (adj : Adjacency)
    (start : nat) : option (list Step) :=
  match a with
  | algo_bfs => bfs adj start
  | algo_dfs => dfs adj start
  | algo_dijkstra => dijkstra ns adj start
  end.

Definition generator (s : Store) (start : nat) : option (list Step) :=
  run_algorithm (algorithm s) (nodes s) (adjacencyList s) start.

Definition with_run (s : Store) (running paused : bool) (q : list Step)
    (cursor : nat) : Store :=
  {| nodes := nodes s; edges := edges s; adjacencyList := adjacencyList s;
     startNode := startNode s; selectedNode := selectedNode s;
     isRunning := running; isPaused := paused;
     animationQueue := q; currentStep := cursor;
     nodeIdCounter := nodeIdCounter s; graphType := graphType s;
     algorithm := algorithm s; orderList := orderList s |}.

(** One turn of the [while] loop of [runAnimation], up to the next [await]
    of a timer; when the loop condition fails, the code after the loop.
    No other handler runs during a turn: [executeStep] has no [await], and
    [currentStep++] follows it before the timer is awaited. *)
Definition runAnimation_tick (s : Store) : Store :=
  if bool_decide (currentStep s < length (animationQueue s)) && isRunning s then
    if isPaused s then s
    else
      match animationQueue s !! currentStep s with
      | Some step =>
          let s1 := executeStep step s in
          with_run s1 (isRunning s1) (isPaused s1) (animationQueue s1)
            (S (currentStep s1))
      | None => s
      end
  else if bool_decide (length (animationQueue s) ≤ currentStep s)
       then with_run s false (isPaused s) (animationQueue s) (currentStep s)
       else s.

(** [startTraversal], up to the first timer: the new store and the message
    given to [alert], if any.  After the sequence is materialized,
    [await runAnimation()] runs the first turn of the loop of
    [runAnimation] at once, before any other handler: the first event is
    applied and the cursor moves to 1; the later turns are taken when the
    timers fire ([runAnimation_tick]).  [None] stands for a generator that
    does not finish. *)
Definition startTraversal (s : Store) : option (Store * option string) :=
  match startNode s with
  | None => Some (s, Some "Please set a start node first!"%string)
  | Some start =>
      if isRunning s then Some (s, None)
      else
        let s1 := resetTraversal s in
        match generator s1 start with
        | Some steps =>
            Some (runAnimation_tick
                    (with_run s1 true false (animationQueue s1 ++ steps)
                       (currentStep s1)), None)
        | None => None
        end
  end.

Definition togglePause (s : Store) : Store :=
  with_run s (isRunning s) (negb (isPaused s)) (animationQueue s) (currentStep s).

Definition stepTraversal (s : Store) : option Store :=
  let materialized :=
    match animationQueue s, startNode s with
    | [], Some start =>
        let s1 := resetTraversal s in
        match generator s1 start with
        | Some steps =>
            Some (with_run s1 true true (animationQueue s1 ++ steps)
                    (currentStep s1))
        | None => None
        end
    | _, _ => Some s
    end in
  match materialized with
  | None => None
  | Some s2 =>
      match animationQueue s2 !! currentStep s2 with
      | Some step =>
          let s3 := executeStep step s2 in
          Some (with_run s3 (isRunning s3) (isPaused s3) (animationQueue s3)
                  (S (currentStep s3)))
      | None => Some s2
      end
  end.

(** ** Vocabulary of the claims *)

(** The node of a visit event. *)
Definition visit_node (st : Step) : option nat :=
  match st with Visit n _ _ => Some n | _ => None end.

(** The nodes that receive a visit event, in the order of the events. *)
Definition visit_nodes (evs : list Step) : list nat := omap visit_node evs.

(** The nodes of the enqueue events, in the order of the events. *)
Definition enqueue_node (st : Step) : option nat :=
  match st with Enqueue n _ _ => Some n | _ => None end.

Definition enqueue_nodes (evs : list Step) : list nat := omap enqueue_node evs.

Section Paths.
Variable adj : Adjacency.
Variable start : nat.

(** [v] is reachable from [start] along adjacency entries. *)
Inductive reachable : nat → Prop :=
  | reachable_start : reachable start
  | reachable_step u v w :
      reachable u → (v, w) ∈ neighbors adj u → reachable v.

(** [path_cost cost v c]: some path from [start] to [v] along adjacency
    entries has total cost [c], an entry of weight [w] costing [cost w]. *)
Inductive path_cost (cost : Z → Z) : nat → Z → Prop :=
  | path_nil : path_cost cost start 0
  | path_snoc u v w c :
      path_cost cost u c → (v, w) ∈ neighbors adj u →
      path_cost cost v (c + cost w).

(** [d] is the least cost of a path from [start] to [v]. *)
Definition least_cost (cost : Z → Z) (v : nat) (d : Z) : Prop :=
  path_cost cost v d ∧ ∀ c, path_cost cost v c → (d ≤ c)%Z.

(** The minimum sum of edge weights over the paths from [start] to [v]. *)
Definition shortest_distance : nat → Z → Prop := least_cost (λ w, w).

(** The minimum number of edges over the paths from [start] to [v]. *)
Definition hop_count : nat → Z → Prop := least_cost (λ _, 1%Z).
End Paths.

(** Every adjacency entry has a non-negative weight. *)
Definition nonneg_weights (adj : Adjacency) : Prop :=
  ∀ k v w, (v, w) ∈ neighbors adj k → (0 ≤ w)%Z.

(** The sum of the absolute values of the weights of a list of adjacency
    entries, of the lists of the nodes outside [visited], and of all the
    adjacency entries. *)
Definition weight_sum (l : list AdjEntry) : Z :=
  foldr (λ e acc, Z.abs e.2 + acc)%Z 0%Z l.

Definition weight_outside (visited : gset nat)
    (L : list (nat * list AdjEntry)) : Z :=
  foldr (λ kv acc,
           (if decide (kv.1 ∈ visited) then 0 else weight_sum kv.2) + acc)%Z
        0%Z L.

Definition weight_total (adj : Adjacency) : Z :=
  weight_outside ∅ (map_to_list adj).

(** The weights are small: their absolute values sum to at most 2^53, so
    that every sum that [dijkstra] computes is exact. *)
Definition small_weights (adj : Adjacency) : Prop :=
  (weight_total adj ≤ 2 ^ 53)%Z.

(** The same, as a check that computes. *)
Definition nonneg_weights_b (adj : Adjacency) : bool :=
  forallb (λ kv : nat * list AdjEntry, forallb (λ e : AdjEntry, (0 <=? e.2)%Z) kv.2)
    (map_to_list adj).

(** The ids of the nodes of the store. *)
Definition node_ids (s : Store) : list nat := node_id <$> nodes s.

(** ** Auxiliary definitions of the proofs *)

(** The neighbours that the [for] loops of [bfs] and [dfs] offer to the
    frontier: those outside [visited], in the order of the entries. *)
Definition offered (visited : gset nat) (nbrs : list AdjEntry) : list nat :=
  filter (λ n, n ∉ visited) nbrs.*1.

(** The termination measures of the three loops. *)
Definition search_measure (adj : Adjacency) (st : gset nat * list nat) : nat :=
  length st.2 + pending_entries adj st.1.

Definition dijkstra_measure (adj : Adjacency) (st : DijkstraState) : nat :=
  length (dj_pq st) + pending_entries adj (dj_visited st).

(** What one iteration does to the visited set and to the visit events: it
    either discards a frontier entry, or visits a node that was not visited. *)
Definition iteration_shape (V V' : gset nat) (evs : list Step) : Prop :=
  (V' = V ∧ visit_nodes evs = []) ∨
  (∃ c, (c ∉ V) ∧ V' = {[c]} ∪ V ∧ visit_nodes evs = [c]).

(** The order of [pq] after [pq.sort]. *)
Definition pq_le (a b : PqEntry) : Prop := (a.2 ≤ b.2)%Z.

(** The visited set agrees with the visit events yielded so far, and no
    node has two of them. *)
Definition visited_once (V : gset nat) (pre : list Step) : Prop :=
  (∀ v, v ∈ V ↔ v ∈ visit_nodes pre) ∧ NoDup (visit_nodes pre).

(** The visit events, as (node, distance carried). *)
Definition visit_event (st : Step) : option (nat * option Z) :=
  match st with Visit n _ d => Some (n, d) | _ => None end.

Definition visit_events (evs : list Step) : list (nat * option Z) :=
  omap visit_event evs.

Section FrontierInvariant.
Variable adj : Adjacency.
Variable start : nat.
Variable cost : Z → Z.

(** The invariant that the three loops share.  [V] is the visited set, [S]
    lists the visited nodes in the order of their visits, each with the
    cost at which it left the frontier, and [F] is the frontier, each entry
    with a cost.  Every cost is the cost of a path from [start]; every
    adjacency entry of a visited node leads to a visited node or to a
    frontier entry that is at most as costly as the path through that
    entry; [start] is visited or in the frontier. *)
Record frontier_inv (V : gset nat) (S F : list (nat * Z)) : Prop := {
  fi_visited : ∀ v, v ∈ V ↔ v ∈ S.*1;
  fi_frontier_path : ∀ v d, (v, d) ∈ F → path_cost adj start cost v d;
  fi_settled_path : ∀ v d, (v, d) ∈ S → path_cost adj start cost v d;
  fi_edges : ∀ v dv x w,
    (v, dv) ∈ S → (x, w) ∈ neighbors adj v →
    x ∈ V ∨ ∃ d', (x, d') ∈ F ∧ (d' ≤ dv + cost w)%Z;
  fi_start : start ∈ V ∨ ∃ d', (start, d') ∈ F ∧ (d' ≤ 0)%Z
}.

(** Every cost recorded for a visited node is the least one. *)
Definition settled_least (S : list (nat * Z)) : Prop :=
  ∀ v d, (v, d) ∈ S → least_cost adj start cost v d.
End FrontierInvariant.

(** The stack of [dfs] as a frontier: depth-first search orders nothing by
    cost, so every entry costs 0. *)
Definition dfs_inv (adj : Adjacency) (start : nat)
    (st : gset nat * list nat) (pre : list Step) : Prop :=
  ∃ S, visit_nodes pre = S.*1 ∧
       frontier_inv adj start (λ _, 0%Z) st.1 S ((λ x, (x, 0%Z)) <$> st.2).

(** The queue of [bfs] as a frontier: an entry is tagged with the number of
    edges of the path on which it was offered.  The tags of the visited
    nodes and then of the queue are in non-decreasing order, and the tags in
    the queue differ by at most one. *)
Definition bfs_inv (adj : Adjacency) (start : nat)
    (st : gset nat * list nat) (pre : list Step) : Prop :=
  ∃ S LQ,
    visit_nodes pre = S.*1 ∧ LQ.*1 = st.2 ∧
    frontier_inv adj start (λ _, 1%Z) st.1 S LQ ∧
    settled_least adj start (λ _, 1%Z) S ∧
    StronglySorted Z.le (S.*2 ++ LQ.*2) ∧
    (∀ l l', l ∈ LQ.*2 → l' ∈ LQ.*2 → (l ≤ l' + 1)%Z).

(** Every neighbour named by an adjacency entry is the id of a node. *)
Definition adjacency_closed (ns : list Node) (adj : Adjacency) : Prop :=
  ∀ k x w, (x, w) ∈ neighbors adj k → x ∈ node_id <$> ns.

(** The map [distances] of [dijkstra] against its visited set and [pq]: a
    finite distance belongs to a visited node or is the [dist] of a [pq]
    entry of that node. *)
Definition distances_tracked (D : gmap nat num) (V : gset nat)
    (pq : list PqEntry) : Prop :=
  ∀ x dx, D !! x = Some (Finite dx) → x ∈ V ∨ (x, dx) ∈ pq.

(** Every neighbour named by an adjacency entry has an entry in [distances]. *)
Definition distances_cover (adj : Adjacency) (D : gmap nat num) : Prop :=
  ∀ k x w, (x, w) ∈ neighbors adj k → is_Some (D !! x).

(** The [dist] of every entry of [pq] is, in absolute value, at most the
    sum of the weights of the adjacency lists of the visited nodes. *)
Definition distances_bounded (adj : Adjacency) (V : gset nat)
    (pq : list PqEntry) : Prop :=
  ∀ x dx, (x, dx) ∈ pq →
    (Z.abs dx + weight_outside V (map_to_list adj) ≤ weight_total adj)%Z.

Definition dijkstra_inv (adj : Adjacency) (start : nat)
    (st : DijkstraState) (pre : list Step) : Prop :=
  ∃ S,
    visit_events pre = (λ e : nat * Z, (e.1, Some e.2)) <$> S ∧
    frontier_inv adj start (λ w, w) (dj_visited st) S (dj_pq st) ∧
    distances_tracked (dj_distances st) (dj_visited st) (dj_pq st) ∧
    distances_cover adj (dj_distances st) ∧
    distances_bounded adj (dj_visited st) (dj_pq st) ∧
    (nonneg_weights adj → settled_least adj start (λ w, w) S).

(** ** The sample graph and the user's actions *)

Definition sampleNodes : list (Z * Z) :=
  [(200, 100); (100, 250); (300, 250); (50, 400);
   (200, 400); (350, 400); (500, 200); (600, 350)]%Z.

Definition sampleEdges : list (nat * nat * Z) :=
  [(0, 1, 4%Z); (0, 2, 2%Z); (1, 3, 5%Z); (1, 4, 1%Z); (2, 4, 3%Z);
   (2, 5, 6%Z); (2, 6, 2%Z); (4, 5, 2%Z); (6, 7, 4%Z); (5, 7, 3%Z)].

(** [sampleEdges.forEach(([from, to, weight]) =>
       createEdge(nodes[from], nodes[to], weight))]; reading [.id] of an
    index outside the array throws. *)
Fixpoint create_sample_edges (es : list (nat * nat * Z)) (s : Store) : outcome :=
  match es with
  | [] => Returned s
  | (from, to, weight) :: es' =>
      match nodes s !! from, nodes s !! to with
      | Some fromNode, Some toNode =>
          match createEdge fromNode toNode weight s with
          | Returned s' => create_sample_edges es' s'
          | Thrown s' => Thrown s'
          end
      | _, _ => Thrown s
      end
  end.

Definition loadSampleGraph (s : Store) : outcome :=
  let s1 := clearGraph s in
  let s2 := foldl (λ st pos, addNode pos.1 pos.2 st) s1 sampleNodes in
  match create_sample_edges sampleEdges s2 with
  | Thrown s3 => Thrown s3
  | Returned s3 =>
      match nodes s3 !! 0 with
      | Some n => Returned (setStartNode n s3)
      | None => Thrown s3
      end
  end.

Definition outcome_store (o : outcome) : Store :=
  match o with Returned s | Thrown s => s end.

Definition with_config (s : Store) (gt : GraphType) (a : Algorithm) : Store :=
  {| nodes := nodes s; edges := edges s; adjacencyList := adjacencyList s;
     startNode := startNode s; selectedNode := selectedNode s;
     isRunning := isRunning s; isPaused := isPaused s;
     animationQueue := animationQueue s; currentStep := currentStep s;
     nodeIdCounter := nodeIdCounter s; graphType := gt;
     algorithm := a; orderList := orderList s |}.

(** What the page lets the user do to the store.  The handlers call
    [createEdge], [setStartNode] and [deleteNode] only with nodes found in
    [nodes] ([findNodeAtPosition], [nodes.find], or a selection that is
    dropped on every change of mode), which is the guard of these actions. *)
Inductive Action :=
  | ActAddNode (x y : Z)
  | ActCreateEdge (from to : Node) (weight : Z)
  | ActSetStartNode (node : Node)
  | ActDeleteNode (node : Node)
  | ActSelectNode (node : option Node)
  | ActSetGraphType (gt : GraphType)
  | ActSetAlgorithm (a : Algorithm)
  | ActStartTraversal
  | ActTick
  | ActTogglePause
  | ActStepTraversal
  | ActResetTraversal
  | ActClearGraph
  | ActLoadSampleGraph.

Definition perform (a : Action) (s : Store) : option Store :=
  match a with
  | ActAddNode x y => Some (addNode x y s)
  | ActCreateEdge from to weight =>
      if decide (node_id from ∈ node_ids s ∧ node_id to ∈ node_ids s)
      then Some (outcome_store (createEdge from to weight s))
      else None
  | ActSetStartNode node =>
      if decide (node_id node ∈ node_ids s) then Some (setStartNode node s)
      else None
  | ActDeleteNode node =>
      if decide (node_id node ∈ node_ids s) then Some (deleteNode node s)
      else None
  | ActSelectNode node => Some (with_selectedNode s node)
  | ActSetGraphType gt => Some (with_config s gt (algorithm s))
  | ActSetAlgorithm a => Some (with_config s (graphType s) a)
  | ActStartTraversal => fst <$> startTraversal s
  | ActTick => Some (runAnimation_tick s)
  | ActTogglePause => Some (togglePause s)
  | ActStepTraversal => stepTraversal s
  | ActResetTraversal => Some (resetTraversal s)
  | ActClearGraph => Some (clearGraph s)
  | ActLoadSampleGraph => Some (outcome_store (loadSampleGraph s))
  end.

Fixpoint run_actions (acts : list Action) (s : Store) : option Store :=
  match acts with
  | [] => Some s
  | a :: acts' =>
      match perform a s with
      | Some s' => run_actions acts' s'
      | None => None
      end
  end.

(** The stores that the program can be in: those that some sequence of
    actions builds from the initial one. *)
Definition store_reachable (s : Store) : Prop :=
  ∃ acts, run_actions acts init_store = Some s.

(** ** The invariant of the graph store *)

(** The part of an edge that never changes. *)
Definition edge_key (e : Edge) : nat * nat * Z :=
  (edge_from e, edge_to e, edge_weight e).

Definition edge_keys (s : Store) : list (nat * nat * Z) := edge_key <$> edges s.

Record store_wf (s : Store) : Prop := {
  wf_ids_nodup : NoDup (node_ids s);
  wf_ids_below : ∀ i, i ∈ node_ids s → i < nodeIdCounter s;
  wf_adjacency_keys : ∀ k, is_Some (adjacencyList s !! k) ↔ k ∈ node_ids s;
  wf_adjacency_closed : adjacency_closed (nodes s) (adjacencyList s);
  wf_edges_closed : ∀ from to w,
    (from, to, w) ∈ edge_keys s → from ∈ node_ids s ∧ to ∈ node_ids s;
  wf_edge_in_adjacency : ∀ from to w,
    (from, to, w) ∈ edge_keys s → (to, w) ∈ neighbors (adjacencyList s) from;
  wf_adjacency_from_edge : ∀ k x w,
    (x, w) ∈ neighbors (adjacencyList s) k →
    (k, x, w) ∈ edge_keys s ∨ (x, k, w) ∈ edge_keys s;
  wf_start : ∀ i, startNode s = Some i → i ∈ node_ids s
}.

(** Two stores with the same graph: they differ at most in the visual
    state, the distances and the playback fields. *)
Definition same_graph (s s' : Store) : Prop :=
  node_ids s' = node_ids s ∧ edge_keys s' = edge_keys s ∧
  adjacencyList s' = adjacencyList s ∧ startNode s' = startNode s ∧
  nodeIdCounter s' = nodeIdCounter s.

(** The edge of a step, when it has one, ends at the node of the step, as in
    every step that the generators yield. *)
Definition step_edge_ok (step : Step) : Prop :=
  ∀ from to, step_edge step = Some (from, to) → to = step_node step.

(** The invariant of the materialized sequence. *)
Definition queue_wf (s : Store) : Prop :=
  Forall step_edge_ok (animationQueue s).

(** ** Sessions of graph edits, for the allocation of ids *)

Inductive GraphOp :=
  | OpAddNode (x y : Z)
  | OpDeleteNode (node : Node)
  | OpClear.

#[global] Instance Node_eq_dec : EqDecision Node.
Proof. solve_decision. Defined.
#[global] Instance GraphOp_eq_dec : EqDecision GraphOp.
Proof. solve_decision. Defined.

(** The ids that the [addNode] calls of a sequence of edits give to their
    nodes, in the order of the calls, starting from the store [s]. *)
Fixpoint allocated_ids (ops : list GraphOp) (s : Store) : list nat :=
  match ops with
  | [] => []
  | OpAddNode x y :: ops' => nodeIdCounter s :: allocated_ids ops' (addNode x y s)
  | OpDeleteNode node :: ops' => allocated_ids ops' (deleteNode node s)
  | OpClear :: ops' => allocated_ids ops' (clearGraph s)
  end.

(** A three-node store used in the examples: nodes 0, 1, 2 (A, B, C) with
    the directed edges A→B of weight 1, A→C of weight 4 and B→C of weight 1,
    as the actions of a user build it. *)
Definition node_at (i : nat) : Node :=
  {| node_id := i; node_x := 0; node_y := 0; node_state := st_unvisited;
     node_distance := Infinity; node_label := make_label i |}.

Definition abc_actions : list Action :=
  [ActSetGraphType directed; ActSetAlgorithm algo_dijkstra;
   ActAddNode 0 0; ActAddNode 0 0; ActAddNode 0 0;
   ActCreateEdge (node_at 0) (node_at 1) 1;
   ActCreateEdge (node_at 0) (node_at 2) 4;
   ActCreateEdge (node_at 1) (node_at 2) 1;
   ActSetStartNode (node_at 0)].

Definition abc_store : Store :=
  default init_store (run_actions abc_actions init_store).

(** [occur_in_order pat evs]: the steps of [pat] occur in [evs] in the order
    of [pat], not necessarily next to each other. *)
Fixpoint occur_in_order (pat evs : list Step) : bool :=
  match pat, evs with
  | [], _ => true
  | _ :: _, [] => false
  | p :: pat', e :: evs' =>
      if decide (p = e) then occur_in_order pat' evs'
      else occur_in_order pat evs'
  end.

(** Playing a sequence of steps, one [executeStep] after the other. *)
Definition play (steps : list Step) (s : Store) : Store :=
  foldl (λ st step, executeStep step st) s steps.

(** The events of the shortest-path run on the three-node store. *)
Definition abc_events : list Step :=
  [SetDistance 0 0;
   Visit 0 None (Some 0%Z);
   Enqueue 1 (Some (0, 1)) (Some 1%Z);
   Enqueue 2 (Some (0, 2)) (Some 4%Z);
   Visit 1 None (Some 1%Z);
   Enqueue 2 (Some (1, 2)) (Some 2%Z);
   Visit 2 None (Some 2%Z)].

(** The sample graph, loaded into the initial store. *)
Definition sample_store : Store := outcome_store (loadSampleGraph init_store).

(** The three-node run interrupted: the run is started, two events are
    played (setDistance(A,0) by Start itself and visit(A,0) by the next
    turn of the loop), and the user deletes B. *)
Definition abc_interrupted_actions : list Action :=
  abc_actions ++
  [ActStartTraversal; ActTick; ActDeleteNode (node_at 1)].

Definition abc_interrupted : Store :=
  default init_store (run_actions abc_interrupted_actions init_store).

(** The store after a step of playback that applies [step] at the cursor. *)
Definition advanced (step : Step) (s : Store) : Store :=
  with_run (executeStep step s) (isRunning s) (isPaused s) (animationQueue s)
    (S (currentStep s)).

(** The ordered pairs of endpoints of the edges of the store. *)
Definition edge_pairs (s : Store) : list (nat * nat) :=
  (λ e, (edge_from e, edge_to e)) <$> edges s.


(** [n] turns of the loop of [runAnimation], and [n] calls of
    [stepTraversal]. *)
Fixpoint tick_n (n : nat) (s : Store) : Store :=
  match n with
  | O => s
  | S n' => tick_n n' (runAnimation_tick s)
  end.

Fixpoint step_n (n : nat) (s : Store) : option Store :=
  match n with
  | O => Some s
  | S n' =>
      match stepTraversal s with
      | Some s' => step_n n' s'
      | None => None
      end
  end.

(** The nodes whose visual state is current. *)
Definition current_nodes (s : Store) : list Node :=
  filter (λ n, node_state n = st_current) (nodes s).

(** The label of the node with id [i], as [nodes.find] gives it. *)
Definition label_of (s : Store) (i : nat) : option string :=
  node_label <$> List.find (has_id i) (nodes s).


(** ** The events of a run, each against the events before it *)

(** [each_prefix P evs]: every event of [evs] satisfies [P] together with
    the events yielded before it. *)
Definition each_prefix (P : list Step → Step → Prop) (evs : list Step) : Prop :=
  ∀ pre ev post, evs = pre ++ ev :: post → P pre ev.

(** The distance of an enqueue event for an adjacency entry of weight
    [w], when the visit carried [dv]: none for [bfs] and [dfs], and for
    [dijkstra] the sum of the distance of the visit and the weight, as
    [js_add] gives it. *)
Definition offer_distance (dv : option Z) (w : Z) (d : option Z) : Prop :=
  match dv with
  | None => d = None
  | Some z => ∃ z', d = Some z' ∧ js_add z w = Finite z'
  end.

(** An enqueue event, against the events before it: its edge is an
    adjacency entry of the node visited last and ends at the node of the
    event, which has no visit event so far; the distance it carries is the
    sum of the distance of that visit and the weight of the entry. *)
Definition enqueue_justified (adj : Adjacency) (pre : list Step) (ev : Step)
    : Prop :=
  ∀ n e d, ev = Enqueue n e d →
    ∃ from w dv,
      e = Some (from, n) ∧ (n, w) ∈ neighbors adj from ∧
      last (visit_events pre) = Some (from, dv) ∧
      offer_distance dv w d ∧ n ∉ visit_nodes pre.

(** A visit event, against the events before it: it has no edge, and its
    node is the start node or the node of an earlier enqueue event. *)
Definition visit_discovered (start : nat) (pre : list Step) (ev : Step) : Prop :=
  ∀ n e d, ev = Visit n e d →
    e = None ∧ (n = start ∨ n ∈ enqueue_nodes pre).

(** The events that the [for] loop over the neighbours of [c] can yield,
    when [c] was visited with the distance [d]. *)
Definition offer_event (adj : Adjacency) (V : gset nat) (c : nat)
    (d : option Z) (ev : Step) : Prop :=
  ∃ x w od, ev = enqueue_step c x od ∧ offer_distance d w od ∧
            (x ∉ V) ∧ (x, w) ∈ neighbors adj c.

(** One iteration of any of the three loops, on the visited set and on the
    nodes of the frontier (queue, stack or [pq]): it takes an entry [c] out
    of the frontier, and either drops it, or visits it and adds the nodes
    of the enqueue events that it yields. *)
Definition search_iteration (adj : Adjacency) (V : gset nat) (F : list nat)
    (V' : gset nat) (F' : list nat) (evs : list Step) : Prop :=
  ∃ c rest, F ≡ₚ c :: rest ∧
    ((c ∈ V ∧ V' = V ∧ evs = [] ∧ F' = rest) ∨
     (∃ d offs,
        (c ∉ V) ∧ V' = {[c]} ∪ V ∧ evs = visit_step c d :: offs ∧
        Forall (offer_event adj V' c d) offs ∧
        F' ⊆ rest ++ enqueue_nodes offs)).

Definition search_inv (adj : Adjacency) (start : nat) (V : gset nat)
    (F : list nat) (acc : list Step) : Prop :=
  (∀ v, v ∈ V ↔ v ∈ visit_nodes acc) ∧
  (F ⊆ enqueue_nodes acc ∨ (F = [start] ∧ acc = [])) ∧
  each_prefix (enqueue_justified adj) acc ∧
  each_prefix (visit_discovered start) acc.

(** The elements of a list without the repetitions, each at its first
    occurrence; [seen] holds the elements met so far. *)
Fixpoint first_occurrences (seen : gset nat) (l : list nat) : list nat :=
  match l with
  | [] => []
  | x :: l' =>
      if decide (x ∈ seen) then first_occurrences seen l'
      else x :: first_occurrences ({[x]} ∪ seen) l'
  end.


(** ** Labels *)

Definition is_deleteNode (a : Action) : bool :=
  match a with ActDeleteNode _ => true | _ => false end.

(** The labels of the nodes are those of the positions 0, 1, 2, ... *)
Definition labels_in_order (s : Store) : Prop :=
  node_label <$> nodes s = make_label <$> seq 0 (length (nodes s)).


(** ** The effect of the playback on one node *)

(** What [executeStep step] does to a node, when no other node has its id:
    the node is no longer current, and the event is applied to it when it
    is the node of the event. *)
Definition node_after (step : Step) (n : Node) : Node :=
  let n' := demote_current n in
  if has_id (step_node step) n' then
    match step with
    | Visit _ _ d => assign_distance d (set_node_state st_current n')
    | Enqueue _ _ d =>
        if decide (node_state n' = st_unvisited)
        then assign_distance d (set_node_state st_inQueue n')
        else n'
    | SetDistance _ d => set_node_distance (Finite d) n'
    end
  else n'.

Definition node_after_all (evs : list Step) (n : Node) : Node :=
  foldl (λ m ev, node_after ev m) n evs.


(** ** Two graphs with large weights *)

(** Nodes 0, 1, 2 with the directed edges 0→1 of weight 2^53, 0→2 of
    weight 2^53 + 2 and 1→2 of weight 1, and start 0.  The three weights are
    doubles. *)
Definition large_actions : list Action :=
  [ActSetGraphType directed; ActSetAlgorithm algo_dijkstra;
   ActAddNode 0 0; ActAddNode 0 0; ActAddNode 0 0;
   ActCreateEdge (node_at 0) (node_at 1) (2 ^ 53);
   ActCreateEdge (node_at 0) (node_at 2) (2 ^ 53 + 2);
   ActCreateEdge (node_at 1) (node_at 2) 1;
   ActSetStartNode (node_at 0)].

Definition large_store : Store :=
  default init_store (run_actions large_actions init_store).




(** The first event of a run. *)
Definition first_event (a : Algorithm) (start : nat) : Step :=
  match a with
  | algo_bfs | algo_dfs => Visit start None None
  | algo_dijkstra => SetDistance start 0
  end.

(** What [drawNode] writes above a node as [d=...], if anything. *)
Definition drawn_distance (s : Store) (n : Node) : option Z :=
  match algorithm s, node_distance n, node_state n with
  | algo_dijkstra, Finite d, st_visited => Some d
  | _, _, _ => None
  end.


(** * Properties *)

(** ** The generators on the sample graph *)

Example sample_store_loaded :
  loadSampleGraph init_store = Returned sample_store ∧
  node_label <$> nodes sample_store =
    ["A"; "B"; "C"; "D"; "E"; "F"; "G"; "H"]%string ∧
  length (edges sample_store) = 10 ∧
  neighbors (adjacencyList sample_store) 2 =
    [(0, 2%Z); (4, 3%Z); (5, 6%Z); (6, 2%Z)] ∧
  startNode sample_store = Some 0.
Proof.
  split; [vm_compute; reflexivity|]. split; [vm_compute; reflexivity|].
  split; [vm_compute; reflexivity|]. split; vm_compute; reflexivity.
Qed.

Example sample_bfs_order :
  visit_nodes <$> bfs (adjacencyList sample_store) 0 =
  Some [0; 1; 2; 3; 4; 5; 6; 7].
Proof. vm_compute. reflexivity. Qed.

Example sample_dfs_order :
  visit_nodes <$> dfs (adjacencyList sample_store) 0 =
  Some [0; 1; 3; 4; 2; 5; 7; 6].
Proof. vm_compute. reflexivity. Qed.

Example sample_dijkstra_visits :
  visit_events <$> dijkstra (nodes sample_store) (adjacencyList sample_store) 0 =
  Some [(0, Some 0%Z); (2, Some 2%Z); (1, Some 4%Z); (6, Some 4%Z);
        (4, Some 5%Z); (5, Some 7%Z); (7, Some 8%Z); (3, Some 9%Z)].
Proof. vm_compute. reflexivity. Qed.

(** ** The addition of doubles *)

Example js_add_examples :
  js_add 3 4 = Finite 7 ∧
  js_add (2 ^ 53) 1 = Finite (2 ^ 53) ∧
  js_add (2 ^ 53 + 2) 1 = Finite (2 ^ 53 + 4) ∧
  js_add (2 ^ 1023) (2 ^ 1023) = Infinity ∧
  js_add (- 2 ^ 1023) (- 2 ^ 1023) = Finite neg_infinity ∧
  js_add neg_infinity (2 ^ 1023) = Finite neg_infinity ∧
  js_round (- max_double - 2 ^ 970 + 1) = Finite (- max_double) ∧
  js_round max_double = Finite max_double ∧
  js_round (max_double + 2 ^ 970 - 1) = Finite max_double ∧
  js_round (max_double + 2 ^ 970) = Infinity.
Proof. repeat split; vm_compute; reflexivity. Qed.

Lemma round_magnitude_small z :
  (0 ≤ z < 2 ^ 53)%Z → round_magnitude z = z.
Proof.
  intros [H0 H1]. unfold round_magnitude, ulp_exp.
  assert (He : Z.max 0 (Z.log2 z - 52) = 0%Z).
  { destruct (decide (z = 0%Z)) as [->|Hz]; [done|].
    assert (Z.log2 z < 53)%Z by (apply Z.log2_lt_pow2; lia). lia. }
  rewrite He. change (2 ^ 0)%Z with 1%Z. rewrite Z.div_1_r, Z.mod_1_r.
  simpl. lia.
Qed.

(** Up to 2^53 in absolute value, every integer is a double. *)
Lemma js_round_exact z : (Z.abs z ≤ 2 ^ 53)%Z → js_round z = Finite z.
Proof.
  intros Hz. unfold js_round.
  assert (Hcase : ∀ y, (0 ≤ y ≤ 2 ^ 53)%Z → round_magnitude y = y).
  { intros y [H0 H1]. destruct (decide (y = 2 ^ 53)%Z) as [->|Hne].
    - by vm_compute.
    - apply round_magnitude_small. lia. }
  destruct (0 <=? z)%Z eqn:Hs.
  - apply Z.leb_le in Hs. rewrite Hcase by lia.
    rewrite (proj2 (Z.leb_le _ _)); [done|].
    transitivity (2 ^ 53)%Z; [lia|]. by vm_compute.
  - apply Z.leb_gt in Hs. rewrite Hcase by lia.
    rewrite (proj2 (Z.leb_le _ _)); [f_equal; lia|].
    transitivity (2 ^ 53)%Z; [lia|]. by vm_compute.
Qed.

Lemma js_add_finite a b :
  a ≠ neg_infinity → js_add a b = js_round (a + b).
Proof.
  intros Ha. unfold js_add. by rewrite (proj2 (Z.eqb_neq _ _) Ha).
Qed.

Lemma neg_infinity_far z : (Z.abs z ≤ 2 ^ 53)%Z → z ≠ neg_infinity.
Proof.
  intros Hz ->. revert Hz. apply Z.lt_nge. by vm_compute.
Qed.

Lemma js_add_exact a b :
  a ≠ neg_infinity → (Z.abs (a + b) ≤ 2 ^ 53)%Z →
  js_add a b = Finite (a + b).
Proof. intros Ha Hs. rewrite js_add_finite by done. by apply js_round_exact. Qed.

Lemma round_magnitude_unfold z :
  round_magnitude z =
  ((let q := z / 2 ^ ulp_exp z in
    let r := z mod 2 ^ ulp_exp z in
    if 2 * r <? 2 ^ ulp_exp z then q
    else if 2 ^ ulp_exp z <? 2 * r then q + 1
    else if Z.even q then q else q + 1) * 2 ^ ulp_exp z)%Z.
Proof. reflexivity. Qed.

Lemma ulp_exp_nonneg z : (0 ≤ ulp_exp z)%Z.
Proof. unfold ulp_exp. lia. Qed.

Lemma ulp_pos z : (0 < 2 ^ ulp_exp z)%Z.
Proof. apply Z.pow_pos_nonneg; [lia|apply ulp_exp_nonneg]. Qed.

(** The quotient by the unit in the last place has at most 53 bits, and
    exactly 53 when the unit is not 1. *)
Lemma quotient_bounds z :
  (0 ≤ z)%Z →
  (0 ≤ z / 2 ^ ulp_exp z < 2 ^ 53)%Z ∧
  ((0 < ulp_exp z)%Z → (2 ^ 52 ≤ z / 2 ^ ulp_exp z)%Z).
Proof.
  intros Hz. pose proof (ulp_pos z) as Hu.
  destruct (decide (z = 0%Z)) as [->|Hne].
  { vm_compute. split; [split; [discriminate|reflexivity]|discriminate]. }
  destruct (Z.log2_spec z) as [Hlo Hhi]; [lia|].
  unfold ulp_exp in *.
  destruct (Z.max_spec 0 (Z.log2 z - 52)) as [[Hlt He]|[Hle He]]; rewrite He in *.
  - split; [split; [by apply Z.div_pos|]|intros _].
    + apply Z.div_lt_upper_bound; [done|].
      rewrite <- Z.pow_add_r by lia.
      replace (Z.log2 z - 52 + 53)%Z with (Z.succ (Z.log2 z)) by lia. done.
    + apply Z.div_le_lower_bound; [done|].
      rewrite <- Z.pow_add_r by lia.
      replace (Z.log2 z - 52 + 52)%Z with (Z.log2 z) by lia. done.
  - change (2 ^ 0)%Z with 1%Z. rewrite Z.div_1_r. split; [|lia]. split; [lia|].
    eapply Z.lt_le_trans; [exact Hhi|]. apply Z.pow_le_mono_r; lia.
Qed.

Lemma round_magnitude_bounds z :
  (0 ≤ z)%Z →
  (z / 2 ^ ulp_exp z * 2 ^ ulp_exp z ≤ round_magnitude z
     ≤ (z / 2 ^ ulp_exp z + 1) * 2 ^ ulp_exp z)%Z.
Proof.
  intros Hz. rewrite round_magnitude_unfold. pose proof (ulp_pos z) as Hu.
  cbv zeta. repeat case_match; nia.
Qed.

Lemma round_magnitude_nonneg z : (0 ≤ z)%Z → (0 ≤ round_magnitude z)%Z.
Proof.
  intros Hz. pose proof (round_magnitude_bounds z Hz) as [Hlo _].
  pose proof (ulp_pos z). destruct (quotient_bounds z Hz) as [[Hq _] _]. nia.
Qed.

Lemma ulp_exp_mono a b : (0 ≤ a ≤ b)%Z → (ulp_exp a ≤ ulp_exp b)%Z.
Proof.
  intros [Ha Hab]. unfold ulp_exp.
  pose proof (Z.log2_le_mono a b Hab). lia.
Qed.

(** Rounding is monotone. *)
Lemma round_magnitude_mono a b :
  (0 ≤ a ≤ b)%Z → (round_magnitude a ≤ round_magnitude b)%Z.
Proof.
  intros [Ha Hab]. pose proof (ulp_exp_mono a b (conj Ha Hab)) as He.
  pose proof (ulp_pos a) as Hua. pose proof (ulp_pos b) as Hub.
  destruct (decide (ulp_exp a = ulp_exp b)) as [Heq|Hne].
  - rewrite !round_magnitude_unfold. rewrite <- Heq in *. cbv zeta.
    set (U := (2 ^ ulp_exp a)%Z) in *.
    pose proof (Z.div_mod a U ltac:(lia)) as Hda.
    pose proof (Z.div_mod b U ltac:(lia)) as Hdb.
    pose proof (Z.mod_pos_bound a U Hua) as Hra.
    pose proof (Z.mod_pos_bound b U Hua) as Hrb.
    pose proof (Z.div_le_mono a b U Hua Hab) as Hq.
    destruct (decide (a / U = b / U)%Z) as [Hqeq|Hqne].
    + rewrite <- Hqeq in *.
      repeat case_match; rewrite ?Z.ltb_lt, ?Z.ltb_ge in *; try nia; congruence.
    + assert (a / U + 1 ≤ b / U)%Z by lia.
      repeat case_match; nia.
  - assert (Hlt : (ulp_exp a + 1 ≤ ulp_exp b)%Z) by lia.
    pose proof (round_magnitude_bounds a Ha) as [_ Hra].
    pose proof (round_magnitude_bounds b ltac:(lia)) as [Hrb _].
    destruct (quotient_bounds a Ha) as [[_ Hqa] _].
    destruct (quotient_bounds b ltac:(lia)) as [_ Hqb].
    specialize (Hqb ltac:(pose proof (ulp_exp_nonneg a); lia)).
    assert (Hpow : (2 * 2 ^ ulp_exp a ≤ 2 ^ ulp_exp b)%Z).
    { rewrite <- Z.pow_succ_r by apply ulp_exp_nonneg.
      apply Z.pow_le_mono_r; lia. }
    change (2 ^ 53)%Z with (2 * 2 ^ 52)%Z in Hqa.
    assert (0 < 2 ^ 52)%Z by done.
    nia.
Qed.

Lemma ulp_exp_of_quotient q e :
  (0 ≤ e)%Z → (2 ^ 52 ≤ q < 2 ^ 53)%Z → ulp_exp (q * 2 ^ e) = e.
Proof.
  intros He [Hlo Hhi]. unfold ulp_exp.
  assert (Z.log2 (q * 2 ^ e) = 52 + e)%Z as ->; [|rewrite Z.max_r; lia].
  apply Z.log2_unique; [lia|].
  replace (Z.succ (52 + e)) with (53 + e)%Z by lia.
  rewrite !Z.pow_add_r by lia.
  pose proof (Z.pow_pos_nonneg 2 e ltac:(lia) He).
  split.
  - apply Z.mul_le_mono_nonneg_r; lia.
  - apply Z.mul_lt_mono_pos_r; lia.
Qed.

Lemma round_magnitude_fixed q e :
  (0 ≤ e)%Z → (2 ^ 52 ≤ q < 2 ^ 53)%Z →
  round_magnitude (q * 2 ^ e) = (q * 2 ^ e)%Z.
Proof.
  intros He Hq. rewrite round_magnitude_unfold, (ulp_exp_of_quotient q e He Hq).
  pose proof (Z.pow_pos_nonneg 2 e ltac:(lia) He).
  rewrite Z.div_mul, Z.mod_mul by lia. cbv zeta.
  by rewrite (proj2 (Z.ltb_lt (2 * 0) (2 ^ e))) by lia.
Qed.

(** The result of a rounding is a double: rounding it again changes
    nothing. *)
Lemma round_magnitude_idem z :
  (0 ≤ z)%Z → round_magnitude (round_magnitude z) = round_magnitude z.
Proof.
  intros Hz. destruct (quotient_bounds z Hz) as [[Hq0 Hq1] Hq2].
  pose proof (ulp_exp_nonneg z) as He. pose proof (ulp_pos z) as Hu.
  destruct (decide (ulp_exp z = 0%Z)) as [He0|Hne].
  - assert (Hsmall : round_magnitude z = z).
    { apply round_magnitude_small. rewrite He0 in Hq1.
      change (2 ^ 0)%Z with 1%Z in Hq1. rewrite Z.div_1_r in Hq1. lia. }
    by rewrite Hsmall.
  - specialize (Hq2 ltac:(lia)).
    assert (Hcases :
      round_magnitude z = (z / 2 ^ ulp_exp z * 2 ^ ulp_exp z)%Z ∨
      round_magnitude z = ((z / 2 ^ ulp_exp z + 1) * 2 ^ ulp_exp z)%Z).
    { rewrite round_magnitude_unfold. cbv zeta. repeat case_match; auto. }
    destruct Hcases as [-> | ->].
    + by apply round_magnitude_fixed.
    + destruct (decide (z / 2 ^ ulp_exp z + 1 = 2 ^ 53)%Z) as [Htop|Hlow].
      * rewrite Htop. change (2 ^ 53)%Z with (2 ^ 52 * 2)%Z.
        rewrite <- Z.mul_assoc, <- Z.pow_succ_r by done.
        apply round_magnitude_fixed; [lia|done].
      * apply round_magnitude_fixed; [done|lia].
Qed.

Lemma js_round_nonneg_inv z y :
  (0 ≤ z)%Z → js_round z = Finite y →
  y = round_magnitude z ∧ (0 ≤ y)%Z ∧ js_round y = Finite y.
Proof.
  intros Hz. unfold js_round. rewrite (proj2 (Z.leb_le 0 z) Hz).
  destruct (round_magnitude z <=? max_double)%Z eqn:Hmax; [|done].
  intros [= <-]. pose proof (round_magnitude_nonneg z Hz) as Hn.
  split; [done|]. split; [done|].
  rewrite (proj2 (Z.leb_le 0 _) Hn), round_magnitude_idem by done.
  by rewrite Hmax.
Qed.

(** Adding a weight that is not negative to a double that is not negative
    gives a double that is not smaller. *)
Lemma js_add_ge d w d' :
  (0 ≤ d)%Z → js_round d = Finite d → (0 ≤ w)%Z → js_add d w = Finite d' →
  (d ≤ d')%Z ∧ js_round d' = Finite d'.
Proof.
  intros Hd Hrep Hw Hadd. rewrite js_add_finite in Hadd.
  2: { intros ->. revert Hd. apply Z.lt_nge. by vm_compute. }
  apply js_round_nonneg_inv in Hrep as (Hrd & _ & _); [|done].
  apply js_round_nonneg_inv in Hadd as (-> & _ & Hfix); [|lia].
  split; [|done]. rewrite Hrd. apply round_magnitude_mono. lia.
Qed.

(** ** The loop combinator *)

Section LoopFacts.
Context {St : Type}.
Variable body : St → option (St * list Step).

(** An invariant over the loop state and the events yielded so far holds,
    when the loop ends, for a state on which the loop condition fails. *)
Lemma while_loop_invariant (I : St → list Step → Prop) :
  (∀ st pre st' evs, I st pre → body st = Some (st', evs) → I st' (pre ++ evs)) →
  ∀ fuel st pre out,
    I st pre → while_loop body fuel st = Some out →
    ∃ st', body st' = None ∧ I st' (pre ++ out).
Proof.
  intros Hstep. induction fuel as [|fuel IH]; intros st pre out HI Hrun.
  - discriminate.
  - simpl in Hrun. destruct (body st) as [[st1 evs]|] eqn:Hb.
    + destruct (while_loop body fuel st1) as [rest|] eqn:Hrest; [|discriminate].
      injection Hrun as <-.
      destruct (IH st1 (pre ++ evs) rest) as (st' & Hnone & HI').
      * eapply Hstep; eauto.
      * exact Hrest.
      * exists st'. split; [exact Hnone|]. by rewrite app_assoc.
    + injection Hrun as <-. exists st. split; [exact Hb|]. by rewrite app_nil_r.
Qed.

(** A measure that every iteration decreases bounds the fuel needed. *)
Lemma while_loop_terminates (μ : St → nat) :
  (∀ st st' evs, body st = Some (st', evs) → μ st' < μ st) →
  ∀ fuel st, μ st < fuel → is_Some (while_loop body fuel st).
Proof.
  intros Hdec. induction fuel as [|fuel IH]; intros st Hlt; [lia|].
  simpl. destruct (body st) as [[st1 evs]|] eqn:Hb; [|by eexists].
  destruct (IH st1) as [rest Hrest].
  - specialize (Hdec _ _ _ Hb). lia.
  - rewrite Hrest. by eexists.
Qed.
End LoopFacts.

(** ** Termination measure *)

Lemma entries_outside_cons (V : gset nat) (k : nat) (l : list AdjEntry)
    (L : list (nat * list AdjEntry)) :
  entries_outside V ((k, l) :: L) =
  if decide (k ∈ V) then entries_outside V L
  else length l + entries_outside V L.
Proof.
  unfold entries_outside. rewrite filter_cons. simpl.
  destruct (decide (k ∉ V)) as [Hk|Hk].
  - by rewrite decide_False.
  - rewrite decide_True; [done|]. by apply dec_stable.
Qed.

Lemma entries_outside_mono (L : list (nat * list AdjEntry)) (V : gset nat) (c : nat) :
  entries_outside ({[c]} ∪ V) L ≤ entries_outside V L.
Proof.
  induction L as [|[k l] L IH]; [done|].
  rewrite !entries_outside_cons.
  destruct (decide (k ∈ V)).
  - rewrite decide_True by set_solver. done.
  - destruct (decide (k ∈ {[c]} ∪ V)); lia.
Qed.

Lemma entries_outside_visit (L : list (nat * list AdjEntry)) (V : gset nat)
    (c : nat) (l : list AdjEntry) :
  c ∉ V → (c, l) ∈ L →
  entries_outside ({[c]} ∪ V) L + length l ≤ entries_outside V L.
Proof.
  intros Hc. induction L as [|[k l'] L IH]; intros Hin.
  - by apply elem_of_nil in Hin.
  - rewrite !entries_outside_cons.
    apply elem_of_cons in Hin as [Heq|Hin].
    + injection Heq as <- <-.
      rewrite decide_True by set_solver. rewrite decide_False by done.
      pose proof (entries_outside_mono L V c). lia.
    + specialize (IH Hin).
      destruct (decide (k ∈ V)).
      * rewrite decide_True by set_solver. done.
      * destruct (decide (k ∈ {[c]} ∪ V)); lia.
Qed.

Lemma pending_entries_visit (adj : Adjacency) (V : gset nat) (c : nat) :
  c ∉ V →
  pending_entries adj ({[c]} ∪ V) + length (neighbors adj c)
  ≤ pending_entries adj V.
Proof.
  intros Hc. unfold pending_entries, neighbors.
  destruct (adj !! c) as [l|] eqn:Hl; simpl.
  - apply entries_outside_visit; [done|]. by apply elem_of_map_to_list.
  - pose proof (entries_outside_mono (map_to_list adj) V c). lia.
Qed.

(** ** The [for] loops over the neighbours *)

Lemma bfs_offer_spec (V : gset nat) (c : nat) (nbrs : list AdjEntry)
    (queue : list nat) :
  bfs_offer V c nbrs queue =
  (queue ++ offered V nbrs, (λ n, enqueue_step c n None) <$> offered V nbrs).
Proof.
  revert queue. induction nbrs as [|[n w] nbrs IH]; intros queue; simpl.
  - by rewrite app_nil_r.
  - unfold offered. rewrite fmap_cons, filter_cons. simpl.
    destruct (decide (n ∈ V)) as [Hn|Hn].
    + rewrite decide_False by tauto. apply IH.
    + rewrite decide_True by done. rewrite IH.
      by rewrite <- app_assoc.
Qed.

Lemma dfs_offer_spec (V : gset nat) (c : nat) (nbrs : list AdjEntry)
    (stack : list nat) :
  dfs_offer V c nbrs stack =
  (reverse (offered V nbrs) ++ stack,
   (λ n, enqueue_step c n None) <$> offered V nbrs).
Proof.
  revert stack. induction nbrs as [|[n w] nbrs IH]; intros stack; simpl.
  - done.
  - unfold offered. rewrite fmap_cons, filter_cons. simpl.
    destruct (decide (n ∈ V)) as [Hn|Hn].
    + rewrite decide_False by tauto. apply IH.
    + rewrite decide_True by done. rewrite IH.
      by rewrite reverse_cons, <- app_assoc.
Qed.

Lemma offered_length (V : gset nat) (nbrs : list AdjEntry) :
  length (offered V nbrs) ≤ length nbrs.
Proof.
  unfold offered. etransitivity; [apply length_filter|]. by rewrite length_fmap.
Qed.

Lemma elem_of_offered (V : gset nat) (nbrs : list AdjEntry) (x : nat) :
  x ∈ offered V nbrs ↔ (x ∉ V) ∧ ∃ w, (x, w) ∈ nbrs.
Proof.
  unfold offered. rewrite list_elem_of_filter, list_elem_of_fmap.
  split.
  - intros [Hx [[y w] [-> Hin]]]. split; [done|]. by exists w.
  - intros [Hx [w Hin]]. split; [done|]. by exists (x, w).
Qed.

Lemma visit_nodes_app (l1 l2 : list Step) :
  visit_nodes (l1 ++ l2) = visit_nodes l1 ++ visit_nodes l2.
Proof. apply omap_app. Qed.

Lemma visit_nodes_enqueues (c : nat) (d : nat → option Z) (l : list nat) :
  visit_nodes ((λ n, enqueue_step c n (d n)) <$> l) = [].
Proof. induction l as [|n l IH]; [done|]. exact IH. Qed.

Lemma visit_nodes_visit (c : nat) (d : option Z) (evs : list Step) :
  visit_nodes evs = [] → visit_nodes (visit_step c d :: evs) = [c].
Proof.
  intros H. change (visit_nodes ([visit_step c d] ++ evs) = [c]).
  by rewrite visit_nodes_app, H.
Qed.

Lemma bfs_body_shape adj V Q V' Q' evs :
  bfs_body adj (V, Q) = Some ((V', Q'), evs) → iteration_shape V V' evs.
Proof.
  unfold bfs_body. destruct Q as [|c Q]; [done|].
  destruct (decide (c ∈ V)) as [Hc|Hc].
  - intros [= <- <- <-]. by left.
  - rewrite bfs_offer_spec. intros [= <- <- <-]. right. exists c.
    split; [done|]. split; [done|].
    simpl. change (c :: ?l) with ([c] ++ l).
    by rewrite (visit_nodes_enqueues c (λ _, None)).
Qed.

Lemma dfs_body_shape adj V Q V' Q' evs :
  dfs_body adj (V, Q) = Some ((V', Q'), evs) → iteration_shape V V' evs.
Proof.
  unfold dfs_body. destruct Q as [|c Q]; [done|].
  destruct (decide (c ∈ V)) as [Hc|Hc].
  - intros [= <- <- <-]. by left.
  - rewrite dfs_offer_spec. intros [= <- <- <-]. right. exists c.
    split; [done|]. split; [done|].
    simpl. change (c :: ?l) with ([c] ++ l).
    by rewrite (visit_nodes_enqueues c (λ _, None)).
Qed.

(** ** The priority queue *)

Lemma pq_insert_perm (x : PqEntry) (l : list PqEntry) : pq_insert x l ≡ₚ x :: l.
Proof.
  induction l as [|y l IH]; [done|]. simpl.
  destruct (x.2 <=? y.2)%Z; [done|].
  rewrite IH. apply perm_swap.
Qed.

Lemma pq_sort_perm (l : list PqEntry) : pq_sort l ≡ₚ l.
Proof.
  induction l as [|x l IH]; [done|]. simpl.
  rewrite pq_insert_perm. by rewrite IH.
Qed.

Lemma pq_insert_sorted (x : PqEntry) (l : list PqEntry) :
  StronglySorted pq_le l → StronglySorted pq_le (pq_insert x l).
Proof.
  induction 1 as [|y l Hl IH Hy]; simpl.
  - repeat constructor.
  - destruct (x.2 <=? y.2)%Z eqn:Hxy.
    + apply Z.leb_le in Hxy. constructor; [by constructor|].
      constructor; [exact Hxy|].
      eapply Forall_impl; [exact Hy|]. unfold pq_le. intros; lia.
    + apply Z.leb_gt in Hxy. constructor; [exact IH|].
      rewrite pq_insert_perm. constructor; [unfold pq_le; lia|exact Hy].
Qed.

Lemma pq_sort_sorted (l : list PqEntry) : StronglySorted pq_le (pq_sort l).
Proof.
  induction l as [|x l IH]; simpl; [constructor|]. by apply pq_insert_sorted.
Qed.

(** After the sort, the head of [pq] has the least [dist] of all entries. *)
Lemma pq_sort_head_min (l rest : list PqEntry) (c : nat) (d : Z) :
  pq_sort l = (c, d) :: rest →
  ∀ z d', (z, d') ∈ l → (d ≤ d')%Z.
Proof.
  intros Hs z d' Hin.
  pose proof (pq_sort_sorted l) as Hsorted. rewrite Hs in Hsorted.
  apply StronglySorted_inv in Hsorted as [_ Hall].
  rewrite <- (pq_sort_perm l), Hs in Hin.
  apply elem_of_cons in Hin as [[= -> ->]|Hin]; [lia|].
  rewrite Forall_forall in Hall. exact (Hall _ Hin).
Qed.

(** ** The relaxation loop of [dijkstra] *)

Lemma dijkstra_relax_pq V c d nbrs D pq D' pq' evs :
  dijkstra_relax V c d nbrs D pq = (D', pq', evs) →
  ∃ added,
    pq' = pq ++ added ∧ length added ≤ length nbrs ∧ visit_nodes evs = [] ∧
    ∀ x d', (x, d') ∈ added →
      (x ∉ V) ∧ ∃ w, (x, w) ∈ nbrs ∧ js_add d w = Finite d'.
Proof.
  revert D pq D' pq' evs.
  induction nbrs as [|[n w] nbrs IH]; intros D pq D' pq' evs; cbn [dijkstra_relax].
  - intros [= <- <- <-]. exists []. rewrite app_nil_r.
    split; [done|]. split; [done|]. split; [done|].
    intros x d' Hin. by apply elem_of_nil in Hin.
  - assert (Hskip : ∀ D0 pq0,
      dijkstra_relax V c d nbrs D0 pq0 = (D', pq', evs) →
      ∃ added,
        pq' = pq0 ++ added ∧ length added ≤ S (length nbrs) ∧
        visit_nodes evs = [] ∧
        ∀ x d', (x, d') ∈ added →
          (x ∉ V) ∧ ∃ w', (x, w') ∈ (n, w) :: nbrs ∧ js_add d w' = Finite d').
    { intros D0 pq0 Hr.
      destruct (IH _ _ _ _ _ Hr) as (added & -> & Hlen & Hev & Hadd).
      exists added. split; [done|]. split; [lia|]. split; [done|].
      intros x d' Hin. destruct (Hadd _ _ Hin) as (Hx & w' & Hw' & Hsum).
      split; [done|]. exists w'. split; [by apply elem_of_cons; right|done]. }
    destruct (decide (n ∈ V)) as [Hn|Hn]; [apply Hskip|].
    destruct (js_add d w) as [z|] eqn:Hz; [|apply Hskip].
    destruct (lt_distance (Finite z) (D !! n)); [|apply Hskip].
    destruct (dijkstra_relax V c d nbrs (<[n:=Finite z]> D)
                (pq ++ [(n, z)])) as [[D1 pq1] evs1] eqn:Hr.
    intros [= <- <- <-].
    destruct (IH _ _ _ _ _ Hr) as (added & -> & Hlen & Hev & Hadd).
    exists ((n, z) :: added). rewrite <- app_assoc.
    split; [done|]. split; [simpl; lia|]. split; [exact Hev|].
    intros x d' Hin. apply elem_of_cons in Hin as [[= -> ->]|Hin].
    + split; [done|]. exists w. split; [by apply elem_of_cons; left|done].
    + destruct (Hadd _ _ Hin) as (Hx & w' & Hw' & Hsum).
      split; [done|]. exists w'. split; [by apply elem_of_cons; right|done].
Qed.

Lemma dijkstra_body_shape adj st st' evs :
  dijkstra_body adj st = Some (st', evs) →
  iteration_shape (dj_visited st) (dj_visited st') evs.
Proof.
  unfold dijkstra_body. destruct (pq_sort (dj_pq st)) as [|[c d] pq]; [done|].
  destruct (decide (c ∈ dj_visited st)) as [Hc|Hc].
  - intros [= <- <-]. by left.
  - destruct (dijkstra_relax _ c d _ _ pq) as [[D1 pq1] evs1] eqn:Hr.
    intros [= <- <-]. right. exists c. simpl.
    split; [done|]. split; [done|].
    apply dijkstra_relax_pq in Hr as (added & _ & _ & Hev & _).
    change (visit_nodes ([visit_step c (Some d)] ++ evs1) = [c]).
    by rewrite visit_nodes_app, Hev.
Qed.

(** ** Termination *)

Lemma bfs_body_decreases adj st st' evs :
  bfs_body adj st = Some (st', evs) →
  search_measure adj st' < search_measure adj st.
Proof.
  destruct st as [V Q]. unfold bfs_body, search_measure.
  destruct Q as [|c Q]; [done|].
  destruct (decide (c ∈ V)) as [Hc|Hc].
  - intros [= <- <-]. simpl. lia.
  - rewrite bfs_offer_spec. intros [= <- <-]. simpl.
    rewrite length_app.
    pose proof (offered_length ({[c]} ∪ V) (neighbors adj c)).
    pose proof (pending_entries_visit adj V c Hc). lia.
Qed.

Lemma dfs_body_decreases adj st st' evs :
  dfs_body adj st = Some (st', evs) →
  search_measure adj st' < search_measure adj st.
Proof.
  destruct st as [V Q]. unfold dfs_body, search_measure.
  destruct Q as [|c Q]; [done|].
  destruct (decide (c ∈ V)) as [Hc|Hc].
  - intros [= <- <-]. simpl. lia.
  - rewrite dfs_offer_spec. intros [= <- <-]. simpl.
    rewrite length_app, length_reverse.
    pose proof (offered_length ({[c]} ∪ V) (reverse (neighbors adj c))) as Hl.
    rewrite length_reverse in Hl.
    pose proof (pending_entries_visit adj V c Hc). lia.
Qed.

Lemma dijkstra_body_decreases adj st st' evs :
  dijkstra_body adj st = Some (st', evs) →
  dijkstra_measure adj st' < dijkstra_measure adj st.
Proof.
  unfold dijkstra_body, dijkstra_measure.
  pose proof (Permutation_length (pq_sort_perm (dj_pq st))) as Hlen.
  destruct (pq_sort (dj_pq st)) as [|[c d] pq]; [done|]. simpl in Hlen.
  destruct (decide (c ∈ dj_visited st)) as [Hc|Hc].
  - intros [= <- <-]. simpl. lia.
  - destruct (dijkstra_relax _ c d _ _ pq) as [[D1 pq1] evs1] eqn:Hr.
    intros [= <- <-]. simpl.
    apply dijkstra_relax_pq in Hr as (added & -> & Hadd & _).
    rewrite length_app.
    pose proof (pending_entries_visit adj (dj_visited st) c Hc). lia.
Qed.

Lemma bfs_terminates adj start : is_Some (bfs adj start).
Proof.
  apply (while_loop_terminates _ (search_measure adj)).
  - intros st st' evs. apply bfs_body_decreases.
  - unfold search_measure, traversal_fuel. simpl. lia.
Qed.

Lemma dfs_terminates adj start : is_Some (dfs adj start).
Proof.
  apply (while_loop_terminates _ (search_measure adj)).
  - intros st st' evs. apply dfs_body_decreases.
  - unfold search_measure, traversal_fuel. simpl. lia.
Qed.

Lemma dijkstra_loop_terminates ns adj start :
  is_Some (while_loop (dijkstra_body adj) (traversal_fuel adj)
             (dijkstra_init ns start)).
Proof.
  apply (while_loop_terminates _ (dijkstra_measure adj)).
  - intros st st' evs. apply dijkstra_body_decreases.
  - unfold dijkstra_measure, traversal_fuel. simpl. lia.
Qed.

Lemma dijkstra_terminates ns adj start : is_Some (dijkstra ns adj start).
Proof.
  unfold dijkstra.
  destruct (dijkstra_loop_terminates ns adj start) as [evs ->]. by eexists.
Qed.

Lemma run_algorithm_terminates a ns adj start :
  is_Some (run_algorithm a ns adj start).
Proof.
  destruct a; simpl;
    [apply bfs_terminates|apply dfs_terminates|apply dijkstra_terminates].
Qed.

(** ** Each node is visited at most once *)

Lemma visited_once_step V V' pre evs :
  visited_once V pre → iteration_shape V V' evs →
  visited_once V' (pre ++ evs).
Proof.
  intros [Hiff Hnd] [[-> Hev]|(c & Hc & -> & Hev)];
    unfold visited_once; rewrite visit_nodes_app, Hev.
  - by rewrite app_nil_r.
  - split.
    + intros v.
      rewrite elem_of_app, list_elem_of_singleton, <- Hiff, elem_of_union,
        elem_of_singleton. tauto.
    + apply NoDup_app. split; [done|]. split; [|apply NoDup_singleton].
      intros x Hx ->%list_elem_of_singleton. by apply Hc, Hiff.
Qed.

Lemma visited_once_init : visited_once ∅ [].
Proof.
  split; [|constructor]. intros v. simpl. set_solver.
Qed.

Lemma bfs_visited_once adj start evs :
  bfs adj start = Some evs → NoDup (visit_nodes evs).
Proof.
  intros Hrun.
  destruct (while_loop_invariant (bfs_body adj)
              (λ st pre, visited_once st.1 pre)) with
    (fuel := traversal_fuel adj) (st := ((∅, [start]) : gset nat * list nat))
    (pre := @nil Step) (out := evs) as (st' & _ & _ & Hnd).
  - intros [V Q] pre [V' Q'] ev HI Hb. simpl in *.
    eapply visited_once_step; [exact HI|]. by eapply bfs_body_shape.
  - apply visited_once_init.
  - exact Hrun.
  - exact Hnd.
Qed.

Lemma dfs_visited_once adj start evs :
  dfs adj start = Some evs → NoDup (visit_nodes evs).
Proof.
  intros Hrun.
  destruct (while_loop_invariant (dfs_body adj)
              (λ st pre, visited_once st.1 pre)) with
    (fuel := traversal_fuel adj) (st := ((∅, [start]) : gset nat * list nat))
    (pre := @nil Step) (out := evs) as (st' & _ & _ & Hnd).
  - intros [V Q] pre [V' Q'] ev HI Hb. simpl in *.
    eapply visited_once_step; [exact HI|]. by eapply dfs_body_shape.
  - apply visited_once_init.
  - exact Hrun.
  - exact Hnd.
Qed.

Lemma dijkstra_visited_once ns adj start evs :
  dijkstra ns adj start = Some evs → NoDup (visit_nodes evs).
Proof.
  unfold dijkstra.
  destruct (while_loop _ _ _) as [out|] eqn:Hrun; [|done].
  intros [= <-].
  destruct (while_loop_invariant (dijkstra_body adj)
              (λ st pre, visited_once (dj_visited st) pre)) with
    (fuel := traversal_fuel adj) (st := dijkstra_init ns start)
    (pre := @nil Step) (out := out) as (st' & _ & _ & Hnd).
  - intros st pre st' ev HI Hb.
    eapply visited_once_step; [exact HI|]. by eapply dijkstra_body_shape.
  - apply visited_once_init.
  - exact Hrun.
  - exact Hnd.
Qed.

(** ** The frontier invariant *)

Lemma path_cost_reachable adj start cost v c :
  path_cost adj start cost v c → reachable adj start v.
Proof.
  induction 1 as [|u v w c _ IH Hin]; [constructor|].
  by eapply reachable_step.
Qed.

Lemma reachable_path_cost adj start cost v :
  reachable adj start v → ∃ c, path_cost adj start cost v c.
Proof.
  induction 1 as [|u v w _ [c IH] Hin].
  - exists 0%Z. constructor.
  - exists (c + cost w)%Z. by eapply path_snoc.
Qed.

Section FrontierFacts.
Variable adj : Adjacency.
Variable start : nat.
Variable cost : Z → Z.

Lemma frontier_init : frontier_inv adj start cost ∅ [] [(start, 0%Z)].
Proof.
  split.
  - intros v. simpl. set_solver.
  - intros v d [= -> ->]%list_elem_of_singleton. constructor.
  - intros v d Hin. by apply elem_of_nil in Hin.
  - intros v dv x w Hin. by apply elem_of_nil in Hin.
  - right. exists 0%Z. split; [by apply list_elem_of_singleton|done].
Qed.

(** A frontier entry of a visited node is discarded. *)
Lemma frontier_discard V S F F' c d :
  frontier_inv adj start cost V S F →
  c ∈ V →
  (∀ e, e ∈ F → e = (c, d) ∨ e ∈ F') →
  (∀ e, e ∈ F' → e ∈ F) →
  frontier_inv adj start cost V S F'.
Proof.
  intros [Hv Hfp Hsp He Hs] Hc Hcover Hsub. split.
  - exact Hv.
  - intros v d0 Hin. apply Hfp. by apply Hsub.
  - exact Hsp.
  - intros v dv x w Hin Hnb.
    destruct (He v dv x w Hin Hnb) as [Hx|(d' & Hd' & Hle)]; [by left|].
    destruct (Hcover _ Hd') as [[= -> ->]|Hin']; [by left|].
    right. by exists d'.
  - destruct Hs as [Hs|(d' & Hd' & Hle)]; [by left|].
    destruct (Hcover _ Hd') as [[= -> ->]|Hin']; [by left|].
    right. by exists d'.
Qed.

(** A frontier entry [(c, d)] is visited and the neighbours of [c] are
    offered to the frontier. *)
Lemma frontier_visit V S F F' c d :
  frontier_inv adj start cost V S F →
  (c, d) ∈ F →
  (∀ e, e ∈ F → e = (c, d) ∨ e ∈ F') →
  (∀ x d', (x, d') ∈ F' →
     (x, d') ∈ F ∨ ∃ w, (x, w) ∈ neighbors adj c ∧ d' = (d + cost w)%Z) →
  (∀ x w, (x, w) ∈ neighbors adj c →
     x ∈ {[c]} ∪ V ∨ ∃ d', (x, d') ∈ F' ∧ (d' ≤ d + cost w)%Z) →
  frontier_inv adj start cost ({[c]} ∪ V) (S ++ [(c, d)]) F'.
Proof.
  intros [Hv Hfp Hsp He Hs] Hcd Hcover Hnew Hoff.
  assert (Hpc : path_cost adj start cost c d) by by apply Hfp.
  split.
  - intros v. rewrite fmap_app, elem_of_app, elem_of_union, <- Hv.
    simpl. rewrite list_elem_of_singleton, elem_of_singleton. tauto.
  - intros x d' Hin. destruct (Hnew _ _ Hin) as [Hold|(w & Hw & ->)].
    + by apply Hfp.
    + by eapply path_snoc.
  - intros v d0 [Hin|[= -> ->]%list_elem_of_singleton]%elem_of_app;
      [by apply Hsp|exact Hpc].
  - intros v dv x w [Hin|[= -> ->]%list_elem_of_singleton]%elem_of_app Hnb.
    + destruct (He v dv x w Hin Hnb) as [Hx|(d' & Hd' & Hle)].
      * left. apply elem_of_union. by right.
      * destruct (Hcover _ Hd') as [[= -> ->]|Hin'].
        -- left. apply elem_of_union. left. by apply elem_of_singleton.
        -- right. by exists d'.
    + by apply Hoff.
  - destruct Hs as [Hs|(d' & Hd' & Hle)].
    + left. apply elem_of_union. by right.
    + destruct (Hcover _ Hd') as [[= -> ->]|Hin'].
      * left. apply elem_of_union. left. by apply elem_of_singleton.
      * right. by exists d'.
Qed.

(** When the frontier is empty, every reachable node has been visited. *)
Lemma frontier_closed V S :
  frontier_inv adj start cost V S [] →
  ∀ x, reachable adj start x → x ∈ V.
Proof.
  intros [Hv Hfp Hsp He Hs] x. induction 1 as [|u v w _ IH Hin].
  - destruct Hs as [Hs|(d' & Hd' & _)]; [done|]. by apply elem_of_nil in Hd'.
  - apply Hv, list_elem_of_fmap in IH as [[u' du] [-> Hu]]. simpl in Hin.
    destruct (He _ _ _ _ Hu Hin) as [Hx|(d' & Hd' & _)]; [done|].
    by apply elem_of_nil in Hd'.
Qed.

(** Only reachable nodes are visited. *)
Lemma frontier_sound V S F :
  frontier_inv adj start cost V S F →
  ∀ x, x ∈ V → reachable adj start x.
Proof.
  intros [Hv Hfp Hsp He Hs] x Hx.
  apply Hv, list_elem_of_fmap in Hx as [[u du] [-> Hu]].
  eapply path_cost_reachable. by apply Hsp.
Qed.

Hypothesis cost_nonneg : ∀ k x w, (x, w) ∈ neighbors adj k → (0 ≤ cost w)%Z.

(** Every path that ends outside the visited set is at least as costly as
    some frontier entry. *)
Lemma frontier_bound V S F :
  frontier_inv adj start cost V S F →
  settled_least adj start cost S →
  ∀ x c, path_cost adj start cost x c → x ∉ V →
  ∃ z d', (z, d') ∈ F ∧ (d' ≤ c)%Z.
Proof.
  intros [Hv Hfp Hsp He Hs] Hleast x c Hp.
  induction Hp as [|u v w c Hp IH Hin]; intros Hx.
  - destruct Hs as [Hs|(d' & Hd' & Hle)]; [done|]. by exists start, d'.
  - destruct (decide (u ∈ V)) as [Hu|Hu].
    + apply Hv, list_elem_of_fmap in Hu as [[u' du] [-> Hu]]. simpl in *.
      destruct (He _ _ _ _ Hu Hin) as [Hv'|(d' & Hd' & Hle)]; [done|].
      exists v, d'. split; [done|].
      destruct (Hleast _ _ Hu) as [_ Hmin]. specialize (Hmin _ Hp). lia.
    + destruct (IH Hu) as (z & d' & Hd' & Hle). exists z, d'.
      split; [done|]. specialize (cost_nonneg _ _ _ Hin). lia.
Qed.

(** A frontier entry of least cost, for a node that is not visited, has
    the least cost of all paths to that node. *)
Lemma frontier_least V S F c d :
  frontier_inv adj start cost V S F →
  settled_least adj start cost S →
  (c, d) ∈ F → (∀ z d', (z, d') ∈ F → (d ≤ d')%Z) → c ∉ V →
  least_cost adj start cost c d.
Proof.
  intros Hinv Hleast Hcd Hmin Hc. split.
  - by apply (fi_frontier_path _ _ _ _ _ _ Hinv).
  - intros c' Hp.
    destruct (frontier_bound _ _ _ Hinv Hleast _ _ Hp Hc) as (z & d' & Hd' & Hle).
    specialize (Hmin _ _ Hd'). lia.
Qed.
End FrontierFacts.

(** ** Depth-first search visits what is reachable *)
Lemma dfs_inv_step adj start st pre st' evs :
  dfs_inv adj start st pre → dfs_body adj st = Some (st', evs) →
  dfs_inv adj start st' (pre ++ evs).
Proof.
  destruct st as [V stack]. intros (S & Hpre & Hinv). unfold dfs_body.
  destruct stack as [|c stack]; [done|]. cbn [fst snd] in Hinv.
  rewrite fmap_cons in Hinv.
  destruct (decide (c ∈ V)) as [Hc|Hc].
  - intros [= <- <-]. exists S. rewrite app_nil_r. split; [done|].
    cbn [fst snd].
    eapply (frontier_discard _ _ _ _ _ _ _ c 0%Z); [exact Hinv|exact Hc| |].
    + intros e [->|He]%elem_of_cons; [by left|by right].
    + intros e He. by apply elem_of_cons; right.
  - rewrite dfs_offer_spec. intros [= <- <-].
    exists (S ++ [(c, 0%Z)]). split.
    + rewrite visit_nodes_app, fmap_app, Hpre. f_equal.
      apply visit_nodes_visit, (visit_nodes_enqueues c (λ _, None)).
    + cbn [fst snd]. eapply frontier_visit; [exact Hinv| | | |].
      * by apply elem_of_cons; left.
      * intros e [->|He]%elem_of_cons; [by left|right].
        rewrite fmap_app, elem_of_app. by right.
      * intros x d'. rewrite fmap_app, elem_of_app.
        intros [Hin|Hin].
        -- right.
           apply list_elem_of_fmap in Hin as [y [[= -> ->] Hy]].
           rewrite elem_of_reverse, elem_of_offered in Hy.
           destruct Hy as [_ [w Hw]]. rewrite elem_of_reverse in Hw.
           exists w. by split.
        -- left. by apply elem_of_cons; right.
      * intros x w Hw.
        destruct (decide (x ∈ {[c]} ∪ V)) as [Hx|Hx]; [by left|right].
        exists 0%Z. split; [|done].
        rewrite fmap_app, elem_of_app. left.
        apply list_elem_of_fmap. exists x. split; [done|].
        rewrite elem_of_reverse, elem_of_offered. split; [done|].
        exists w. by rewrite elem_of_reverse.
Qed.

Lemma dfs_visits_reachable adj start evs :
  dfs adj start = Some evs →
  ∀ v, v ∈ visit_nodes evs ↔ reachable adj start v.
Proof.
  intros Hrun.
  destruct (while_loop_invariant (dfs_body adj) (dfs_inv adj start)) with
    (fuel := traversal_fuel adj) (st := ((∅, [start]) : gset nat * list nat))
    (pre := @nil Step) (out := evs) as ([V stack] & Hend & S & Hpre & Hinv).
  - intros st pre st' ev. apply dfs_inv_step.
  - exists []. split; [done|]. apply frontier_init.
  - exact Hrun.
  - cbn [fst snd] in *. unfold dfs_body in Hend.
    destruct stack as [|c stack].
    2:{ destruct (decide (c ∈ V)); [done|]. by rewrite dfs_offer_spec in Hend. }
    intros v. rewrite app_nil_l in Hpre.
    rewrite Hpre, <- (fi_visited _ _ _ _ _ _ Hinv). split.
    + by eapply frontier_sound.
    + by eapply frontier_closed.
Qed.

(** ** Breadth-first search: reachability and the order of the visits *)

Lemma StronglySorted_constant (x : Z) (l : list Z) :
  (∀ y, y ∈ l → y = x) → StronglySorted Z.le l.
Proof.
  induction l as [|y l IH]; intros Hall; [constructor|].
  constructor.
  - apply IH. intros z Hz. apply Hall. by apply elem_of_cons; right.
  - apply Forall_forall. intros z Hz.
    rewrite (Hall y) by (by apply elem_of_cons; left).
    rewrite (Hall z) by (by apply elem_of_cons; right). lia.
Qed.

Lemma bfs_tags_push (hs ls news : list Z) (l0 : Z) :
  StronglySorted Z.le (hs ++ l0 :: ls) →
  (∀ l, l ∈ ls → (l ≤ l0 + 1)%Z) →
  (∀ n, n ∈ news → n = (l0 + 1)%Z) →
  StronglySorted Z.le ((hs ++ [l0]) ++ ls ++ news).
Proof.
  intros Hs Hnear Hnews.
  apply StronglySorted_app in Hs as (Hcross & Hhs & Hls).
  apply StronglySorted_cons in Hls as [Hl0 Hls]. rewrite Forall_forall in Hl0.
  rewrite <- app_assoc. simpl.
  apply StronglySorted_app. split; [|split; [exact Hhs|]].
  - intros x1 x2 Hx1 [->|[Hx2|Hx2]%elem_of_app]%elem_of_cons.
    + apply Hcross; [done|]. by apply elem_of_cons; left.
    + apply Hcross; [done|]. by apply elem_of_cons; right.
    + rewrite (Hnews _ Hx2).
      assert (x1 ≤ l0)%Z by (apply Hcross; [done|]; by apply elem_of_cons; left).
      lia.
  - apply StronglySorted_cons. split.
    + apply Forall_forall. intros x [Hx|Hx]%elem_of_app.
      * by apply Hl0.
      * rewrite (Hnews _ Hx). lia.
    + apply StronglySorted_app. split; [|split; [exact Hls|]].
      * intros x1 x2 Hx1 Hx2. rewrite (Hnews _ Hx2). by apply Hnear.
      * by apply (StronglySorted_constant (l0 + 1)).
Qed.

Lemma bfs_inv_step adj start st pre st' evs :
  bfs_inv adj start st pre → bfs_body adj st = Some (st', evs) →
  bfs_inv adj start st' (pre ++ evs).
Proof.
  destruct st as [V Q].
  intros (S & LQ & Hpre & HLQ & Hinv & Hleast & Hsorted & Hnear).
  unfold bfs_body. cbn [fst snd] in *.
  destruct Q as [|c Q]; [done|].
  destruct LQ as [|[c' l0] LQ]; [done|].
  rewrite fmap_cons in HLQ. injection HLQ as -> HLQ.
  rewrite fmap_cons in Hsorted, Hnear. cbn [snd] in Hsorted, Hnear.
  assert (Hhead : ∀ z d', (z, d') ∈ (c, l0) :: LQ → (l0 ≤ d')%Z).
  { intros z d' [[= -> ->]|Hin]%elem_of_cons; [lia|].
    apply StronglySorted_app_1_r, StronglySorted_cons in Hsorted as [Hall _].
    rewrite Forall_forall in Hall. apply Hall.
    apply list_elem_of_fmap. by exists (z, d'). }
  destruct (decide (c ∈ V)) as [Hc|Hc].
  - intros [= <- <-]. exists S, LQ. rewrite app_nil_r. cbn [fst snd].
    split; [done|]. split; [done|]. split; [|split; [done|split]].
    + eapply (frontier_discard _ _ _ _ _ _ _ c l0); [exact Hinv|exact Hc| |].
      * intros e [->|He]%elem_of_cons; [by left|by right].
      * intros e He. by apply elem_of_cons; right.
    + apply StronglySorted_app in Hsorted as (Hcross & Hhs & Hls).
      apply StronglySorted_cons in Hls as [_ Hls].
      apply StronglySorted_app. split; [|done].
      intros x1 x2 Hx1 Hx2. apply Hcross; [done|]. by apply elem_of_cons; right.
    + intros l l' Hl Hl'. apply Hnear; by apply elem_of_cons; right.
  - rewrite bfs_offer_spec. intros [= <- <-].
    set (off := offered ({[c]} ∪ V) (neighbors adj c)).
    exists (S ++ [(c, l0)]), (LQ ++ ((λ x, (x, (l0 + 1)%Z)) <$> off)).
    cbn [fst snd].
    assert (Hnews : ∀ n, n ∈ ((λ x : nat, (x, (l0 + 1)%Z)) <$> off).*2 →
                         n = (l0 + 1)%Z).
    { intros n (e & -> & (x & -> & _)%list_elem_of_fmap)%list_elem_of_fmap.
      done. }
    assert (Hrange : ∀ l, l ∈ LQ.*2 → (l0 ≤ l ≤ l0 + 1)%Z).
    { intros l Hl. split.
      - apply list_elem_of_fmap in Hl as ([z d'] & -> & Hin).
        apply (Hhead z). by apply elem_of_cons; right.
      - apply Hnear; [by apply elem_of_cons; right|by apply elem_of_cons; left]. }
    split; [|split; [|split; [|split; [|split]]]].
    + rewrite visit_nodes_app, fmap_app, Hpre. f_equal.
      apply visit_nodes_visit, (visit_nodes_enqueues c (λ _, None)).
    + rewrite fmap_app, HLQ. f_equal.
      rewrite <- list_fmap_compose. apply list_fmap_id.
    + eapply frontier_visit; [exact Hinv| | | |].
      * by apply elem_of_cons; left.
      * intros e [->|He]%elem_of_cons; [by left|right].
        rewrite elem_of_app. by left.
      * intros x d'. rewrite elem_of_app. intros [Hin|Hin].
        -- left. by apply elem_of_cons; right.
        -- right. apply list_elem_of_fmap in Hin as [y [[= -> ->] Hy]].
           apply elem_of_offered in Hy as [_ [w Hw]]. by exists w.
      * intros x w Hw.
        destruct (decide (x ∈ {[c]} ∪ V)) as [Hx|Hx]; [by left|right].
        exists (l0 + 1)%Z. split; [|done].
        rewrite elem_of_app. right.
        apply list_elem_of_fmap. exists x. split; [done|].
        apply elem_of_offered. split; [done|]. by exists w.
    + intros v d [Hin|[= -> ->]%list_elem_of_singleton]%elem_of_app.
      * by apply Hleast.
      * assert (Hone : ∀ k x w, (x, w) ∈ neighbors adj k → (0 ≤ (λ _ : Z, 1) w)%Z)
          by (intros; simpl; lia).
        apply (frontier_least _ _ _ Hone V S ((c, l0) :: LQ));
          [exact Hinv|exact Hleast| |exact Hhead|exact Hc].
        by apply elem_of_cons; left.
    + rewrite !fmap_app. cbn [fmap list_fmap snd].
      apply bfs_tags_push; [exact Hsorted| |exact Hnews].
      intros l Hl. by apply Hrange.
    + intros l l'. rewrite !fmap_app, !elem_of_app.
      intros [Hl|Hl] [Hl'|Hl'];
        try apply Hrange in Hl; try apply Hrange in Hl';
        try apply Hnews in Hl; try apply Hnews in Hl'; lia.
Qed.

Lemma bfs_inv_init adj start : bfs_inv adj start (∅, [start]) [].
Proof.
  exists [], [(start, 0%Z)]. cbn [fst snd].
  split; [done|]. split; [done|]. split; [apply frontier_init|].
  split; [intros v d Hin; by apply elem_of_nil in Hin|].
  split; [repeat constructor|].
  intros l l' ->%list_elem_of_singleton ->%list_elem_of_singleton. lia.
Qed.

Lemma Forall2_of_pairs {A B} (P : A → B → Prop) (S : list (A * B)) :
  (∀ a b, (a, b) ∈ S → P a b) → Forall2 P S.*1 S.*2.
Proof.
  induction S as [|[a b] S IH]; intros HP; [constructor|].
  rewrite !fmap_cons. constructor.
  - apply HP. by apply elem_of_cons; left.
  - apply IH. intros a' b' Hin. apply HP. by apply elem_of_cons; right.
Qed.

Lemma bfs_run_spec adj start evs :
  bfs adj start = Some evs →
  ∃ S, visit_nodes evs = S.*1 ∧
       (∀ v, v ∈ S.*1 ↔ reachable adj start v) ∧
       settled_least adj start (λ _, 1%Z) S ∧
       StronglySorted Z.le S.*2.
Proof.
  intros Hrun.
  destruct (while_loop_invariant (bfs_body adj) (bfs_inv adj start)) with
    (fuel := traversal_fuel adj) (st := ((∅, [start]) : gset nat * list nat))
    (pre := @nil Step) (out := evs)
    as ([V Q] & Hend & S & LQ & Hpre & HLQ & Hinv & Hleast & Hsorted & _).
  - intros st pre st' ev. apply bfs_inv_step.
  - apply bfs_inv_init.
  - exact Hrun.
  - cbn [fst snd] in *. unfold bfs_body in Hend.
    destruct Q as [|c Q].
    2:{ destruct (decide (c ∈ V)); [done|]. by rewrite bfs_offer_spec in Hend. }
    apply fmap_nil_inv in HLQ as ->.
    exists S. rewrite app_nil_l in Hpre. split; [exact Hpre|].
    split; [|split; [exact Hleast|]].
    + intros v. rewrite <- (fi_visited _ _ _ _ _ _ Hinv). split.
      * by eapply frontier_sound.
      * by eapply frontier_closed.
    + by rewrite fmap_nil, app_nil_r in Hsorted.
Qed.

Lemma bfs_visits_reachable adj start evs :
  bfs adj start = Some evs →
  ∀ v, v ∈ visit_nodes evs ↔ reachable adj start v.
Proof.
  intros (S & -> & Hreach & _)%bfs_run_spec. exact Hreach.
Qed.

(** C3.  For every graph and start id, the breadth-first generator finishes,
    and the nodes of its visit events, taken in the order of the events, have
    hop counts from the start node (the least number of adjacency entries on
    a path) that never decrease: [hops] lists the hop count of each visited
    node, and every element of it is at most every later one. *)
Theorem bfs_visit_order_by_hop_count :
  ∀ (adj : Adjacency) (start : nat),
    ∃ evs hops,
      bfs adj start = Some evs ∧
      Forall2 (hop_count adj start) (visit_nodes evs) hops ∧
      StronglySorted Z.le hops.
Proof.
  intros adj start.
  destruct (bfs_terminates adj start) as [evs Hevs].
  destruct (bfs_run_spec _ _ _ Hevs) as (S & Hpre & _ & Hleast & Hsorted).
  exists evs, S.*2. split; [exact Hevs|]. split; [|exact Hsorted].
  rewrite Hpre. by apply Forall2_of_pairs.
Qed.

(** ** Dijkstra: reachability and the settled distances *)

Lemma visit_nodes_events (evs : list Step) :
  visit_nodes evs = (visit_events evs).*1.
Proof.
  induction evs as [|[n e d|n e d|n d] evs IH]; [done| | |].
  - change (n :: visit_nodes evs = n :: (visit_events evs).*1). by rewrite IH.
  - exact IH.
  - exact IH.
Qed.

Lemma visit_events_app (l1 l2 : list Step) :
  visit_events (l1 ++ l2) = visit_events l1 ++ visit_events l2.
Proof. apply omap_app. Qed.

Lemma visit_events_none (evs : list Step) :
  visit_nodes evs = [] → visit_events evs = [].
Proof. rewrite visit_nodes_events. apply fmap_nil_inv. Qed.

Lemma elem_of_visit_events (evs : list Step) v e od :
  Visit v e od ∈ evs → (v, od) ∈ visit_events evs.
Proof.
  intros Hin. apply list_elem_of_omap. by exists (Visit v e od).
Qed.

(** *** The bound on the sums *)

Lemma weight_sum_nonneg (l : list AdjEntry) : (0 ≤ weight_sum l)%Z.
Proof. induction l as [|e l IH]; simpl; lia. Qed.

Lemma weight_sum_elem (l : list AdjEntry) (x : nat) (w : Z) :
  (x, w) ∈ l → (Z.abs w ≤ weight_sum l)%Z.
Proof.
  induction l as [|e l IH]; intros Hin; [by apply elem_of_nil in Hin|].
  pose proof (weight_sum_nonneg l). simpl.
  apply elem_of_cons in Hin as [<-|Hin]; [simpl; lia|].
  specialize (IH Hin). lia.
Qed.

Lemma weight_outside_cons (V : gset nat) (k : nat) (l : list AdjEntry)
    (L : list (nat * list AdjEntry)) :
  weight_outside V ((k, l) :: L) =
  ((if decide (k ∈ V) then 0 else weight_sum l) + weight_outside V L)%Z.
Proof. reflexivity. Qed.

Lemma weight_outside_mono (L : list (nat * list AdjEntry)) (V : gset nat)
    (c : nat) :
  (weight_outside ({[c]} ∪ V) L ≤ weight_outside V L)%Z.
Proof.
  induction L as [|[k l] L IH]; [done|].
  rewrite !weight_outside_cons. pose proof (weight_sum_nonneg l).
  destruct (decide (k ∈ V)).
  - rewrite decide_True by set_solver. lia.
  - destruct (decide (k ∈ {[c]} ∪ V)); lia.
Qed.

Lemma weight_outside_visit (L : list (nat * list AdjEntry)) (V : gset nat)
    (c : nat) (l : list AdjEntry) :
  c ∉ V → (c, l) ∈ L →
  (weight_outside ({[c]} ∪ V) L + weight_sum l ≤ weight_outside V L)%Z.
Proof.
  intros Hc. induction L as [|[k l'] L IH]; intros Hin.
  - by apply elem_of_nil in Hin.
  - rewrite !weight_outside_cons. pose proof (weight_sum_nonneg l').
    apply elem_of_cons in Hin as [Heq|Hin].
    + injection Heq as <- <-.
      rewrite decide_True by set_solver. rewrite decide_False by done.
      pose proof (weight_outside_mono L V c). lia.
    + specialize (IH Hin).
      destruct (decide (k ∈ V)).
      * rewrite decide_True by set_solver. lia.
      * destruct (decide (k ∈ {[c]} ∪ V)); lia.
Qed.

Lemma weight_pending_visit (adj : Adjacency) (V : gset nat) (c : nat) :
  c ∉ V →
  (weight_outside ({[c]} ∪ V) (map_to_list adj) + weight_sum (neighbors adj c)
   ≤ weight_outside V (map_to_list adj))%Z.
Proof.
  intros Hc. unfold neighbors.
  destruct (adj !! c) as [l|] eqn:Hl; simpl.
  - apply weight_outside_visit; [done|]. by apply elem_of_map_to_list.
  - pose proof (weight_outside_mono (map_to_list adj) V c). lia.
Qed.

Lemma weight_outside_nonneg (V : gset nat) (L : list (nat * list AdjEntry)) :
  (0 ≤ weight_outside V L)%Z.
Proof.
  induction L as [|[k l] L IH]; [done|]. rewrite weight_outside_cons.
  pose proof (weight_sum_nonneg l). destruct (decide _); lia.
Qed.

(** With small weights, the sums that an iteration computes are exact, and
    the entries that it adds to [pq] stay within the bound. *)
Lemma small_sums_exact adj V c d :
  small_weights adj → c ∉ V →
  (Z.abs d + weight_outside V (map_to_list adj) ≤ weight_total adj)%Z →
  ∀ x w, (x, w) ∈ neighbors adj c →
    js_add d w = Finite (d + w) ∧
    (Z.abs (d + w) + weight_outside ({[c]} ∪ V) (map_to_list adj)
     ≤ weight_total adj)%Z.
Proof.
  intros Hsmall Hc Hd x w Hin. unfold small_weights in Hsmall.
  pose proof (weight_pending_visit adj V c Hc) as Hv.
  pose proof (weight_sum_elem _ _ _ Hin) as Hw.
  pose proof (weight_outside_nonneg ({[c]} ∪ V) (map_to_list adj)) as H0.
  split; [apply js_add_exact; [apply neg_infinity_far|]|]; lia.
Qed.

Lemma dijkstra_relax_inv adj V c d nbrs D pq D' pq' evs :
  dijkstra_relax V c d nbrs D pq = (D', pq', evs) →
  (∀ x w, (x, w) ∈ nbrs → js_add d w = Finite (d + w)) →
  distances_tracked D V pq →
  (∀ x w, (x, w) ∈ nbrs → is_Some (D !! x)) →
  distances_cover adj D →
  distances_tracked D' V pq' ∧
  distances_cover adj D' ∧
  ∀ x w, (x, w) ∈ nbrs → x ∈ V ∨ ∃ d', (x, d') ∈ pq' ∧ (d' ≤ d + w)%Z.
Proof.
  revert D pq D' pq' evs.
  induction nbrs as [|[n w] nbrs IH]; intros D pq D' pq' evs;
    cbn [dijkstra_relax].
  - intros [= <- <- <-] _ Ht _ Hc. split; [done|]. split; [done|].
    intros x w Hin. by apply elem_of_nil in Hin.
  - intros Hr Hex Ht Hn Hc.
    assert (Hex' : ∀ x w', (x, w') ∈ nbrs → js_add d w' = Finite (d + w')).
    { intros x w' Hin. apply (Hex x w'). by apply elem_of_cons; right. }
    assert (Hn' : ∀ x w', (x, w') ∈ nbrs → is_Some (D !! x)).
    { intros x w' Hin. apply (Hn x w'). by apply elem_of_cons; right. }
    destruct (decide (n ∈ V)) as [HnV|HnV].
    { destruct (IH _ _ _ _ _ Hr Hex' Ht Hn' Hc) as (Ht' & Hc' & Hoff).
      split; [done|]. split; [done|].
      intros x w' [[= -> ->]|Hin]%elem_of_cons; [by left|by eapply Hoff]. }
    rewrite (Hex n w) in Hr by (by apply elem_of_cons; left).
    destruct (lt_distance (Finite (d + w)) (D !! n)) eqn:Hlt.
    + destruct (dijkstra_relax V c d nbrs (<[n:=Finite (d + w)]> D)
                  (pq ++ [(n, (d + w)%Z)])) as [[D1 pq1] evs1] eqn:Hr1.
      injection Hr as <- <- <-.
      destruct (dijkstra_relax_pq _ _ _ _ _ _ _ _ _ Hr1) as (added & -> & _).
      destruct (IH _ _ _ _ _ Hr1 Hex') as (Ht' & Hc' & Hoff).
      * intros x dx. destruct (decide (x = n)) as [->|Hne].
        -- rewrite lookup_insert_eq. intros [= <-]. right.
           rewrite elem_of_app. right. by apply list_elem_of_singleton.
        -- rewrite lookup_insert_ne by done. intros Hx.
           destruct (Ht _ _ Hx) as [?|?]; [by left|right].
           rewrite elem_of_app. by left.
      * intros x w' Hin. destruct (decide (x = n)) as [->|Hne].
        -- rewrite lookup_insert_eq. by eexists.
        -- rewrite lookup_insert_ne by done. by eapply Hn'.
      * intros k x w' Hin. destruct (decide (x = n)) as [->|Hne].
        -- rewrite lookup_insert_eq. by eexists.
        -- rewrite lookup_insert_ne by done. by eapply Hc.
      * split; [done|]. split; [done|].
        intros x w' [[= -> ->]|Hin]%elem_of_cons; [|by eapply Hoff].
        right. exists (d + w)%Z. split; [|lia].
        rewrite !elem_of_app. left. right. by apply list_elem_of_singleton.
    + destruct (dijkstra_relax_pq _ _ _ _ _ _ _ _ _ Hr) as (added & Hpq & _).
      destruct (IH _ _ _ _ _ Hr Hex' Ht Hn' Hc) as (Ht' & Hc' & Hoff).
      split; [done|]. split; [done|].
      intros x w' [[= -> ->]|Hin]%elem_of_cons; [|by eapply Hoff].
      destruct (Hn n w) as [dn Hdn]; [by apply elem_of_cons; left|].
      rewrite Hdn in Hlt. destruct dn as [dn|]; [|done]. simpl in Hlt.
      apply Z.ltb_ge in Hlt.
      destruct (Ht _ _ Hdn) as [?|Hin]; [done|].
      right. exists dn. split; [|done]. rewrite Hpq, elem_of_app. by left.
Qed.

Lemma dijkstra_inv_step adj start st pre st' evs :
  small_weights adj →
  dijkstra_inv adj start st pre → dijkstra_body adj st = Some (st', evs) →
  dijkstra_inv adj start st' (pre ++ evs).
Proof.
  intros Hsmall (S & Hpre & Hinv & Ht & Hc & Hbound & Hleast).
  unfold dijkstra_body.
  pose proof (pq_sort_perm (dj_pq st)) as Hperm.
  destruct (pq_sort (dj_pq st)) as [|[c d] rest] eqn:Hsort; [done|].
  assert (Hmem : ∀ e, e ∈ dj_pq st ↔ e ∈ (c, d) :: rest).
  { intros e. by rewrite <- Hperm. }
  assert (Hcover : ∀ e, e ∈ dj_pq st → e = (c, d) ∨ e ∈ rest).
  { intros e He. by apply Hmem, elem_of_cons in He. }
  assert (Hrest : ∀ e, e ∈ rest → e ∈ dj_pq st).
  { intros e He. apply Hmem. by apply elem_of_cons; right. }
  assert (Hcd : (c, d) ∈ dj_pq st).
  { apply Hmem. by apply elem_of_cons; left. }
  destruct (decide (c ∈ dj_visited st)) as [HcV|HcV].
  - intros [= <- <-]. exists S. rewrite app_nil_r. simpl.
    split; [done|]. split; [|split; [|split; [done|split; [|done]]]].
    + by eapply (frontier_discard _ _ _ _ _ _ _ c d).
    + intros x dx Hx. destruct (Ht _ _ Hx) as [?|Hin]; [by left|].
      destruct (Hcover _ Hin) as [[= -> ->]|?]; [by left|by right].
    + intros x dx Hin. apply (Hbound x dx). by apply Hrest.
  - destruct (dijkstra_relax _ c d _ _ rest) as [[D1 pq1] evs1] eqn:Hr.
    intros [= <- <-]. simpl.
    pose proof (small_sums_exact adj _ c d Hsmall HcV (Hbound _ _ Hcd)) as Hsums.
    destruct (dijkstra_relax_pq _ _ _ _ _ _ _ _ _ Hr)
      as (added & Hpq & _ & Hev & Hadded0).
    assert (Hadded : ∀ x d', (x, d') ∈ added →
      (x ∉ {[c]} ∪ dj_visited st) ∧
      ∃ w, (x, w) ∈ neighbors adj c ∧ d' = (d + w)%Z).
    { intros x d' Hin. destruct (Hadded0 _ _ Hin) as (Hx & w & Hw & Hsum).
      split; [done|]. exists w. split; [done|].
      destruct (Hsums _ _ Hw) as [Hex _]. congruence. }
    destruct (dijkstra_relax_inv adj _ _ _ _ _ _ _ _ _ Hr) as (Ht1 & Hc1 & Hoff).
    { intros x w Hin. by destruct (Hsums _ _ Hin). }
    { intros x dx Hx. destruct (Ht _ _ Hx) as [?|Hin].
      - left. apply elem_of_union. by right.
      - destruct (Hcover _ Hin) as [[= -> ->]|?]; [|by right].
        left. apply elem_of_union. left. by apply elem_of_singleton. }
    { intros x w Hin. by eapply Hc. }
    { exact Hc. }
    subst pq1. exists (S ++ [(c, d)]). cbn [dj_pq dj_visited dj_distances].
    split; [|split; [|split; [exact Ht1|split; [exact Hc1|split]]]].
    + rewrite visit_events_app, fmap_app, Hpre. f_equal.
      change (visit_events ([visit_step c (Some d)] ++ evs1) = [(c, Some d)]).
      by rewrite visit_events_app, (visit_events_none _ Hev).
    + eapply frontier_visit; [exact Hinv|exact Hcd| | |exact Hoff].
      * intros e He. destruct (Hcover _ He) as [?|?]; [by left|right].
        rewrite elem_of_app. by left.
      * intros x d'. rewrite elem_of_app. intros [Hin|Hin].
        -- left. by apply Hrest.
        -- right. destruct (Hadded _ _ Hin) as (_ & w & Hw & ->). by exists w.
    + intros x dx [Hin|Hin]%elem_of_app.
      * pose proof (Hbound _ _ (Hrest _ Hin)).
        pose proof (weight_outside_mono (map_to_list adj) (dj_visited st) c).
        lia.
      * destruct (Hadded _ _ Hin) as (_ & w & Hw & ->).
        by destruct (Hsums _ _ Hw).
    + intros Hnn v d0 [Hin|[= -> ->]%list_elem_of_singleton]%elem_of_app.
      * by apply Hleast.
      * assert (Hpos : ∀ k x w, (x, w) ∈ neighbors adj k → (0 ≤ (λ w : Z, w) w)%Z).
        { intros k x w Hin. simpl. by eapply Hnn. }
        apply (frontier_least _ _ _ Hpos (dj_visited st) S (dj_pq st));
          [exact Hinv|by apply Hleast|exact Hcd| |exact HcV].
        by eapply pq_sort_head_min.
Qed.

Lemma distances_init_lookup (ns : list Node) (D : gmap nat num) (x : nat) :
  foldl (λ d n, <[node_id n := Infinity]> d) D ns !! x =
  if decide (x ∈ node_id <$> ns) then Some Infinity else D !! x.
Proof.
  revert D. induction ns as [|n ns IH]; intros D.
  - destruct (decide (x ∈ node_id <$> [])) as [Hin|Hin]; [|done].
    by apply elem_of_nil in Hin.
  - cbn [foldl]. rewrite IH, fmap_cons.
    destruct (decide (x ∈ node_id <$> ns)) as [Hin|Hin].
    + rewrite decide_True; [done|]. by apply elem_of_cons; right.
    + destruct (decide (x = node_id n)) as [->|Hne].
      * rewrite lookup_insert_eq. rewrite decide_True; [done|].
        by apply elem_of_cons; left.
      * rewrite lookup_insert_ne by done. rewrite decide_False; [done|].
        intros [?|?]%elem_of_cons; done.
Qed.

Lemma dijkstra_inv_init ns adj start :
  adjacency_closed ns adj →
  dijkstra_inv adj start (dijkstra_init ns start) [].
Proof.
  intros Hclosed. exists []. simpl.
  split; [done|]. split; [apply frontier_init|].
  split; [|split; [|split]].
  - intros x dx. destruct (decide (x = start)) as [->|Hne].
    + rewrite lookup_insert_eq. intros [= <-]. right.
      by apply list_elem_of_singleton.
    + rewrite lookup_insert_ne by done. rewrite distances_init_lookup.
      destruct (decide (x ∈ node_id <$> ns)); [done|].
      by rewrite lookup_empty.
  - intros k x w Hin. destruct (decide (x = start)) as [->|Hne].
    + rewrite lookup_insert_eq. by eexists.
    + rewrite lookup_insert_ne by done. rewrite distances_init_lookup.
      rewrite decide_True; [by eexists|]. by eapply Hclosed.
  - intros x dx [= -> ->]%list_elem_of_singleton. unfold weight_total.
    simpl. lia.
  - intros _ v d Hin. by apply elem_of_nil in Hin.
Qed.

Lemma dijkstra_run_spec ns adj start evs :
  adjacency_closed ns adj → small_weights adj →
  dijkstra ns adj start = Some evs →
  ∃ S, visit_events evs = (λ e : nat * Z, (e.1, Some e.2)) <$> S ∧
       (∀ v, v ∈ S.*1 ↔ reachable adj start v) ∧
       (nonneg_weights adj → settled_least adj start (λ w, w) S).
Proof.
  intros Hclosed Hsmall. unfold dijkstra.
  destruct (while_loop _ _ _) as [out|] eqn:Hrun; [|done].
  intros [= <-].
  destruct (while_loop_invariant (dijkstra_body adj) (dijkstra_inv adj start))
    with (fuel := traversal_fuel adj) (st := dijkstra_init ns start)
         (pre := @nil Step) (out := out)
    as (st' & Hend & S & Hpre & Hinv & _ & _ & _ & Hleast).
  - intros st pre st' ev. by apply dijkstra_inv_step.
  - by apply dijkstra_inv_init.
  - exact Hrun.
  - exists S. rewrite app_nil_l in Hpre.
    split; [exact Hpre|]. split; [|exact Hleast].
    assert (Hempty : dj_pq st' = []).
    { unfold dijkstra_body in Hend.
      pose proof (pq_sort_perm (dj_pq st')) as Hperm.
      destruct (pq_sort (dj_pq st')) as [|[c d] rest].
      - by apply Permutation_nil_l in Hperm.
      - destruct (decide (c ∈ dj_visited st')); [done|].
        by destruct (dijkstra_relax _ c d _ _ rest) as [[? ?] ?]. }
    rewrite Hempty in Hinv.
    intros v. rewrite <- (fi_visited _ _ _ _ _ _ Hinv). split.
    + by eapply frontier_sound.
    + by eapply frontier_closed.
Qed.

Lemma dijkstra_visits_reachable ns adj start evs :
  adjacency_closed ns adj → small_weights adj →
  dijkstra ns adj start = Some evs →
  ∀ v, v ∈ visit_nodes evs ↔ reachable adj start v.
Proof.
  intros Hclosed Hsmall Hrun.
  destruct (dijkstra_run_spec _ _ _ _ Hclosed Hsmall Hrun)
    as (S & Hev & Hreach & _).
  intros v. rewrite visit_nodes_events, Hev, <- Hreach.
  by rewrite <- list_fmap_compose.
Qed.

Lemma dijkstra_visits_shortest ns adj start evs :
  adjacency_closed ns adj → nonneg_weights adj → small_weights adj →
  dijkstra ns adj start = Some evs →
  ∀ v e od, Visit v e od ∈ evs →
    ∃ d, od = Some d ∧ shortest_distance adj start v d.
Proof.
  intros Hclosed Hnn Hsmall Hrun v e od Hin.
  destruct (dijkstra_run_spec _ _ _ _ Hclosed Hsmall Hrun)
    as (S & Hev & _ & Hleast).
  apply elem_of_visit_events in Hin. rewrite Hev in Hin.
  apply list_elem_of_fmap in Hin as ([v' d] & [= -> ->] & Hin).
  exists d. split; [done|]. by apply Hleast.
Qed.

(** ** The playback operations leave the graph as it is *)

Lemma same_graph_refl s : same_graph s s.
Proof. by repeat split. Qed.

Lemma same_graph_trans s1 s2 s3 :
  same_graph s1 s2 → same_graph s2 s3 → same_graph s1 s3.
Proof.
  intros (H1 & H2 & H3 & H4 & H5) (G1 & G2 & G3 & G4 & G5).
  repeat split; congruence.
Qed.

Lemma same_graph_wf s s' : same_graph s s' → store_wf s → store_wf s'.
Proof.
  intros (Hn & He & Ha & Hs & Hc) [W1 W2 W3 W4 W5 W6 W7 W8].
  unfold adjacency_closed in W4. fold (node_ids s) in W4.
  split; unfold adjacency_closed; fold (node_ids s');
    rewrite ?Hn, ?He, ?Ha, ?Hs, ?Hc; assumption.
Qed.

Lemma update_first_fmap {A B} (g : A → B) (p : A → bool) (f : A → A)
    (l : list A) :
  (∀ a, g (f a) = g a) → g <$> update_first p f l = g <$> l.
Proof.
  intros Hg. induction l as [|a l IH]; [done|]. simpl.
  destruct (p a); rewrite !fmap_cons; [by rewrite Hg|by rewrite IH].
Qed.

Lemma node_ids_demote (ns : list Node) :
  node_id <$> (demote_current <$> ns) = node_id <$> ns.
Proof.
  rewrite <- list_fmap_compose. apply list_fmap_ext. intros i n _. simpl.
  unfold demote_current. by destruct (decide _).
Qed.

Lemma assign_distance_id d n : node_id (assign_distance d n) = node_id n.
Proof. by destruct d. Qed.

Lemma mark_edge_keys gt e st (es : list Edge) :
  edge_key <$> mark_edge gt e st es = edge_key <$> es.
Proof.
  destruct e as [[from to]|]; [|done]. by apply update_first_fmap.
Qed.

Lemma executeStep_same_graph step s : same_graph s (executeStep step s).
Proof.
  destruct step as [i e d|i e d|i d]; repeat split; simpl;
    unfold node_ids, edge_keys; simpl; rewrite ?mark_edge_keys; try done.
  - rewrite update_first_fmap; [apply node_ids_demote|].
    intros n. by rewrite assign_distance_id.
  - rewrite update_first_fmap; [apply node_ids_demote|].
    intros n. destruct (decide _); [|done]. by rewrite assign_distance_id.
  - rewrite update_first_fmap; [apply node_ids_demote|done].
Qed.

Lemma resetTraversal_same_graph s : same_graph s (resetTraversal s).
Proof.
  repeat split; unfold node_ids, edge_keys; simpl;
    rewrite <- list_fmap_compose; by apply list_fmap_ext.
Qed.

Lemma with_run_same_graph s r p q c : same_graph s (with_run s r p q c).
Proof. by repeat split. Qed.

Lemma runAnimation_tick_same_graph s : same_graph s (runAnimation_tick s).
Proof.
  unfold runAnimation_tick.
  destruct (_ && _).
  - destruct (isPaused s); [apply same_graph_refl|].
    destruct (_ !! _); [|apply same_graph_refl].
    eapply same_graph_trans; [apply executeStep_same_graph|].
    apply with_run_same_graph.
  - destruct (bool_decide _); [apply with_run_same_graph|apply same_graph_refl].
Qed.

Lemma startTraversal_same_graph s s' msg :
  startTraversal s = Some (s', msg) → same_graph s s'.
Proof.
  unfold startTraversal. destruct (startNode s) as [start|].
  - destruct (isRunning s); [intros [= <- <-]; apply same_graph_refl|].
    destruct (generator _ _); [|done]. intros [= <- <-].
    eapply same_graph_trans; [apply resetTraversal_same_graph|].
    eapply same_graph_trans; [apply with_run_same_graph|].
    apply runAnimation_tick_same_graph.
  - intros [= <- <-]. apply same_graph_refl.
Qed.

Lemma stepTraversal_same_graph s s' :
  stepTraversal s = Some s' → same_graph s s'.
Proof.
  unfold stepTraversal.
  assert (Hexec : ∀ s2, same_graph s s2 →
    match animationQueue s2 !! currentStep s2 with
    | Some step =>
        Some (with_run (executeStep step s2) (isRunning (executeStep step s2))
                (isPaused (executeStep step s2))
                (animationQueue (executeStep step s2))
                (S (currentStep (executeStep step s2))))
    | None => Some s2
    end = Some s' → same_graph s s').
  { intros s2 H2. destruct (_ !! _).
    - intros [= <-]. eapply same_graph_trans; [exact H2|].
      eapply same_graph_trans; [apply executeStep_same_graph|].
      apply with_run_same_graph.
    - by intros [= <-]. }
  destruct (animationQueue s) as [|st q] eqn:Hq.
  - destruct (startNode s) as [start|].
    + destruct (generator _ _); [|done]. apply Hexec.
      eapply same_graph_trans; [apply resetTraversal_same_graph|].
      apply with_run_same_graph.
    + apply Hexec, same_graph_refl.
  - apply Hexec, same_graph_refl.
Qed.

(** ** The editing operations keep the invariant of the store *)

Lemma neighbors_empty k : neighbors ∅ k = [].
Proof. unfold neighbors. by rewrite lookup_empty. Qed.

Lemma neighbors_insert (adj : Adjacency) k l k' :
  neighbors (<[k := l]> adj) k' = if decide (k' = k) then l else neighbors adj k'.
Proof.
  unfold neighbors. destruct (decide (k' = k)) as [->|Hne].
  - by rewrite lookup_insert_eq.
  - by rewrite lookup_insert_ne.
Qed.

Lemma init_store_wf : store_wf init_store.
Proof.
  split; simpl.
  - constructor.
  - intros i Hi. by apply elem_of_nil in Hi.
  - intros k. rewrite lookup_empty. split; [by intros [? ?]|].
    intros Hi. by apply elem_of_nil in Hi.
  - intros k x w. rewrite neighbors_empty. intros Hi. by apply elem_of_nil in Hi.
  - intros from to w Hi. by apply elem_of_nil in Hi.
  - intros from to w Hi. by apply elem_of_nil in Hi.
  - intros k x w. rewrite neighbors_empty. intros Hi. by apply elem_of_nil in Hi.
  - done.
Qed.

Lemma addNode_ids x y s : node_ids (addNode x y s) = node_ids s ++ [nodeIdCounter s].
Proof. unfold node_ids. simpl. by rewrite fmap_app. Qed.

Lemma addNode_wf x y s : store_wf s → store_wf (addNode x y s).
Proof.
  intros [W1 W2 W3 W4 W5 W6 W7 W8].
  assert (Hfresh : nodeIdCounter s ∉ node_ids s).
  { intros Hin. apply W2 in Hin. lia. }
  unfold adjacency_closed in *. fold (node_ids s) in W4.
  split; unfold adjacency_closed; fold (node_ids (addNode x y s));
    rewrite ?addNode_ids; cbn [addNode adjacencyList nodeIdCounter startNode
      edge_keys edges node_id].
  - apply NoDup_app. split; [done|]. split; [|apply NoDup_singleton].
    intros i Hi ->%list_elem_of_singleton. done.
  - intros i [Hi| ->%list_elem_of_singleton]%elem_of_app; [|lia].
    apply W2 in Hi. lia.
  - intros k. rewrite elem_of_app, list_elem_of_singleton, <- W3.
    destruct (decide (k = nodeIdCounter s)) as [->|Hne].
    + rewrite lookup_insert_eq. split; [by right|by eexists].
    + rewrite lookup_insert_ne by done. split; [by left|].
      by intros [?|?].
  - intros k x0 w. rewrite neighbors_insert.
    destruct (decide _); [intros Hi; by apply elem_of_nil in Hi|].
    intros Hi. rewrite elem_of_app. left. by eapply W4.
  - intros from to w Hi. rewrite !elem_of_app.
    destruct (W5 _ _ _ Hi). split; by left.
  - intros from to w Hi. rewrite neighbors_insert.
    destruct (decide _) as [->|]; [|by apply W6].
    destruct (W5 _ _ _ Hi) as [Hf _]. done.
  - intros k x0 w. rewrite neighbors_insert.
    destruct (decide _); [intros Hi; by apply elem_of_nil in Hi|]. apply W7.
  - intros i Hi. rewrite elem_of_app. left. by apply W8.
Qed.

Lemma clearGraph_wf s : store_wf (clearGraph s).
Proof.
  eapply same_graph_wf; [apply resetTraversal_same_graph|].
  eapply same_graph_wf; [|apply init_store_wf]. by repeat split.
Qed.

Lemma setStartNode_wf node s :
  node_id node ∈ node_ids s → store_wf s → store_wf (setStartNode node s).
Proof.
  intros Hin [W1 W2 W3 W4 W5 W6 W7 W8]. split; try assumption.
  simpl. by intros i [= <-].
Qed.

Lemma node_ids_filter (id : nat) (ns : list Node) :
  node_id <$> filter (λ n, node_id n ≠ id) ns =
  filter (λ i, i ≠ id) (node_id <$> ns).
Proof.
  induction ns as [|n ns IH]; [done|].
  rewrite fmap_cons, !filter_cons. simpl.
  destruct (decide (node_id n ≠ id)); [rewrite fmap_cons|]; by rewrite IH.
Qed.

Lemma edge_keys_filter (id : nat) (es : list Edge) :
  edge_key <$> filter (λ e, edge_from e ≠ id ∧ edge_to e ≠ id) es =
  filter (λ k : nat * nat * Z, k.1.1 ≠ id ∧ k.1.2 ≠ id) (edge_key <$> es).
Proof.
  induction es as [|e es IH]; [done|].
  rewrite fmap_cons, !filter_cons. simpl.
  destruct (decide (edge_from e ≠ id ∧ edge_to e ≠ id));
    [rewrite fmap_cons|]; by rewrite IH.
Qed.

Lemma deleteNode_neighbors node s k :
  neighbors (adjacencyList (deleteNode node s)) k =
  if decide (k = node_id node) then []
  else filter (λ n : AdjEntry, n.1 ≠ node_id node) (neighbors (adjacencyList s) k).
Proof.
  unfold neighbors. simpl. rewrite lookup_fmap.
  destruct (decide (k = node_id node)) as [->|Hne].
  - by rewrite lookup_delete_eq.
  - rewrite lookup_delete_ne by done. by destruct (adjacencyList s !! k).
Qed.

Lemma deleteNode_adjacency_keys node s k :
  is_Some (adjacencyList (deleteNode node s) !! k) ↔
  k ≠ node_id node ∧ is_Some (adjacencyList s !! k).
Proof.
  simpl. rewrite lookup_fmap, fmap_is_Some.
  destruct (decide (k = node_id node)) as [->|Hne].
  - rewrite lookup_delete_eq. split; [by intros [? ?]|by intros [? _]].
  - rewrite lookup_delete_ne by done. tauto.
Qed.

Lemma deleteNode_wf node s : store_wf s → store_wf (deleteNode node s).
Proof.
  intros [W1 W2 W3 W4 W5 W6 W7 W8].
  unfold adjacency_closed in *. fold (node_ids s) in W4.
  assert (Hids : node_ids (deleteNode node s) =
                 filter (λ i, i ≠ node_id node) (node_ids s)).
  { apply node_ids_filter. }
  assert (Hkeys : edge_keys (deleteNode node s) =
    filter (λ k : nat * nat * Z, k.1.1 ≠ node_id node ∧ k.1.2 ≠ node_id node)
      (edge_keys s)).
  { apply edge_keys_filter. }
  split; unfold adjacency_closed; fold (node_ids (deleteNode node s));
    rewrite ?Hids, ?Hkeys.
  - by apply NoDup_filter.
  - intros i [_ Hi]%list_elem_of_filter. by apply W2.
  - intros k. rewrite deleteNode_adjacency_keys, list_elem_of_filter, W3. tauto.
  - intros k x w. rewrite deleteNode_neighbors.
    destruct (decide _); [intros Hi; by apply elem_of_nil in Hi|].
    intros [Hx Hi]%list_elem_of_filter. apply list_elem_of_filter.
    split; [done|]. by eapply W4.
  - intros from to w [[Hf Ht] Hi]%list_elem_of_filter. simpl in Hf, Ht.
    destruct (W5 _ _ _ Hi). split; by apply list_elem_of_filter.
  - intros from to w [[Hf Ht] Hi]%list_elem_of_filter. simpl in Hf, Ht.
    rewrite deleteNode_neighbors, decide_False by done.
    apply list_elem_of_filter. split; [done|]. by apply W6.
  - intros k x w. rewrite deleteNode_neighbors.
    destruct (decide _) as [|Hk]; [intros Hi; by apply elem_of_nil in Hi|].
    intros [Hx Hi]%list_elem_of_filter. simpl in Hx.
    destruct (W7 _ _ _ Hi) as [He|He]; [left|right];
      by apply list_elem_of_filter.
  - simpl. intros i. destruct (decide _) as [|Hne]; [done|].
    intros Hi. apply list_elem_of_filter. split; [congruence|]. by apply W8.
Qed.

Lemma adjacency_push_spec k e (adj : Adjacency) :
  is_Some (adj !! k) →
  ∃ adj', adjacency_push k e adj = Some adj' ∧
    (∀ k', neighbors adj' k' =
           if decide (k' = k) then neighbors adj k ++ [e] else neighbors adj k') ∧
    (∀ k', is_Some (adj' !! k') ↔ is_Some (adj !! k')).
Proof.
  intros [l Hl]. unfold adjacency_push. rewrite Hl.
  eexists. split; [done|]. split.
  - intros k'. rewrite neighbors_insert. destruct (decide _); [|done].
    unfold neighbors. by rewrite Hl.
  - intros k'. destruct (decide (k' = k)) as [->|Hne].
    + rewrite lookup_insert_eq, Hl. split; by eexists.
    + by rewrite lookup_insert_ne.
Qed.

Lemma edge_added_wf s s' f t w (und : bool) :
  store_wf s → f ∈ node_ids s → t ∈ node_ids s →
  node_ids s' = node_ids s → nodeIdCounter s' = nodeIdCounter s →
  startNode s' = startNode s →
  edge_keys s' = edge_keys s ++ [(f, t, w)] →
  (∀ k, is_Some (adjacencyList s' !! k) ↔ is_Some (adjacencyList s !! k)) →
  (∀ k e, e ∈ neighbors (adjacencyList s') k ↔
          e ∈ neighbors (adjacencyList s) k ∨ (k = f ∧ e = (t, w)) ∨
          (und = true ∧ k = t ∧ e = (f, w))) →
  store_wf s'.
Proof.
  intros [W1 W2 W3 W4 W5 W6 W7 W8] Hf Ht Hids Hc Hst Hkeys Hdom Hnb.
  unfold adjacency_closed in *. fold (node_ids s) in W4.
  split; unfold adjacency_closed; fold (node_ids s');
    rewrite ?Hids, ?Hc, ?Hst, ?Hkeys; try assumption.
  - intros k. by rewrite Hdom.
  - intros k x w0 [Hin|[[-> [= -> ->]]|(_ & -> & [= -> ->])]]%Hnb;
      [by eapply W4|done|done].
  - intros from to w0 [Hin|[= -> -> ->]%list_elem_of_singleton]%elem_of_app;
      [by eapply W5|done].
  - intros from to w0 [Hin|[= -> -> ->]%list_elem_of_singleton]%elem_of_app;
      apply Hnb; [left; by apply W6|right; left; done].
  - intros k x w0 [Hin|[[-> [= -> ->]]|(_ & -> & [= -> ->])]]%Hnb;
      rewrite !elem_of_app, !list_elem_of_singleton.
    + destruct (W7 _ _ _ Hin); [left; by left|right; by left].
    + left. by right.
    + right. by right.
Qed.

Lemma createEdge_wf from to w s :
  store_wf s → node_id from ∈ node_ids s → node_id to ∈ node_ids s →
  ∃ s', createEdge from to w s = Returned s' ∧ store_wf s'.
Proof.
  intros Hwf Hfrom Hto. unfold createEdge.
  destruct (List.find _ _) as [e|].
  { eexists. split; [done|]. eapply same_graph_wf; [|exact Hwf]. by repeat split. }
  cbn [adjacencyList with_edges].
  destruct (adjacency_push_spec (node_id from) (node_id to, w) (adjacencyList s))
    as (adj1 & -> & Hnb1 & Hdom1).
  { by apply (wf_adjacency_keys _ Hwf). }
  destruct (decide (graphType s = undirected)) as [Hund|Hdir].
  - destruct (adjacency_push_spec (node_id to) (node_id from, w) adj1)
      as (adj2 & -> & Hnb2 & Hdom2).
    { by apply Hdom1, (wf_adjacency_keys _ Hwf). }
    eexists. split; [done|].
    eapply (edge_added_wf s _ (node_id from) (node_id to) w true);
      try done.
    + unfold edge_keys. simpl. by rewrite fmap_app.
    + intros k. simpl. by rewrite Hdom2, Hdom1.
    + intros k e. simpl. rewrite Hnb2.
      destruct (decide (k = node_id to)) as [->|Hne].
      * rewrite elem_of_app, list_elem_of_singleton, Hnb1.
        destruct (decide (node_id to = node_id from)) as [Heq|Hne'].
        -- rewrite elem_of_app, list_elem_of_singleton, Heq. intuition congruence.
        -- intuition congruence.
      * rewrite Hnb1. destruct (decide (k = node_id from)) as [->|Hne'].
        -- rewrite elem_of_app, list_elem_of_singleton. intuition congruence.
        -- intuition congruence.
  - eexists. split; [done|].
    eapply (edge_added_wf s _ (node_id from) (node_id to) w false);
      try done.
    + unfold edge_keys. simpl. by rewrite fmap_app.
    + intros k e. simpl. rewrite Hnb1.
      destruct (decide (k = node_id from)) as [->|Hne'].
      * rewrite elem_of_app, list_elem_of_singleton. intuition congruence.
      * intuition congruence.
Qed.

Lemma addNodes_wf (ps : list (Z * Z)) s :
  store_wf s → store_wf (foldl (λ st pos, addNode pos.1 pos.2 st) s ps).
Proof.
  revert s. induction ps as [|p ps IH]; intros s Hwf; [done|].
  simpl. by apply IH, addNode_wf.
Qed.

Lemma node_lookup_id s i n : nodes s !! i = Some n → node_id n ∈ node_ids s.
Proof.
  intros Hn. apply list_elem_of_fmap. exists n. split; [done|].
  by eapply list_elem_of_lookup_2.
Qed.

Lemma create_sample_edges_wf es s :
  store_wf s → store_wf (outcome_store (create_sample_edges es s)).
Proof.
  revert s. induction es as [|[[f t] w] es IH]; intros s Hwf; [done|].
  simpl. destruct (nodes s !! f) as [nf|] eqn:Hf; [|done].
  destruct (nodes s !! t) as [nt|] eqn:Ht; [|done].
  destruct (createEdge_wf nf nt w s Hwf) as (s' & -> & Hwf');
    [by eapply node_lookup_id..|].
  by apply IH.
Qed.

Lemma loadSampleGraph_wf s : store_wf (outcome_store (loadSampleGraph s)).
Proof.
  unfold loadSampleGraph.
  pose proof (create_sample_edges_wf sampleEdges _
                (addNodes_wf sampleNodes _ (clearGraph_wf s))) as Hwf.
  destruct (create_sample_edges _ _) as [s3|s3]; [|exact Hwf].
  simpl in Hwf. destruct (nodes s3 !! 0) as [n|] eqn:Hn; [|exact Hwf].
  simpl. apply setStartNode_wf; [|exact Hwf]. by eapply node_lookup_id.
Qed.

Lemma perform_wf a s s' : store_wf s → perform a s = Some s' → store_wf s'.
Proof.
  intros Hwf. destruct a; simpl.
  - intros [= <-]. by apply addNode_wf.
  - destruct (decide _) as [[Hf Ht]|]; [|done]. intros [= <-].
    by destruct (createEdge_wf from to weight s Hwf Hf Ht) as (s1 & -> & Hwf1).
  - destruct (decide _); [|done]. intros [= <-]. by apply setStartNode_wf.
  - destruct (decide _); [|done]. intros [= <-]. by apply deleteNode_wf.
  - intros [= <-]. eapply same_graph_wf; [|exact Hwf]. by repeat split.
  - intros [= <-]. eapply same_graph_wf; [|exact Hwf]. by repeat split.
  - intros [= <-]. eapply same_graph_wf; [|exact Hwf]. by repeat split.
  - destruct (startTraversal s) as [[s1 msg]|] eqn:Hst; [|done].
    intros [= <-]. eapply same_graph_wf; [|exact Hwf].
    by eapply startTraversal_same_graph.
  - intros [= <-]. eapply same_graph_wf; [|exact Hwf].
    apply runAnimation_tick_same_graph.
  - intros [= <-]. eapply same_graph_wf; [|exact Hwf]. by repeat split.
  - intros Hst. eapply same_graph_wf; [|exact Hwf].
    by eapply stepTraversal_same_graph.
  - intros [= <-]. eapply same_graph_wf; [|exact Hwf].
    apply resetTraversal_same_graph.
  - intros [= <-]. apply clearGraph_wf.
  - intros [= <-]. apply loadSampleGraph_wf.
Qed.

Lemma run_actions_wf acts s s' :
  store_wf s → run_actions acts s = Some s' → store_wf s'.
Proof.
  revert s. induction acts as [|a acts IH]; intros s Hwf; simpl.
  - by intros [= <-].
  - destruct (perform a s) as [s1|] eqn:Hp; [|done].
    apply IH. by eapply perform_wf.
Qed.

(** Every store that the program can be in satisfies the invariant. *)
Lemma store_reachable_wf s : store_reachable s → store_wf s.
Proof. intros [acts Hrun]. eapply run_actions_wf; [apply init_store_wf|done]. Qed.

(** ** The claims about the traversal engine on the stores of the program *)

Lemma nonneg_weights_b_sound (adj : Adjacency) :
  nonneg_weights_b adj = true → nonneg_weights adj.
Proof.
  unfold nonneg_weights_b. rewrite forallb_forall.
  intros Hall k v w. unfold neighbors.
  destruct (adj !! k) as [l|] eqn:Hl; simpl.
  - intros Hin. apply elem_of_map_to_list, list_elem_of_In, Hall in Hl.
    simpl in Hl. rewrite forallb_forall in Hl.
    apply list_elem_of_In, Hl in Hin. simpl in Hin. lia.
  - intros Hin. by apply elem_of_nil in Hin.
Qed.

(** C1, as the code has it.  For every store that the program can be in
    whose adjacency entries all have a non-negative weight and whose weights
    are small (they sum to at most 2^53, so that the sums of doubles that
    [dijkstra] computes are exact), and for every start id, [dijkstra]
    finishes, and every visit event that it yields carries a distance, which
    is the minimum sum of the weights over all paths of adjacency entries
    from the start node to the visited node. *)
Theorem dijkstra_settled_distance_is_shortest :
  ∀ (s : Store) (start : nat),
    store_reachable s →
    nonneg_weights (adjacencyList s) →
    small_weights (adjacencyList s) →
    ∃ evs,
      dijkstra (nodes s) (adjacencyList s) start = Some evs ∧
      ∀ v e od, Visit v e od ∈ evs →
        ∃ d, od = Some d ∧ shortest_distance (adjacencyList s) start v d.
Proof.
  intros s start Hreach Hnn Hsmall.
  destruct (dijkstra_terminates (nodes s) (adjacencyList s) start) as [evs Hevs].
  exists evs. split; [exact Hevs|].
  eapply dijkstra_visits_shortest; [|exact Hnn|exact Hsmall|exact Hevs].
  by apply wf_adjacency_closed, store_reachable_wf.
Qed.

Lemma dijkstra_settled_distance_is_shortest_witness :
  ∃ evs,
    dijkstra (nodes abc_store) (adjacencyList abc_store) 0 = Some evs ∧
    ∀ v e od, Visit v e od ∈ evs →
      ∃ d, od = Some d ∧ shortest_distance (adjacencyList abc_store) 0 v d.
Proof.
  apply (dijkstra_settled_distance_is_shortest abc_store 0).
  - exists abc_actions. vm_compute. reflexivity.
  - apply nonneg_weights_b_sound. vm_compute. reflexivity.
  - apply Z.leb_le. vm_compute. reflexivity.
Defined.

Lemma large_store_paths v c :
  path_cost (adjacencyList large_store) 0 (λ w, w) v c →
  (v = 0 ∧ c = 0%Z) ∨ (v = 1 ∧ c = (2 ^ 53)%Z) ∨
  (v = 2 ∧ (c = (2 ^ 53 + 1)%Z ∨ c = (2 ^ 53 + 2)%Z)).
Proof.
  induction 1 as [|u v w c _ IH Hin]; [by left|].
  destruct IH as [[-> ->]|[[-> ->]|[-> _]]].
  - change (neighbors (adjacencyList large_store) 0)
      with [(1, (2 ^ 53)%Z); (2, (2 ^ 53 + 2)%Z)] in Hin.
    apply elem_of_cons in Hin as [[= -> ->]|Hin]; [right; left; by split|].
    apply list_elem_of_singleton in Hin as [= -> ->].
    right. right. split; [done|]. by right.
  - change (neighbors (adjacencyList large_store) 1) with [(2, 1%Z)] in Hin.
    apply list_elem_of_singleton in Hin as [= -> ->].
    right. right. split; [done|]. by left.
  - change (neighbors (adjacencyList large_store) 2) with (@nil AdjEntry) in Hin.
    by apply elem_of_nil in Hin.
Qed.

(** C1, as the claim states it, fails for large weights: the program adds
    doubles.  On the store with the edges 0→1 of weight 2^53, 0→2 of weight
    2^53 + 2 and 1→2 of weight 1, all weights are non-negative, the least
    sum of weights from node 0 to node 2 is 2^53 + 1, and the visit event of
    node 2 carries 2^53, since 2^53 + 1 is no double and rounds to 2^53. *)
Lemma dijkstra_rounds_large_distances :
  store_reachable large_store ∧
  nonneg_weights (adjacencyList large_store) ∧
  dijkstra (nodes large_store) (adjacencyList large_store) 0 =
    Some [SetDistance 0 0; Visit 0 None (Some 0%Z);
          Enqueue 1 (Some (0, 1)) (Some (2 ^ 53)%Z);
          Enqueue 2 (Some (0, 2)) (Some (2 ^ 53 + 2)%Z);
          Visit 1 None (Some (2 ^ 53)%Z);
          Enqueue 2 (Some (1, 2)) (Some (2 ^ 53)%Z);
          Visit 2 None (Some (2 ^ 53)%Z)] ∧
  shortest_distance (adjacencyList large_store) 0 2 (2 ^ 53 + 1) ∧
  ¬ shortest_distance (adjacencyList large_store) 0 2 (2 ^ 53).
Proof.
  split; [exists large_actions; vm_compute; reflexivity|].
  split; [apply nonneg_weights_b_sound; vm_compute; reflexivity|].
  split; [vm_compute; reflexivity|].
  split; [split|].
  - change (2 ^ 53 + 1)%Z with (0 + 2 ^ 53 + 1)%Z.
    apply (path_snoc (adjacencyList large_store) 0 (λ w, w) 1 2 1%Z
             (0 + 2 ^ 53)%Z); [|vm_compute; by left].
    apply (path_snoc (adjacencyList large_store) 0 (λ w, w) 0 1 (2 ^ 53)%Z
             0%Z); [constructor|vm_compute; by left].
  - intros c Hc.
    destruct (large_store_paths _ _ Hc) as [[? _]|[[? _]|[_ [-> | ->]]]]; lia.
  - intros [Hc _].
    destruct (large_store_paths _ _ Hc) as [[? _]|[[? _]|[_ [? | ?]]]]; lia.
Qed.




(** ** The materialized sequence holds generated steps *)

Lemma while_loop_Forall {St} (body : St → option (St * list Step))
    (P : Step → Prop) :
  (∀ st st' evs, body st = Some (st', evs) → Forall P evs) →
  ∀ fuel st out, while_loop body fuel st = Some out → Forall P out.
Proof.
  intros Hbody fuel st out Hrun.
  destruct (while_loop_invariant body (λ _ pre, Forall P pre)) with
    (fuel := fuel) (st := st) (pre := @nil Step) (out := out)
    as (st' & _ & Hall); [|constructor|exact Hrun|exact Hall].
  intros st0 pre st1 evs Hpre Hb. apply Forall_app. split; [exact Hpre|].
  by eapply Hbody.
Qed.

Lemma enqueue_steps_edge_ok c (d : nat → option Z) (l : list nat) :
  Forall step_edge_ok ((λ n, enqueue_step c n (d n)) <$> l).
Proof.
  apply Forall_fmap, Forall_forall. intros n _ from to. simpl.
  by intros [= _ <-].
Qed.

Lemma visit_step_edge_ok c d : step_edge_ok (visit_step c d).
Proof. intros from to. done. Qed.

Lemma dijkstra_relax_edge_ok V c d nbrs D pq D' pq' evs :
  dijkstra_relax V c d nbrs D pq = (D', pq', evs) → Forall step_edge_ok evs.
Proof.
  revert D pq D' pq' evs.
  induction nbrs as [|[n w] nbrs IH]; intros D pq D' pq' evs;
    cbn [dijkstra_relax].
  - intros [= <- <- <-]. constructor.
  - destruct (decide (n ∈ V)); [apply IH|].
    destruct (js_add d w) as [z|]; [|apply IH].
    destruct (lt_distance (Finite z) (D !! n)); [|apply IH].
    destruct (dijkstra_relax V c d nbrs _ _) as [[D1 pq1] evs1] eqn:Hr.
    intros [= <- <- <-]. constructor; [|by eapply IH].
    intros from to. simpl. by intros [= _ <-].
Qed.

Lemma run_algorithm_edge_ok a ns adj start evs :
  run_algorithm a ns adj start = Some evs → Forall step_edge_ok evs.
Proof.
  destruct a; simpl.
  - apply while_loop_Forall. intros [V Q] [V' Q'] ev. unfold bfs_body.
    destruct Q as [|c Q]; [done|]. destruct (decide _).
    + intros [= <- <- <-]. constructor.
    + rewrite bfs_offer_spec. intros [= <- <- <-].
      constructor; [apply visit_step_edge_ok|].
      apply (enqueue_steps_edge_ok c (λ _, None)).
  - apply while_loop_Forall. intros [V Q] [V' Q'] ev. unfold dfs_body.
    destruct Q as [|c Q]; [done|]. destruct (decide _).
    + intros [= <- <- <-]. constructor.
    + rewrite dfs_offer_spec. intros [= <- <- <-].
      constructor; [apply visit_step_edge_ok|].
      apply (enqueue_steps_edge_ok c (λ _, None)).
  - unfold dijkstra. destruct (while_loop _ _ _) as [out|] eqn:Hrun; [|done].
    intros [= <-]. constructor; [by intros from to|].
    revert Hrun. apply while_loop_Forall. intros st st' ev.
    unfold dijkstra_body. destruct (pq_sort _) as [|[c d] pq]; [done|].
    destruct (decide _).
    + intros [= <- <-]. constructor.
    + destruct (dijkstra_relax _ c d _ _ pq) as [[D1 pq1] evs1] eqn:Hr.
      intros [= <- <-]. constructor; [apply visit_step_edge_ok|].
      by eapply dijkstra_relax_edge_ok.
Qed.

Lemma createEdge_queue from to w s :
  animationQueue (outcome_store (createEdge from to w s)) = animationQueue s.
Proof.
  unfold createEdge. destruct (List.find _ _); [done|].
  destruct (adjacency_push _ _ _) as [adj1|]; [|done].
  destruct (decide _); [|done].
  by destruct (adjacency_push _ _ adj1).
Qed.

Lemma addNodes_queue (ps : list (Z * Z)) s :
  animationQueue (foldl (λ st pos, addNode pos.1 pos.2 st) s ps) =
  animationQueue s.
Proof.
  revert s. induction ps as [|p ps IH]; intros s; [done|].
  simpl. by rewrite IH.
Qed.

Lemma create_sample_edges_queue es s :
  animationQueue (outcome_store (create_sample_edges es s)) = animationQueue s.
Proof.
  revert s. induction es as [|[[f t] w] es IH]; intros s; [done|]. simpl.
  destruct (nodes s !! f) as [nf|]; [|done].
  destruct (nodes s !! t) as [nt|]; [|done].
  pose proof (createEdge_queue nf nt w s) as Hq.
  destruct (createEdge nf nt w s) as [s'|s']; simpl in *; [|done].
  by rewrite IH.
Qed.

Lemma loadSampleGraph_queue s :
  animationQueue (outcome_store (loadSampleGraph s)) = [].
Proof.
  unfold loadSampleGraph.
  pose proof (create_sample_edges_queue sampleEdges
    (foldl (λ st pos, addNode pos.1 pos.2 st) (clearGraph s) sampleNodes)) as Hq.
  rewrite addNodes_queue in Hq.
  destruct (create_sample_edges _ _) as [s3|s3]; simpl in *; [|done].
  by destruct (nodes s3 !! 0).
Qed.

Lemma executeStep_queue step s :
  animationQueue (executeStep step s) = animationQueue s.
Proof. destruct step; reflexivity. Qed.

Lemma runAnimation_tick_queue s :
  animationQueue (runAnimation_tick s) = animationQueue s.
Proof.
  unfold runAnimation_tick. destruct (_ && _).
  - destruct (isPaused s); [done|]. destruct (_ !! _); [|done].
    simpl. by rewrite executeStep_queue.
  - by destruct (bool_decide _).
Qed.

Lemma perform_queue_wf a s s' : queue_wf s → perform a s = Some s' → queue_wf s'.
Proof.
  unfold queue_wf. intros Hq. destruct a; simpl.
  - by intros [= <-].
  - destruct (decide _); [|done]. intros [= <-]. by rewrite createEdge_queue.
  - destruct (decide _); [|done]. by intros [= <-].
  - destruct (decide _); [|done]. by intros [= <-].
  - by intros [= <-].
  - by intros [= <-].
  - by intros [= <-].
  - unfold startTraversal. destruct (startNode s) as [start|]; [|by intros [= <-]].
    destruct (isRunning s); [by intros [= <-]|].
    destruct (generator _ _) as [steps|] eqn:Hgen; [|done].
    intros [= <-]. rewrite runAnimation_tick_queue. simpl.
    by eapply run_algorithm_edge_ok.
  - intros [= <-]. by rewrite runAnimation_tick_queue.
  - by intros [= <-].
  - unfold stepTraversal.
    assert (Hexec : ∀ s2, Forall step_edge_ok (animationQueue s2) →
      match animationQueue s2 !! currentStep s2 with
      | Some step =>
          Some (with_run (executeStep step s2) (isRunning (executeStep step s2))
                  (isPaused (executeStep step s2))
                  (animationQueue (executeStep step s2))
                  (S (currentStep (executeStep step s2))))
      | None => Some s2
      end = Some s' → Forall step_edge_ok (animationQueue s')).
    { intros s2 H2. destruct (_ !! _).
      - intros [= <-]. simpl. by rewrite executeStep_queue.
      - by intros [= <-]. }
    destruct (animationQueue s) as [|st q] eqn:Hqs.
    + destruct (startNode s) as [start|].
      * destruct (generator (resetTraversal s) start) as [steps|] eqn:Hgen;
          [|done].
        apply Hexec. simpl. by eapply run_algorithm_edge_ok.
      * apply Hexec. by rewrite Hqs.
    + apply Hexec. by rewrite Hqs.
  - intros [= <-]. constructor.
  - intros [= <-]. constructor.
  - intros [= <-]. rewrite loadSampleGraph_queue. constructor.
Qed.

(** In every store that the program can be in, the materialized sequence
    holds steps as the generators yield them. *)
Lemma store_reachable_queue_wf s : store_reachable s → queue_wf s.
Proof.
  intros [acts Hrun].
  assert (Hgen : ∀ s0, queue_wf s0 → run_actions acts s0 = Some s → queue_wf s).
  { clear Hrun. induction acts as [|a acts IH]; intros s0 Hq; simpl.
    - by intros [= <-].
    - destruct (perform a s0) as [s1|] eqn:Hp; [|done].
      apply IH. by eapply perform_queue_wf. }
  eapply Hgen; [|exact Hrun]. constructor.
Qed.

(** ** Deleting a node *)

(** C8.  For every store that the program can be in and every node whose id
    is present, [deleteNode] removes exactly the nodes with that id and the
    edges that touch it, removes the adjacency entry of the id, removes the
    id from every other adjacency list, and clears the start designation if
    it pointed at the id; the store that results satisfies the invariant
    [store_wf]: edges, adjacency keys and adjacency neighbours name only
    nodes that exist, every edge has its adjacency entry and every adjacency
    entry its edge. *)
Theorem deleteNode_leaves_no_dangling_reference :
  ∀ (s : Store) (node : Node),
    store_reachable s →
    node_id node ∈ node_ids s →
    let s' := deleteNode node s in
    (∀ n, n ∈ nodes s' ↔ n ∈ nodes s ∧ node_id n ≠ node_id node) ∧
    (∀ e, e ∈ edges s' ↔
          e ∈ edges s ∧ edge_from e ≠ node_id node ∧ edge_to e ≠ node_id node) ∧
    adjacencyList s' !! node_id node = None ∧
    (∀ k x w, (x, w) ∈ neighbors (adjacencyList s') k ↔
              k ≠ node_id node ∧ x ≠ node_id node ∧
              (x, w) ∈ neighbors (adjacencyList s) k) ∧
    startNode s' =
      (if decide (startNode s = Some (node_id node)) then None else startNode s) ∧
    (node_id node ∉ node_ids s') ∧
    store_wf s'.
Proof.
  intros s node Hreach Hin s'. subst s'.
  split; [|split; [|split; [|split; [|split; [done|split]]]]].
  - intros n. simpl. rewrite list_elem_of_filter. tauto.
  - intros e. simpl. rewrite list_elem_of_filter. tauto.
  - simpl. by rewrite lookup_fmap, lookup_delete_eq.
  - intros k x w. rewrite deleteNode_neighbors.
    destruct (decide (k = node_id node)) as [->|Hne].
    + split; [intros Hx; by apply elem_of_nil in Hx|by intros [? _]].
    + rewrite list_elem_of_filter. simpl. tauto.
  - unfold node_ids. simpl. rewrite node_ids_filter.
    intros [Hne _]%list_elem_of_filter. done.
  - by apply deleteNode_wf, store_reachable_wf.
Qed.

Lemma deleteNode_leaves_no_dangling_reference_witness :
  let s' := deleteNode (node_at 1) abc_store in
  (∀ n, n ∈ nodes s' ↔ n ∈ nodes abc_store ∧ node_id n ≠ 1) ∧
  (∀ e, e ∈ edges s' ↔ e ∈ edges abc_store ∧ edge_from e ≠ 1 ∧ edge_to e ≠ 1) ∧
  adjacencyList s' !! 1 = None ∧
  (∀ k x w, (x, w) ∈ neighbors (adjacencyList s') k ↔
            k ≠ 1 ∧ x ≠ 1 ∧ (x, w) ∈ neighbors (adjacencyList abc_store) k) ∧
  startNode s' =
    (if decide (startNode abc_store = Some 1) then None else startNode abc_store) ∧
  (1 ∉ node_ids s') ∧
  store_wf s'.
Proof.
  apply (deleteNode_leaves_no_dangling_reference abc_store (node_at 1)).
  - exists abc_actions. vm_compute. reflexivity.
  - vm_compute. apply list_elem_of_In. simpl. tauto.
Defined.

(** ** Allocation of node ids *)

Lemma allocated_ids_no_clear (ops : list GraphOp) (s : Store) :
  OpClear ∉ ops →
  ∃ n, allocated_ids ops s = seq (nodeIdCounter s) n.
Proof.
  revert s. induction ops as [|op ops IH]; intros s Hnc.
  - by exists 0.
  - assert (Hnc' : OpClear ∉ ops).
    { intros Hin. apply Hnc. by apply elem_of_cons; right. }
    destruct op as [x y|node|].
    + destruct (IH (addNode x y s) Hnc') as [n Hn]. exists (S n).
      simpl. by rewrite Hn.
    + destruct (IH (deleteNode node s) Hnc') as [n Hn]. exists n.
      simpl. by rewrite Hn.
    + exfalso. apply Hnc. by apply elem_of_cons; left.
Qed.

Lemma seq_strictly_sorted (a n : nat) : StronglySorted lt (seq a n).
Proof.
  revert a. induction n as [|n IH]; intros a; simpl; constructor; [apply IH|].
  apply Forall_forall. intros i Hi%list_elem_of_In%in_seq. lia.
Qed.

(** C9, as the code has it.  In a sequence of [addNode] and [deleteNode]
    calls without a [clearGraph], from any store, the ids given by the
    [addNode] calls strictly increase, so no two of them are equal;
    [clearGraph] resets the id counter to its initial value. *)
Theorem node_ids_increase_between_clears :
  ∀ (ops : list GraphOp) (s : Store),
    OpClear ∉ ops →
    StronglySorted lt (allocated_ids ops s) ∧
    NoDup (allocated_ids ops s) ∧
    nodeIdCounter (clearGraph s) = nodeIdCounter init_store.
Proof.
  intros ops s Hnc.
  destruct (allocated_ids_no_clear ops s Hnc) as [n ->].
  split; [apply seq_strictly_sorted|]. split; [apply NoDup_seq|done].
Qed.

Lemma node_ids_increase_between_clears_witness :
  StronglySorted lt
    (allocated_ids [OpAddNode 0 0; OpDeleteNode (node_at 0); OpAddNode 5 5]
       init_store) ∧
  NoDup
    (allocated_ids [OpAddNode 0 0; OpDeleteNode (node_at 0); OpAddNode 5 5]
       init_store) ∧
  nodeIdCounter (clearGraph init_store) = nodeIdCounter init_store.
Proof.
  apply (node_ids_increase_between_clears
           [OpAddNode 0 0; OpDeleteNode (node_at 0); OpAddNode 5 5] init_store).
  intros Hin. apply list_elem_of_In in Hin. simpl in Hin.
  destruct Hin as [H|[H|[H|[]]]]; discriminate H.
Defined.

(** C9, as the claim states it, fails: the two [addNode] calls around a
    [clearGraph] give the same id 0. *)
Lemma node_id_reused_after_clear :
  allocated_ids [OpAddNode 0 0; OpClear; OpAddNode 0 0] init_store = [0; 0] ∧
  ¬ NoDup (allocated_ids [OpAddNode 0 0; OpClear; OpAddNode 0 0] init_store).
Proof.
  split; [reflexivity|].
  change (¬ NoDup [0; 0]). intros Hnd. apply NoDup_cons in Hnd as [Hnotin _].
  apply Hnotin. by apply list_elem_of_singleton.
Qed.

(** ** The three-node scenario *)

(** C4, as the code has it.  On the store with nodes A (id 0), B (id 1),
    C (id 2) and the directed edges A→B of weight 1, A→C of weight 4 and
    B→C of weight 1, with start A, [startTraversal] materializes the
    sequence setDistance(A,0), then visit(A,0), then the enqueue of B with
    distance 1 and of C with distance 4, then visit(B,1), the enqueue of C
    with distance 2 and visit(C,2): B is visited before C, and when the seven
    events have been played C has distance 2 (and A has 0, B has 1). *)
Theorem abc_shortest_path_run :
  node_label <$> nodes abc_store = ["A"; "B"; "C"]%string ∧
  edge_key <$> edges abc_store = [(0, 1, 1%Z); (0, 2, 4%Z); (1, 2, 1%Z)] ∧
  dijkstra (nodes abc_store) (adjacencyList abc_store) 0 = Some abc_events ∧
  visit_nodes abc_events = [0; 1; 2] ∧
  ∃ s1,
    startTraversal abc_store = Some (s1, None) ∧
    animationQueue s1 = abc_events ∧
    node_distance <$> nodes (Nat.iter 7 runAnimation_tick s1) =
      [Finite 0; Finite 1; Finite 2].
Proof.
  split; [by vm_compute|]. split; [by vm_compute|].
  split; [by vm_compute|]. split; [by vm_compute|].
  eexists. split; [by vm_compute|]. split; by vm_compute.
Qed.

(** C4, as the claim states it, fails: the run does not yield
    setDistance(A,0), the two enqueues and then visit(A,0) in this order,
    because visit(A,0) comes before the enqueues. *)
Lemma abc_visit_precedes_enqueues :
  dijkstra (nodes abc_store) (adjacencyList abc_store) 0 = Some abc_events ∧
  occur_in_order
    [SetDistance 0 0; Enqueue 1 (Some (0, 1)) (Some 1%Z);
     Enqueue 2 (Some (0, 2)) (Some 4%Z); Visit 0 None (Some 0%Z)]
    abc_events = false ∧
  occur_in_order
    [SetDistance 0 0; Visit 0 None (Some 0%Z);
     Enqueue 1 (Some (0, 1)) (Some 1%Z); Enqueue 2 (Some (0, 2)) (Some 4%Z)]
    abc_events = true.
Proof. repeat split; vm_compute; reflexivity. Qed.

(** C10.  For every graph and start id, each of the three generators
    finishes, and the sequence it yields has at most one visit event per
    node id: the node ids of its visit events are pairwise distinct.  The
    same node id may occur in several enqueue events before its one visit:
    in the three-node run, C is enqueued twice and visited once. *)
Theorem at_most_one_visit_per_node :
  (∀ (a : Algorithm) (ns : list Node) (adj : Adjacency) (start : nat),
     ∃ evs, run_algorithm a ns adj start = Some evs ∧ NoDup (visit_nodes evs)) ∧
  (∃ evs,
     run_algorithm algo_dijkstra (nodes abc_store) (adjacencyList abc_store) 0
       = Some evs ∧
     enqueue_nodes evs = [1; 2; 2] ∧ visit_nodes evs = [0; 1; 2]).
Proof.
  split.
  - intros a ns adj start.
    destruct (run_algorithm_terminates a ns adj start) as [evs Hevs].
    exists evs. split; [exact Hevs|].
    destruct a; simpl in Hevs.
    + by eapply bfs_visited_once.
    + by eapply dfs_visited_once.
    + by eapply dijkstra_visited_once.
  - exists abc_events.
    split; [vm_compute; reflexivity|]. split; vm_compute; reflexivity.
Qed.

(** ** Starting a run *)

(** C7.  When no start node is designated, or when a run is already
    running, [startTraversal] returns with the store unchanged; in the first
    case it alerts the user, in the second it says nothing. *)
Theorem startTraversal_rejected :
  ∀ s : Store,
    startNode s = None ∨ isRunning s = true →
    ∃ msg,
      startTraversal s = Some (s, msg) ∧
      msg = match startNode s with
            | None => Some "Please set a start node first!"%string
            | Some _ => None
            end.
Proof.
  intros s Hcase. unfold startTraversal.
  destruct (startNode s) as [start|].
  - destruct Hcase as [Hnone|Hrun]; [done|]. rewrite Hrun. by eexists.
  - by eexists.
Qed.

Lemma startTraversal_rejected_witness :
  ∃ msg,
    startTraversal init_store = Some (init_store, msg) ∧
    msg = match startNode init_store with
          | None => Some "Please set a start node first!"%string
          | Some _ => None
          end.
Proof.
  apply (startTraversal_rejected init_store). left. reflexivity.
Defined.

(** ** Applying an event *)

Lemma find_update_first {A} (p : A → bool) (f : A → A) (l : list A) (a : A) :
  List.find p l = Some a → p (f a) = true →
  List.find p (update_first p f l) = Some (f a).
Proof.
  intros Hfind Hp. induction l as [|b l IH]; [done|]. simpl in *.
  destruct (p b) eqn:Hb.
  - injection Hfind as ->. simpl. by rewrite Hp.
  - simpl. rewrite Hb. by apply IH.
Qed.

Lemma update_first_none {A} (p : A → bool) (f : A → A) (l : list A) :
  List.find p l = None → update_first p f l = l.
Proof.
  induction l as [|b l IH]; [done|]. simpl.
  destruct (p b); [done|]. intros Hn. by rewrite IH.
Qed.

Lemma has_id_demote i n : has_id i (demote_current n) = has_id i n.
Proof. unfold demote_current. by destruct (decide _). Qed.

Lemma find_demote i (ns : list Node) :
  List.find (has_id i) (demote_current <$> ns) =
  demote_current <$> List.find (has_id i) ns.
Proof.
  induction ns as [|n ns IH]; [done|]. rewrite fmap_cons. simpl.
  rewrite has_id_demote. by destruct (has_id i n).
Qed.

Lemma find_has_id_none i (ns : list Node) :
  i ∉ node_id <$> ns → List.find (has_id i) ns = None.
Proof.
  induction ns as [|n ns IH]; [done|]. rewrite fmap_cons. intros Hni. simpl.
  unfold has_id at 1. rewrite bool_decide_eq_false_2.
  - apply IH. intros Hin. apply Hni. by apply elem_of_cons; right.
  - intros Heq. apply Hni. apply elem_of_cons. by left.
Qed.

Lemma edge_matches_endpoints gt from to e :
  edge_matches gt from to e = true →
  (edge_from e = from ∧ edge_to e = to) ∨ (edge_from e = to ∧ edge_to e = from).
Proof.
  unfold edge_matches.
  intros [[H1 H2]%andb_prop|[[_ H1]%andb_prop H2]%andb_prop]%orb_prop;
    apply bool_decide_eq_true in H1, H2; [by left|by right].
Qed.

Lemma find_edge_none gt from to (es : list Edge) (ids : list nat) :
  (∀ e, e ∈ es → edge_from e ∈ ids ∧ edge_to e ∈ ids) →
  from ∉ ids ∨ to ∉ ids →
  List.find (edge_matches gt from to) es = None.
Proof.
  intros Hclosed Hmiss. induction es as [|e es IH]; [done|]. simpl.
  destruct (edge_matches gt from to e) eqn:Hm.
  - exfalso. destruct (Hclosed e) as [Hf Ht]; [by apply elem_of_cons; left|].
    apply edge_matches_endpoints in Hm as [[<- <-]|[<- <-]]; tauto.
  - apply IH. intros e' He'. apply Hclosed. by apply elem_of_cons; right.
Qed.

Lemma edges_closed_of_wf s :
  store_wf s → ∀ e, e ∈ edges s → edge_from e ∈ node_ids s ∧ edge_to e ∈ node_ids s.
Proof.
  intros Hwf e He. apply (wf_edges_closed _ Hwf _ _ (edge_weight e)).
  apply list_elem_of_fmap. by exists e.
Qed.

Lemma demote_distance (ns : list Node) :
  node_distance <$> (demote_current <$> ns) = node_distance <$> ns.
Proof.
  rewrite <- list_fmap_compose. apply list_fmap_ext. intros i n _. simpl.
  unfold demote_current. by destruct (decide _).
Qed.

(** C5, as the code has it.  When an enqueue event is applied and the target
    node exists: if the node is unvisited, its state becomes inQueue and, if
    the event carries a distance, its distance becomes that distance,
    whatever it was; if the node is not unvisited, the event leaves its
    distance as it is and its state too, but for the demotion of a current
    node to visited that precedes every event.  The first edge that matches
    the edge of the event, if there is one, becomes active. *)
Theorem enqueue_event_effect :
  ∀ (s : Store) (i : nat) (e : option (nat * nat)) (d : option Z) (n : Node),
    List.find (has_id i) (nodes s) = Some n →
    let s' := executeStep (Enqueue i e d) s in
    (∃ n',
       List.find (has_id i) (nodes s') = Some n' ∧
       (node_state n = st_unvisited →
          node_state n' = st_inQueue ∧
          node_distance n' =
            match d with Some z => Finite z | None => node_distance n end) ∧
       (node_state n ≠ st_unvisited →
          node_state n' =
            (if decide (node_state n = st_current) then st_visited
             else node_state n) ∧
          node_distance n' = node_distance n)) ∧
    (∀ from to x,
       e = Some (from, to) →
       List.find (edge_matches (graphType s) from to) (edges s) = Some x →
       List.find (edge_matches (graphType s) from to) (edges s') =
         Some (set_edge_state est_active x)).
Proof.
  intros s i e d n Hfind s'. subst s'. split.
  - eexists. split.
    + cbn [executeStep nodes with_playback]. apply find_update_first.
      * rewrite find_demote, Hfind. reflexivity.
      * assert (Hid : has_id i n = true).
        { by apply find_some in Hfind as [_ ?]. }
        destruct (decide _).
        -- unfold has_id. rewrite assign_distance_id. simpl.
           fold (has_id i (demote_current n)). by rewrite has_id_demote.
        -- by rewrite has_id_demote.
    + clear Hfind. destruct n as [nid nx ny nst nd nl].
      unfold demote_current. simpl.
      destruct nst, d; simpl; split; intros Hu; done.
  - intros from to x -> Hx. cbn [executeStep edges with_playback mark_edge].
    apply find_update_first; [exact Hx|].
    apply find_some in Hx as [_ Hm]. exact Hm.
Qed.

Lemma enqueue_event_effect_witness :
  let s' := executeStep (Enqueue 2 (Some (0, 2)) (Some 4%Z)) abc_store in
  (∃ n',
     List.find (has_id 2) (nodes s') = Some n' ∧
     (node_state (node_at 2) = st_unvisited →
        node_state n' = st_inQueue ∧ node_distance n' = Finite 4) ∧
     (node_state (node_at 2) ≠ st_unvisited →
        node_state n' =
          (if decide (node_state (node_at 2) = st_current) then st_visited
           else node_state (node_at 2)) ∧
        node_distance n' = node_distance (node_at 2))) ∧
  (∀ from to x,
     Some (0, 2) = Some (from, to) →
     List.find (edge_matches (graphType abc_store) from to) (edges abc_store)
       = Some x →
     List.find (edge_matches (graphType abc_store) from to) (edges s') =
       Some (set_edge_state est_active x)).
Proof.
  apply (enqueue_event_effect abc_store 2 (Some (0, 2)) (Some 4%Z) (node_at 2)).
  vm_compute. reflexivity.
Defined.

(** C5, as the claim states it, fails: in the three-node run, C is inQueue
    with distance 4 when the second enqueue of C, which carries distance 2,
    is applied, and its distance stays 4. *)
Lemma enqueue_keeps_distance_of_queued_node :
  let s := play (take 5 abc_events) abc_store in
  let s' := executeStep (Enqueue 2 (Some (1, 2)) (Some 2%Z)) s in
  abc_events !! 5 = Some (Enqueue 2 (Some (1, 2)) (Some 2%Z)) ∧
  node_state <$> List.find (has_id 2) (nodes s) = Some st_inQueue ∧
  node_distance <$> List.find (has_id 2) (nodes s) = Some (Finite 4) ∧
  node_distance <$> List.find (has_id 2) (nodes s') = Some (Finite 4) ∧
  node_distance <$> List.find (has_id 2) (nodes s') ≠ Some (Finite 2).
Proof. repeat split; vm_compute; congruence. Qed.

Lemma advanced_eq step s :
  with_run (executeStep step s) (isRunning (executeStep step s))
    (isPaused (executeStep step s)) (animationQueue (executeStep step s))
    (S (currentStep (executeStep step s))) = advanced step s.
Proof. destruct step; reflexivity. Qed.

(** What [stepTraversal] and a turn of [runAnimation] do when the cursor
    points at a step: they apply it and move the cursor by one. *)
Lemma playback_applies_step step s :
  animationQueue s !! currentStep s = Some step →
  stepTraversal s = Some (advanced step s) ∧
  runAnimation_tick s =
    (if isRunning s && negb (isPaused s) then advanced step s else s).
Proof.
  intros Hstep. split.
  - unfold stepTraversal.
    destruct (animationQueue s) as [|st q] eqn:Hq; [done|].
    simpl. rewrite ?Hq, Hstep. by rewrite advanced_eq.
  - unfold runAnimation_tick.
    pose proof (lookup_lt_Some _ _ _ Hstep) as Hlt.
    rewrite (bool_decide_eq_true_2 _ Hlt). simpl.
    destruct (isRunning s); simpl.
    + destruct (isPaused s); simpl; [done|]. rewrite Hstep. by rewrite advanced_eq.
    + rewrite bool_decide_eq_false_2; [done|lia].
Qed.

(** C6, as the code has it.  In every store that the program can be in, when
    the event at the cursor names a node id that is no longer present,
    applying the event does not fail and changes nothing but what precedes
    every event, the demotion of the nodes in state current to visited: the
    other visual states of the nodes, their distances, the edges and the
    order log stay as they are.  Playback continues: [stepTraversal], and a
    turn of [runAnimation] when running and not paused, move the cursor to
    the next event and leave the sequence as it is. *)
Theorem stale_event_only_demotes :
  ∀ (s : Store) (step : Step),
    store_reachable s →
    animationQueue s !! currentStep s = Some step →
    step_node step ∉ node_ids s →
    let s' := executeStep step s in
    nodes s' = demote_current <$> nodes s ∧
    node_distance <$> nodes s' = node_distance <$> nodes s ∧
    edges s' = edges s ∧
    orderList s' = orderList s ∧
    stepTraversal s = Some (advanced step s) ∧
    runAnimation_tick s =
      (if isRunning s && negb (isPaused s) then advanced step s else s) ∧
    currentStep (advanced step s) = S (currentStep s) ∧
    animationQueue (advanced step s) = animationQueue s.
Proof.
  intros s step Hreach Hcursor Hnode s'. subst s'.
  pose proof (edges_closed_of_wf s (store_reachable_wf s Hreach)) as Hclosed.
  assert (Hedge : ∀ from to, step_edge step = Some (from, to) →
                             from ∉ node_ids s ∨ to ∉ node_ids s).
  { intros from to He. right.
    pose proof (store_reachable_queue_wf s Hreach) as Hq.
    unfold queue_wf in Hq. rewrite Forall_forall in Hq.
    rewrite (Hq step (list_elem_of_lookup_2 _ _ _ Hcursor) from to He).
    exact Hnode. }
  assert (Hfind : List.find (has_id (step_node step)) (demote_current <$> nodes s)
                  = None).
  { apply find_has_id_none. by rewrite node_ids_demote. }
  assert (Hmark : ∀ e st, step_edge step = e →
                          mark_edge (graphType s) e st (edges s) = edges s).
  { intros [[from to]|] st He; [|done]. simpl.
    apply update_first_none. eapply find_edge_none; [exact Hclosed|].
    by apply Hedge. }
  assert (Hnodes : nodes (executeStep step s) = demote_current <$> nodes s).
  { destruct step as [i e d|i e d|i d]; simpl in *;
      by apply update_first_none. }
  destruct (playback_applies_step step s Hcursor) as [Hst Htick].
  split; [exact Hnodes|]. split; [by rewrite Hnodes, demote_distance|].
  split; [|split; [|split; [exact Hst|split; [exact Htick|done]]]].
  - destruct step as [i e d|i e d|i d]; simpl; try done; by apply Hmark.
  - destruct step as [i e d|i e d|i d]; simpl in *; try done.
    by rewrite Hfind.
Qed.

Lemma stale_event_only_demotes_witness :
  let step := Enqueue 1 (Some (0, 1)) (Some 1%Z) in
  let s' := executeStep step abc_interrupted in
  nodes s' = demote_current <$> nodes abc_interrupted ∧
  node_distance <$> nodes s' = node_distance <$> nodes abc_interrupted ∧
  edges s' = edges abc_interrupted ∧
  orderList s' = orderList abc_interrupted ∧
  stepTraversal abc_interrupted = Some (advanced step abc_interrupted) ∧
  runAnimation_tick abc_interrupted =
    (if isRunning abc_interrupted && negb (isPaused abc_interrupted)
     then advanced step abc_interrupted else abc_interrupted) ∧
  currentStep (advanced step abc_interrupted) = S (currentStep abc_interrupted) ∧
  animationQueue (advanced step abc_interrupted) = animationQueue abc_interrupted.
Proof.
  apply (stale_event_only_demotes abc_interrupted
           (Enqueue 1 (Some (0, 1)) (Some 1%Z))).
  - exists abc_interrupted_actions. vm_compute. reflexivity.
  - vm_compute. reflexivity.
  - vm_compute. intros Hin. apply list_elem_of_In in Hin. simpl in Hin.
    destruct Hin as [H|[H|[]]]; discriminate H.
Defined.

(** C6, as the claim states it, fails: in the three-node run, when B is
    deleted right after visit(A,0), the next event, the enqueue of B, names a
    node and an edge that are gone, and applying it changes the visual state
    of A from current to visited. *)
Lemma stale_event_changes_visual_state :
  let step := Enqueue 1 (Some (0, 1)) (Some 1%Z) in
  animationQueue abc_interrupted !! currentStep abc_interrupted = Some step ∧
  node_ids abc_interrupted = [0; 2] ∧
  edge_key <$> edges abc_interrupted = [(0, 2, 4%Z)] ∧
  node_state <$> nodes abc_interrupted = [st_current; st_unvisited] ∧
  node_state <$> nodes (executeStep step abc_interrupted) =
    [st_visited; st_unvisited] ∧
  node_state <$> nodes (executeStep step abc_interrupted) ≠
    node_state <$> nodes abc_interrupted.
Proof. repeat split; vm_compute; congruence. Qed.

(** * Further properties of the code *)

(** ** The first events of a run *)

Lemma while_loop_unfold {St} (body : St → option (St * list Step)) fuel st
    st' evs out :
  while_loop body (S fuel) st = Some out → body st = Some (st', evs) →
  ∃ rest, while_loop body fuel st' = Some rest ∧ out = evs ++ rest.
Proof.
  simpl. intros Hrun Hb. rewrite Hb in Hrun.
  destruct (while_loop body fuel st') as [rest|]; [|done].
  injection Hrun as <-. by exists rest.
Qed.

Lemma bfs_first_iteration adj start :
  bfs_body adj (∅, [start]) =
  Some (({[start]} ∪ ∅, offered ({[start]} ∪ ∅) (neighbors adj start)),
        visit_step start None ::
          ((λ n, enqueue_step start n None) <$>
             offered ({[start]} ∪ ∅) (neighbors adj start))).
Proof.
  unfold bfs_body. rewrite decide_False by apply not_elem_of_empty.
  by rewrite bfs_offer_spec.
Qed.

Lemma dfs_first_iteration adj start :
  dfs_body adj (∅, [start]) =
  Some (({[start]} ∪ ∅,
         reverse (offered ({[start]} ∪ ∅) (reverse (neighbors adj start))) ++ []),
        visit_step start None ::
          ((λ n, enqueue_step start n None) <$>
             offered ({[start]} ∪ ∅) (reverse (neighbors adj start)))).
Proof.
  unfold dfs_body. rewrite decide_False by apply not_elem_of_empty.
  by rewrite dfs_offer_spec.
Qed.

(** For every graph and start id, the first node visited is the start node:
    [bfs] and [dfs] begin with its visit, and [dijkstra] begins with
    setDistance(start, 0) and then the visit of the start node at
    distance 0. *)
Theorem start_node_is_visited_first :
  ∀ (ns : list Node) (adj : Adjacency) (start : nat),
    (∃ rest, bfs adj start = Some (Visit start None None :: rest)) ∧
    (∃ rest, dfs adj start = Some (Visit start None None :: rest)) ∧
    (∃ rest, dijkstra ns adj start =
             Some (SetDistance start 0 :: Visit start None (Some 0%Z) :: rest)).
Proof.
  intros ns adj start. split; [|split].
  - destruct (bfs_terminates adj start) as [out Hout]. rewrite Hout.
    destruct (while_loop_unfold _ _ _ _ _ _ Hout (bfs_first_iteration adj start))
      as (rest & _ & ->).
    by eexists.
  - destruct (dfs_terminates adj start) as [out Hout]. rewrite Hout.
    destruct (while_loop_unfold _ _ _ _ _ _ Hout (dfs_first_iteration adj start))
      as (rest & _ & ->).
    by eexists.
  - unfold dijkstra.
    destruct (dijkstra_loop_terminates ns adj start) as [out Hout]. rewrite Hout.
    unfold traversal_fuel in Hout.
    destruct (dijkstra_body adj (dijkstra_init ns start)) as [[st' evs]|] eqn:Hb.
    + destruct (while_loop_unfold _ _ _ _ _ _ Hout Hb) as (rest & _ & ->).
      unfold dijkstra_body in Hb. simpl in Hb.
      rewrite decide_False in Hb by apply not_elem_of_empty.
      destruct (dijkstra_relax _ _ _ _ _ _) as [[D1 pq1] evs1].
      injection Hb as _ <-. by eexists.
    + unfold dijkstra_body in Hb. simpl in Hb.
      rewrite decide_False in Hb by apply not_elem_of_empty.
      by destruct (dijkstra_relax _ _ _ _ _ _) as [[D1 pq1] evs1].
Qed.

(** When the start node has no adjacency entry, the sequence is exactly the
    visit of the start node, preceded for [dijkstra] by setDistance. *)
Theorem isolated_start_is_visited_alone :
  ∀ (ns : list Node) (adj : Adjacency) (start : nat),
    neighbors adj start = [] →
    bfs adj start = Some [Visit start None None] ∧
    dfs adj start = Some [Visit start None None] ∧
    dijkstra ns adj start =
      Some [SetDistance start 0; Visit start None (Some 0%Z)].
Proof.
  intros ns adj start Hnb. split; [|split].
  - unfold bfs, traversal_fuel. cbn [while_loop].
    rewrite bfs_first_iteration, Hnb. reflexivity.
  - unfold dfs, traversal_fuel. cbn [while_loop].
    rewrite dfs_first_iteration, Hnb. reflexivity.
  - unfold dijkstra, traversal_fuel. cbn [while_loop].
    unfold dijkstra_body at 1. simpl.
    rewrite decide_False by apply not_elem_of_empty.
    rewrite Hnb. simpl. reflexivity.
Qed.

Lemma isolated_start_is_visited_alone_witness :
  bfs (adjacencyList abc_store) 2 = Some [Visit 2 None None] ∧
  dfs (adjacencyList abc_store) 2 = Some [Visit 2 None None] ∧
  dijkstra (nodes abc_store) (adjacencyList abc_store) 2 =
    Some [SetDistance 2 0; Visit 2 None (Some 0%Z)].
Proof.
  apply (isolated_start_is_visited_alone (nodes abc_store)
           (adjacencyList abc_store) 2).
  vm_compute. reflexivity.
Defined.

(** ** Creating edges *)

Lemma find_app_None {A} (p : A → bool) (l : list A) (x : A) :
  List.find p l = None → List.find p (l ++ [x]) = if p x then Some x else None.
Proof.
  induction l as [|a l IH]; simpl.
  - intros _. by destruct (p x).
  - destruct (p a); [done|]. exact IH.
Qed.

Lemma find_app_Some {A} (p : A → bool) (l l' : list A) (a : A) :
  List.find p l = Some a → List.find p (l ++ l') = Some a.
Proof.
  induction l as [|b l IH]; simpl; [done|].
  destruct (p b); [done|]. exact IH.
Qed.

Lemma find_pointwise {A} (p q : A → bool) (l : list A) :
  (∀ x, p x = q x) → List.find p l = List.find q l.
Proof.
  intros Hpq. induction l as [|a l IH]; [done|]. simpl.
  by rewrite Hpq, IH.
Qed.

Lemma edge_matches_new gt from to w st :
  edge_matches gt from to
    {| edge_from := from; edge_to := to; edge_weight := w; edge_state := st |}
  = true.
Proof.
  unfold edge_matches. simpl.
  rewrite (bool_decide_eq_true_2 (from = from)) by done.
  by rewrite (bool_decide_eq_true_2 (to = to)) by done.
Qed.

Lemma edge_matches_reverse from to e :
  edge_matches undirected to from e = edge_matches undirected from to e.
Proof.
  unfold edge_matches. rewrite (bool_decide_eq_true_2 (undirected = undirected)) by done.
  simpl. apply orb_comm.
Qed.

(** What [createEdge] leaves behind, whether it returns or throws: the
    graph type is kept and some edge matches the pair. *)
Lemma createEdge_leaves_match from to w s :
  graphType (outcome_store (createEdge from to w s)) = graphType s ∧
  is_Some (List.find (edge_matches (graphType s) (node_id from) (node_id to))
             (edges (outcome_store (createEdge from to w s)))).
Proof.
  unfold createEdge.
  destruct (List.find _ (edges s)) as [e|] eqn:Hfind.
  - simpl. split; [done|]. rewrite ?Hfind. by eexists.
  - assert (Hnew : is_Some (List.find
        (edge_matches (graphType s) (node_id from) (node_id to))
        (edges s ++ [{| edge_from := node_id from; edge_to := node_id to;
                        edge_weight := w; edge_state := est_default |}]))).
    { rewrite (find_app_None _ _ _ Hfind), edge_matches_new. by eexists. }
    cbn [adjacencyList with_edges].
    destruct (adjacency_push _ _ _) as [adj1|]; [|by split].
    destruct (decide _); [|by split].
    destruct (adjacency_push _ _ adj1); by split.
Qed.

(** Duplicate edges are rejected.  After a call of [createEdge] for a pair of
    nodes, a second call for the same pair, or in undirected mode for the
    reversed pair, adds nothing: it only clears the selection. *)
Theorem createEdge_rejects_duplicate :
  ∀ (s : Store) (from to a b : Node) (w w' : Z),
    (node_id a = node_id from ∧ node_id b = node_id to) ∨
    (graphType s = undirected ∧
     node_id a = node_id to ∧ node_id b = node_id from) →
    let s1 := outcome_store (createEdge from to w s) in
    createEdge a b w' s1 = Returned (with_selectedNode s1 None).
Proof.
  intros s from to a b w w' Hpair s1. subst s1.
  destruct (createEdge_leaves_match from to w s) as [Hgt [e He]].
  unfold createEdge at 1. rewrite Hgt.
  destruct Hpair as [[-> ->]|(Hund & -> & ->)].
  - by rewrite He.
  - rewrite Hund in *.
    rewrite (find_pointwise _ _ _ (edge_matches_reverse (node_id from) (node_id to))).
    by rewrite He.
Qed.

Lemma createEdge_rejects_duplicate_witness :
  let s1 :=
    outcome_store (createEdge (node_at 0) (node_at 1) 1 sample_store) in
  createEdge (node_at 1) (node_at 0) 7 s1 = Returned (with_selectedNode s1 None).
Proof.
  apply (createEdge_rejects_duplicate sample_store (node_at 0) (node_at 1)
           (node_at 1) (node_at 0) 1 7).
  right. split; [vm_compute; reflexivity|]. split; reflexivity.
Defined.

Lemma adjacency_push_lookup k e (adj : Adjacency) :
  is_Some (adj !! k) →
  ∃ adj', adjacency_push k e adj = Some adj' ∧
    ∀ k', adj' !! k' =
          (λ l, if decide (k' = k) then l ++ [e] else l) <$> adj !! k'.
Proof.
  intros [l Hl]. unfold adjacency_push. rewrite Hl.
  eexists. split; [done|]. intros k'.
  destruct (decide (k' = k)) as [->|Hne].
  - by rewrite lookup_insert_eq, Hl.
  - rewrite lookup_insert_ne by done. by destruct (adj !! k').
Qed.

(** In every store that the program can be in, [createEdge] for two present
    nodes with no matching edge returns (it does not throw) and appends the
    edge.  In the adjacency map the keys stay as they are; the list of
    [from] gets the entry for [to] at its end, in undirected mode the list
    of [to] gets the entry for [from] at its end, and every other list is
    left as it is.  [selectedNode] is cleared, and every other variable of
    the page (the nodes, the start node, the counter of node ids, the
    playback state, the modes and the order list) keeps its value. *)
Theorem createEdge_adds_edge_and_entries :
  ∀ (s : Store) (from to : Node) (w : Z),
    store_reachable s →
    node_id from ∈ node_ids s → node_id to ∈ node_ids s →
    List.find (edge_matches (graphType s) (node_id from) (node_id to)) (edges s)
      = None →
    ∃ s',
      createEdge from to w s = Returned s' ∧
      nodes s' = nodes s ∧ selectedNode s' = None ∧
      edges s' =
        edges s ++ [{| edge_from := node_id from; edge_to := node_id to;
                       edge_weight := w; edge_state := est_default |}] ∧
      (∀ k, adjacencyList s' !! k =
              (λ l, l ++
                 (if decide (k = node_id from) then [(node_id to, w)] else []) ++
                 (if decide (graphType s = undirected ∧ k = node_id to)
                  then [(node_id from, w)] else []))
              <$> adjacencyList s !! k) ∧
      startNode s' = startNode s ∧ nodeIdCounter s' = nodeIdCounter s ∧
      isRunning s' = isRunning s ∧ isPaused s' = isPaused s ∧
      animationQueue s' = animationQueue s ∧ currentStep s' = currentStep s ∧
      graphType s' = graphType s ∧ algorithm s' = algorithm s ∧
      orderList s' = orderList s.
Proof.
  intros s from to w Hreach Hfrom Hto Hfind.
  pose proof (store_reachable_wf s Hreach) as Hwf.
  unfold createEdge. rewrite Hfind. cbn [adjacencyList with_edges].
  destruct (adjacency_push_lookup (node_id from) (node_id to, w)
              (adjacencyList s)) as (adj1 & -> & Hnb1).
  { by apply (wf_adjacency_keys _ Hwf). }
  destruct (decide (graphType s = undirected)) as [Hund|Hdir].
  - destruct (adjacency_push_lookup (node_id to) (node_id from, w) adj1)
      as (adj2 & -> & Hnb2).
    { rewrite Hnb1, fmap_is_Some. by apply (wf_adjacency_keys _ Hwf). }
    eexists. split; [done|]. do 3 (split; [done|]).
    split; [|by repeat split].
    intros k. simpl. rewrite Hnb2, Hnb1, <- option_fmap_compose.
    apply option_fmap_ext. intros l. simpl.
    destruct (decide (k = node_id to)) as [->|Hne].
    + rewrite (decide_True (P := _ ∧ _)) by tauto.
      destruct (decide (node_id to = node_id from)) as [Heq|Hne].
      * rewrite Heq. by rewrite <- app_assoc.
      * by simpl.
    + rewrite (decide_False (P := _ ∧ _)) by tauto.
      destruct (decide (k = node_id from)) as [->|?]; by rewrite ?app_nil_r.
  - eexists. split; [done|]. do 3 (split; [done|]).
    split; [|by repeat split].
    intros k. simpl. rewrite Hnb1.
    apply option_fmap_ext. intros l. simpl.
    rewrite (decide_False (P := _ ∧ _)) by tauto.
    destruct (decide (k = node_id from)) as [->|?]; by rewrite ?app_nil_r.
Qed.

Lemma createEdge_adds_edge_and_entries_witness :
  ∃ s',
    createEdge (node_at 2) (node_at 0) 9 abc_store = Returned s' ∧
    nodes s' = nodes abc_store ∧ selectedNode s' = None ∧
    edges s' =
      edges abc_store ++ [{| edge_from := 2; edge_to := 0;
                             edge_weight := 9; edge_state := est_default |}] ∧
    (∀ k, adjacencyList s' !! k =
            (λ l, l ++
               (if decide (k = 2) then [(0, 9%Z)] else []) ++
               (if decide (graphType abc_store = undirected ∧ k = 0)
                then [(2, 9%Z)] else []))
            <$> adjacencyList abc_store !! k) ∧
    startNode s' = startNode abc_store ∧
    nodeIdCounter s' = nodeIdCounter abc_store ∧
    isRunning s' = isRunning abc_store ∧ isPaused s' = isPaused abc_store ∧
    animationQueue s' = animationQueue abc_store ∧
    currentStep s' = currentStep abc_store ∧
    graphType s' = graphType abc_store ∧ algorithm s' = algorithm abc_store ∧
    orderList s' = orderList abc_store.
Proof.
  apply (createEdge_adds_edge_and_entries abc_store (node_at 2) (node_at 0) 9).
  - exists abc_actions. vm_compute. reflexivity.
  - vm_compute. apply list_elem_of_In. simpl. tauto.
  - vm_compute. apply list_elem_of_In. simpl. tauto.
  - vm_compute. reflexivity.
Defined.

(** ** No two edges between the same ordered pair *)

Lemma find_edge_None_pair gt from to (es : list Edge) :
  List.find (edge_matches gt from to) es = None →
  (from, to) ∉ (λ e, (edge_from e, edge_to e)) <$> es.
Proof.
  intros Hfind (e & [= -> ->] & He)%list_elem_of_fmap.
  apply list_elem_of_In in He.
  pose proof (find_none _ _ Hfind e He) as Hm.
  unfold edge_matches in Hm.
  rewrite (bool_decide_eq_true_2 (edge_from e = edge_from e)) in Hm by done.
  by rewrite (bool_decide_eq_true_2 (edge_to e = edge_to e)) in Hm by done.
Qed.

Lemma createEdge_edges from to w s :
  edges (outcome_store (createEdge from to w s)) = edges s ∨
  (List.find (edge_matches (graphType s) (node_id from) (node_id to)) (edges s)
     = None ∧
   edges (outcome_store (createEdge from to w s)) =
     edges s ++ [{| edge_from := node_id from; edge_to := node_id to;
                    edge_weight := w; edge_state := est_default |}]).
Proof.
  unfold createEdge. destruct (List.find _ (edges s)) as [e|]; [by left|].
  right. split; [done|]. cbn [adjacencyList with_edges].
  destruct (adjacency_push _ _ _) as [adj1|]; [|done].
  destruct (decide _); [|done].
  by destruct (adjacency_push _ _ adj1).
Qed.

Lemma createEdge_pairs_nodup from to w s :
  NoDup (edge_pairs s) →
  NoDup (edge_pairs (outcome_store (createEdge from to w s))).
Proof.
  intros Hnd. unfold edge_pairs.
  destruct (createEdge_edges from to w s) as [->|[Hfind ->]]; [done|].
  rewrite fmap_app. apply NoDup_app. split; [exact Hnd|].
  split; [|apply NoDup_singleton].
  intros p Hp ->%list_elem_of_singleton. simpl in Hp.
  by apply (find_edge_None_pair _ _ _ _ Hfind).
Qed.

Lemma edge_pairs_keys s :
  edge_pairs s = (λ k : nat * nat * Z, (k.1.1, k.1.2)) <$> edge_keys s.
Proof. unfold edge_pairs, edge_keys. by rewrite <- list_fmap_compose. Qed.

Lemma same_graph_pairs s s' :
  same_graph s s' → NoDup (edge_pairs s) → NoDup (edge_pairs s').
Proof. intros (_ & He & _). by rewrite !edge_pairs_keys, He. Qed.

Lemma addNodes_edges (ps : list (Z * Z)) s :
  edges (foldl (λ st pos, addNode pos.1 pos.2 st) s ps) = edges s.
Proof.
  revert s. induction ps as [|p ps IH]; intros s; [done|].
  simpl. by rewrite IH.
Qed.

Lemma create_sample_edges_pairs es s :
  NoDup (edge_pairs s) →
  NoDup (edge_pairs (outcome_store (create_sample_edges es s))).
Proof.
  revert s. induction es as [|[[f t] w] es IH]; intros s Hnd; [done|]. simpl.
  destruct (nodes s !! f) as [nf|]; [|done].
  destruct (nodes s !! t) as [nt|]; [|done].
  pose proof (createEdge_pairs_nodup nf nt w s Hnd) as Hnd'.
  destruct (createEdge nf nt w s) as [s'|s']; simpl in *; [|done].
  by apply IH.
Qed.

Lemma perform_pairs_nodup a s s' :
  NoDup (edge_pairs s) → perform a s = Some s' → NoDup (edge_pairs s').
Proof.
  intros Hnd. destruct a; simpl.
  - by intros [= <-].
  - destruct (decide _); [|done]. intros [= <-]. by apply createEdge_pairs_nodup.
  - destruct (decide _); [|done]. by intros [= <-].
  - destruct (decide _); [|done]. intros [= <-]. unfold edge_pairs. simpl.
    eapply sublist_NoDup; [exact Hnd|].
    apply fmap_sublist, sublist_filter.
  - by intros [= <-].
  - by intros [= <-].
  - by intros [= <-].
  - destruct (startTraversal s) as [[s1 msg]|] eqn:Hst; [|done].
    intros [= <-]. eapply same_graph_pairs; [|exact Hnd].
    by eapply startTraversal_same_graph.
  - intros [= <-]. eapply same_graph_pairs; [|exact Hnd].
    apply runAnimation_tick_same_graph.
  - by intros [= <-].
  - intros Hst. eapply same_graph_pairs; [|exact Hnd].
    by eapply stepTraversal_same_graph.
  - intros [= <-]. eapply same_graph_pairs; [|exact Hnd].
    apply resetTraversal_same_graph.
  - intros [= <-]. constructor.
  - intros [= <-]. unfold loadSampleGraph.
    assert (Hs : NoDup (edge_pairs (outcome_store (create_sample_edges sampleEdges
      (foldl (λ st pos, addNode pos.1 pos.2 st) (clearGraph s) sampleNodes))))).
    { apply create_sample_edges_pairs. unfold edge_pairs.
      rewrite addNodes_edges. constructor. }
    destruct (create_sample_edges _ _) as [s3|s3]; [|exact Hs].
    by destruct (nodes s3 !! 0).
Qed.

(** In every store that the program can be in, no two edges have the same
    source and the same target: [createEdge] is the only writer of [edges]
    and it rejects a pair that an edge already has. *)
Theorem no_parallel_edges :
  ∀ s : Store, store_reachable s → NoDup (edge_pairs s).
Proof.
  intros s [acts Hrun].
  assert (Hgen : ∀ s0, NoDup (edge_pairs s0) → run_actions acts s0 = Some s →
                       NoDup (edge_pairs s)).
  { clear Hrun. induction acts as [|a acts IH]; intros s0 Hnd; simpl.
    - by intros [= <-].
    - destruct (perform a s0) as [s1|] eqn:Hp; [|done].
      apply IH. by eapply perform_pairs_nodup. }
  eapply Hgen; [|exact Hrun]. constructor.
Qed.

Lemma no_parallel_edges_witness : NoDup (edge_pairs sample_store).
Proof.
  apply (no_parallel_edges sample_store).
  exists [ActLoadSampleGraph]. vm_compute. reflexivity.
Defined.

(** ** Deleting nodes *)

Lemma filter_all {A} (P : A → Prop) `{∀ x, Decision (P x)} (l : list A) :
  (∀ x, x ∈ l → P x) → filter P l = l.
Proof.
  induction l as [|a l IH]; intros Hall; [done|].
  rewrite filter_cons, decide_True by (apply Hall; by apply elem_of_cons; left).
  rewrite IH; [done|]. intros x Hx. apply Hall. by apply elem_of_cons; right.
Qed.

Lemma store_eta s :
  {| nodes := nodes s; edges := edges s; adjacencyList := adjacencyList s;
     startNode := startNode s; selectedNode := selectedNode s;
     isRunning := isRunning s; isPaused := isPaused s;
     animationQueue := animationQueue s; currentStep := currentStep s;
     nodeIdCounter := nodeIdCounter s; graphType := graphType s;
     algorithm := algorithm s; orderList := orderList s |} = s.
Proof. by destruct s. Qed.

Lemma scrub_absent (adj : Adjacency) (ids : list nat) (id : nat) :
  (∀ k x w, (x, w) ∈ neighbors adj k → x ∈ ids) → id ∉ ids →
  filter (λ n : AdjEntry, n.1 ≠ id) <$> adj = adj.
Proof.
  intros Hclosed Hid. apply map_eq. intros k. rewrite lookup_fmap.
  destruct (adj !! k) as [l|] eqn:Hl; [|done]. simpl. f_equal.
  apply filter_all. intros [x w] Hx. simpl. intros ->.
  apply Hid, (Hclosed k _ w). unfold neighbors. by rewrite Hl.
Qed.

(** In every store that the program can be in, deleting a node whose id is
    not present changes nothing. *)
Theorem deleteNode_absent_is_identity :
  ∀ (s : Store) (node : Node),
    store_reachable s → node_id node ∉ node_ids s → deleteNode node s = s.
Proof.
  intros s node Hreach Hid.
  pose proof (store_reachable_wf s Hreach) as Hwf.
  pose proof (edges_closed_of_wf s Hwf) as Hedges.
  rewrite <- (store_eta s) at 2. unfold deleteNode. f_equal.
  - apply filter_all. intros n Hn Heq. apply Hid.
    apply list_elem_of_fmap. by exists n.
  - apply filter_all. intros e He. destruct (Hedges e He) as [Hf Ht].
    split; intros Heq; apply Hid; by rewrite <- Heq.
  - rewrite delete_id.
    + eapply scrub_absent; [|exact Hid]. apply (wf_adjacency_closed _ Hwf).
    + apply eq_None_not_Some. intros Hk. by apply Hid, (wf_adjacency_keys _ Hwf).
  - destruct (decide _) as [Hst|]; [|done].
    exfalso. by apply Hid, (wf_start _ Hwf).
Qed.

Lemma deleteNode_absent_is_identity_witness :
  deleteNode (node_at 7) abc_store = abc_store.
Proof.
  apply (deleteNode_absent_is_identity abc_store (node_at 7)).
  - exists abc_actions. vm_compute. reflexivity.
  - vm_compute. intros Hin. apply list_elem_of_In in Hin. simpl in Hin.
    destruct Hin as [H|[H|[H|[]]]]; discriminate H.
Defined.

Lemma scrub_lookup (adj : Adjacency) (id k : nat) :
  (filter (λ n : AdjEntry, n.1 ≠ id) <$> delete id adj) !! k =
  if decide (k = id) then None
  else filter (λ n : AdjEntry, n.1 ≠ id) <$> adj !! k.
Proof.
  rewrite lookup_fmap. destruct (decide (k = id)) as [->|Hne].
  - by rewrite lookup_delete_eq.
  - by rewrite lookup_delete_ne.
Qed.

(** Deletions commute: deleting two nodes in either order gives the same
    store. *)
Theorem deleteNode_commutes :
  ∀ (s : Store) (a b : Node),
    deleteNode a (deleteNode b s) = deleteNode b (deleteNode a s).
Proof.
  intros s a b. unfold deleteNode. cbn [nodes edges adjacencyList startNode
    selectedNode isRunning isPaused animationQueue currentStep nodeIdCounter
    graphType algorithm orderList].
  f_equal.
  - rewrite !list_filter_filter. apply list_filter_iff. tauto.
  - rewrite !list_filter_filter. apply list_filter_iff. tauto.
  - apply map_eq. intros k. rewrite !scrub_lookup.
    destruct (decide (k = node_id a)); destruct (decide (k = node_id b));
      try done.
    destruct (adjacencyList s !! k) as [l|]; [|done]. simpl. f_equal.
    rewrite !list_filter_filter. apply list_filter_iff. tauto.
  - destruct (startNode s) as [i|]; repeat case_decide; congruence.
Qed.

(** In every store that the program can be in, adding a node and deleting
    it again gives back the nodes, the edges, the adjacency map and the
    start designation; only the id counter has moved, so the id is not
    given again. *)
Theorem addNode_then_deleteNode :
  ∀ (s : Store) (x y : Z) (node : Node),
    store_reachable s → node_id node = nodeIdCounter s →
    let s' := deleteNode node (addNode x y s) in
    nodes s' = nodes s ∧ edges s' = edges s ∧
    adjacencyList s' = adjacencyList s ∧ startNode s' = startNode s ∧
    nodeIdCounter s' = S (nodeIdCounter s).
Proof.
  intros s x y node Hreach Hid s'. subst s'.
  pose proof (store_reachable_wf s Hreach) as Hwf.
  pose proof (edges_closed_of_wf s Hwf) as Hedges.
  assert (Hfresh : nodeIdCounter s ∉ node_ids s).
  { intros Hin. apply (wf_ids_below _ Hwf) in Hin. lia. }
  unfold deleteNode. rewrite Hid. cbn [nodes edges adjacencyList startNode
    nodeIdCounter addNode node_id].
  split; [|split; [|split; [|split; [|done]]]].
  - rewrite filter_app, filter_cons, decide_False by (simpl; tauto).
    rewrite filter_nil, app_nil_r. apply filter_all. intros n Hn Heq.
    apply Hfresh. apply list_elem_of_fmap. by exists n.
  - apply filter_all. intros e He. destruct (Hedges e He) as [Hf Ht].
    split; intros Heq; apply Hfresh; by rewrite <- Heq.
  - rewrite delete_insert_eq, delete_id.
    + eapply scrub_absent; [|exact Hfresh]. apply (wf_adjacency_closed _ Hwf).
    + apply eq_None_not_Some. intros Hk.
      by apply Hfresh, (wf_adjacency_keys _ Hwf).
  - destruct (decide _) as [Hst|]; [|done].
    exfalso. by apply Hfresh, (wf_start _ Hwf).
Qed.

Lemma addNode_then_deleteNode_witness :
  let s' := deleteNode (node_at 3) (addNode 10 20 abc_store) in
  nodes s' = nodes abc_store ∧ edges s' = edges abc_store ∧
  adjacencyList s' = adjacencyList abc_store ∧
  startNode s' = startNode abc_store ∧
  nodeIdCounter s' = S (nodeIdCounter abc_store).
Proof.
  apply (addNode_then_deleteNode abc_store 10 20 (node_at 3)).
  - exists abc_actions. vm_compute. reflexivity.
  - vm_compute. reflexivity.
Defined.

(** ** Reset and replay *)

Lemma reset_node_demote n : reset_node (demote_current n) = reset_node n.
Proof. unfold demote_current. by destruct (decide _). Qed.

Lemma reset_node_assign d n : reset_node (assign_distance d n) = reset_node n.
Proof. by destruct d. Qed.

Lemma resetTraversal_executeStep step s :
  resetTraversal (executeStep step s) = resetTraversal s.
Proof.
  assert (Hdem : reset_node <$> (demote_current <$> nodes s) =
                 reset_node <$> nodes s).
  { rewrite <- list_fmap_compose. apply list_fmap_ext. intros i n _.
    apply reset_node_demote. }
  assert (Hedge : ∀ e st, reset_edge <$> mark_edge (graphType s) e st (edges s) =
                          reset_edge <$> edges s).
  { intros [[from to]|] st; [|done]. by apply update_first_fmap. }
  destruct step as [i e d|i e d|i d]; unfold resetTraversal; simpl; f_equal;
    rewrite ?Hedge; try done.
  - rewrite update_first_fmap; [exact Hdem|]. intros n.
    by rewrite reset_node_assign.
  - rewrite update_first_fmap; [exact Hdem|]. intros n.
    destruct (decide _); [|done]. by rewrite reset_node_assign.
  - rewrite update_first_fmap; [exact Hdem|]. done.
Qed.

Lemma resetTraversal_with_run s r p q c :
  resetTraversal (with_run s r p q c) = resetTraversal s.
Proof. done. Qed.

Lemma resetTraversal_tick s :
  resetTraversal (runAnimation_tick s) = resetTraversal s.
Proof.
  unfold runAnimation_tick. destruct (_ && _).
  - destruct (isPaused s); [done|]. destruct (_ !! _); [|done].
    by rewrite resetTraversal_with_run, resetTraversal_executeStep.
  - by destruct (bool_decide _).
Qed.

Lemma resetTraversal_play evs s :
  resetTraversal (play evs s) = resetTraversal s.
Proof.
  revert s. induction evs as [|ev evs IH]; intros s; [done|].
  unfold play in *. simpl. by rewrite IH, resetTraversal_executeStep.
Qed.

(** A reset forgets the playback: resetting after any events have been
    applied, or after any number of turns of the animation loop, gives the
    same store as resetting before them.  So replaying a sequence after a
    reset ends in the same store as the first time. *)
Theorem reset_forgets_playback :
  ∀ (s : Store) (evs : list Step) (n : nat),
    resetTraversal (play evs s) = resetTraversal s ∧
    resetTraversal (tick_n n s) = resetTraversal s ∧
    resetTraversal (resetTraversal s) = resetTraversal s ∧
    play evs (resetTraversal (play evs (resetTraversal s))) =
      play evs (resetTraversal s).
Proof.
  intros s evs n.
  assert (Hidem : resetTraversal (resetTraversal s) = resetTraversal s).
  { unfold resetTraversal. simpl. f_equal.
    - rewrite <- list_fmap_compose. by apply list_fmap_ext.
    - rewrite <- list_fmap_compose. by apply list_fmap_ext. }
  split; [apply resetTraversal_play|]. split; [|split; [exact Hidem|]].
  - revert s Hidem. induction n as [|n IH]; intros s _; [done|].
    simpl. rewrite IH; [apply resetTraversal_tick|].
    unfold resetTraversal. simpl. f_equal;
      rewrite <- list_fmap_compose; by apply list_fmap_ext.
  - by rewrite resetTraversal_play, Hidem.
Qed.

(** ** The cursor *)

Lemma runAnimation_tick_cursor s :
  currentStep s ≤ length (animationQueue s) →
  currentStep (runAnimation_tick s) ≤ length (animationQueue (runAnimation_tick s)).
Proof.
  intros Hc. unfold runAnimation_tick.
  destruct (bool_decide (currentStep s < _)) eqn:Hlt; simpl.
  - apply bool_decide_eq_true in Hlt.
    destruct (isRunning s); simpl.
    + destruct (isPaused s); [done|].
      destruct (_ !! _) as [step|]; [|done].
      simpl. rewrite executeStep_queue. destruct step; simpl; lia.
    + destruct (bool_decide (length (animationQueue s) ≤ currentStep s));
        simpl; lia.
  - destruct (bool_decide (length (animationQueue s) ≤ currentStep s));
      simpl; lia.
Qed.

Lemma perform_cursor a s s' :
  currentStep s ≤ length (animationQueue s) → perform a s = Some s' →
  currentStep s' ≤ length (animationQueue s').
Proof.
  intros Hc. destruct a; simpl.
  - by intros [= <-].
  - destruct (decide _); [|done]. intros [= <-].
    rewrite createEdge_queue.
    unfold createEdge. destruct (List.find _ _); [done|].
    cbn [adjacencyList with_edges].
    destruct (adjacency_push _ _ _) as [adj1|]; [|done].
    destruct (decide _); [|done]. by destruct (adjacency_push _ _ adj1).
  - destruct (decide _); [|done]. by intros [= <-].
  - destruct (decide _); [|done]. by intros [= <-].
  - by intros [= <-].
  - by intros [= <-].
  - by intros [= <-].
  - unfold startTraversal. destruct (startNode s) as [start|]; [|by intros [= <-]].
    destruct (isRunning s); [by intros [= <-]|].
    destruct (generator _ _) as [steps|]; [|done].
    intros [= <-]. apply runAnimation_tick_cursor. simpl. lia.
  - intros [= <-]. by apply runAnimation_tick_cursor.
  - by intros [= <-].
  - unfold stepTraversal.
    assert (Hexec : ∀ s2, currentStep s2 ≤ length (animationQueue s2) →
      match animationQueue s2 !! currentStep s2 with
      | Some step =>
          Some (with_run (executeStep step s2) (isRunning (executeStep step s2))
                  (isPaused (executeStep step s2))
                  (animationQueue (executeStep step s2))
                  (S (currentStep (executeStep step s2))))
      | None => Some s2
      end = Some s' → currentStep s' ≤ length (animationQueue s')).
    { intros s2 H2. destruct (_ !! _) as [step|] eqn:Hl.
      - intros [= <-]. simpl. rewrite executeStep_queue.
        apply lookup_lt_Some in Hl. destruct step; simpl; lia.
      - by intros [= <-]. }
    destruct (animationQueue s) as [|st q] eqn:Hqs.
    + destruct (startNode s) as [start|].
      * destruct (generator (resetTraversal s) start) as [steps|]; [|done].
        apply Hexec. simpl. lia.
      * apply Hexec. by rewrite Hqs.
    + apply Hexec. by rewrite Hqs.
  - intros [= <-]. simpl. lia.
  - intros [= <-]. simpl. lia.
  - intros [= <-]. rewrite loadSampleGraph_queue.
    unfold loadSampleGraph.
    assert (Hc0 : ∀ es st, currentStep (outcome_store (create_sample_edges es st))
                           = currentStep st).
    { induction es as [|[[f t] w] es IH]; intros st; [done|]. simpl.
      destruct (nodes st !! f) as [nf|]; [|done].
      destruct (nodes st !! t) as [nt|]; [|done].
      assert (Hce : currentStep (outcome_store (createEdge nf nt w st))
                    = currentStep st).
      { unfold createEdge. destruct (List.find _ _); [done|].
        cbn [adjacencyList with_edges].
        destruct (adjacency_push _ _ _) as [adj1|]; [|done].
        destruct (decide _); [|done]. by destruct (adjacency_push _ _ adj1). }
      destruct (createEdge nf nt w st) as [st'|st']; simpl in *; [|done].
      by rewrite IH. }
    assert (Ha0 : ∀ ps st, currentStep (foldl (λ st pos, addNode pos.1 pos.2 st)
                             st ps) = currentStep st).
    { induction ps as [|p ps IH]; intros st; [done|]. simpl. by rewrite IH. }
    specialize (Hc0 sampleEdges
      (foldl (λ st pos, addNode pos.1 pos.2 st) (clearGraph s) sampleNodes)).
    rewrite Ha0 in Hc0.
    destruct (create_sample_edges _ _) as [s3|s3]; simpl in *.
    + destruct (nodes s3 !! 0); simpl; lia.
    + lia.
Qed.

(** In every store that the program can be in, the cursor is at most the
    length of the materialized sequence. *)
Theorem cursor_within_sequence :
  ∀ s : Store, store_reachable s → currentStep s ≤ length (animationQueue s).
Proof.
  intros s [acts Hrun].
  assert (Hgen : ∀ s0, currentStep s0 ≤ length (animationQueue s0) →
                       run_actions acts s0 = Some s →
                       currentStep s ≤ length (animationQueue s)).
  { clear Hrun. induction acts as [|a acts IH]; intros s0 Hc; simpl.
    - by intros [= <-].
    - destruct (perform a s0) as [s1|] eqn:Hp; [|done].
      apply IH. by eapply perform_cursor. }
  eapply Hgen; [|exact Hrun]. simpl. lia.
Qed.

Lemma cursor_within_sequence_witness :
  currentStep abc_interrupted ≤ length (animationQueue abc_interrupted).
Proof.
  apply (cursor_within_sequence abc_interrupted).
  exists abc_interrupted_actions. vm_compute. reflexivity.
Defined.

(** ** Stepping, ticking and pausing *)

Lemma advanced_fields step s :
  isRunning (advanced step s) = isRunning s ∧
  isPaused (advanced step s) = isPaused s ∧
  animationQueue (advanced step s) = animationQueue s ∧
  currentStep (advanced step s) = S (currentStep s).
Proof. done. Qed.

(** On a running store that is not paused, [n] calls of [stepTraversal] and
    [n] turns of the animation loop give the same store, as long as [n]
    events are left. *)
Theorem steps_equal_ticks :
  ∀ (n : nat) (s : Store),
    isRunning s = true → isPaused s = false →
    currentStep s + n ≤ length (animationQueue s) →
    step_n n s = Some (tick_n n s).
Proof.
  induction n as [|n IH]; intros s Hrun Hpause Hlen; [done|].
  destruct (animationQueue s !! currentStep s) as [step|] eqn:Hstep.
  2:{ apply lookup_ge_None in Hstep. lia. }
  destruct (playback_applies_step step s Hstep) as [Hst Htick].
  simpl. rewrite Hst, Htick, Hrun, Hpause. simpl.
  destruct (advanced_fields step s) as (H1 & H2 & H3 & H4).
  apply IH; rewrite ?H1, ?H2, ?H3, ?H4; [done|done|lia].
Qed.

Lemma steps_equal_ticks_witness :
  step_n 3 (tick_n 2 abc_interrupted) = Some (tick_n 3 (tick_n 2 abc_interrupted)).
Proof.
  apply (steps_equal_ticks 3 (tick_n 2 abc_interrupted)).
  - vm_compute. reflexivity.
  - vm_compute. reflexivity.
  - vm_compute. lia.
Defined.

Lemma togglePause_twice s : togglePause (togglePause s) = s.
Proof.
  unfold togglePause, with_run. simpl. rewrite negb_involutive. apply store_eta.
Qed.

(** While the run is paused and events are left, the turns of the animation
    loop change nothing, and resuming gives back the store as it was before
    the pause. *)
Theorem pause_freezes_playback :
  ∀ (n : nat) (s : Store),
    isPaused s = false →
    currentStep s < length (animationQueue s) →
    tick_n n (togglePause s) = togglePause s ∧
    togglePause (tick_n n (togglePause s)) = s.
Proof.
  intros n s Hpause Hlt.
  assert (Htick : runAnimation_tick (togglePause s) = togglePause s).
  { unfold runAnimation_tick. cbn [togglePause with_run currentStep
      animationQueue isRunning isPaused].
    rewrite (bool_decide_eq_true_2 _ Hlt), Hpause. simpl.
    destruct (isRunning s); [done|].
    rewrite bool_decide_eq_false_2; [done|lia]. }
  assert (Hn : tick_n n (togglePause s) = togglePause s).
  { induction n as [|n IH]; [done|]. simpl. by rewrite Htick. }
  split; [exact Hn|]. rewrite Hn. apply togglePause_twice.
Qed.

Lemma pause_freezes_playback_witness :
  tick_n 5 (togglePause abc_interrupted) = togglePause abc_interrupted ∧
  togglePause (tick_n 5 (togglePause abc_interrupted)) = abc_interrupted.
Proof.
  apply (pause_freezes_playback 5 abc_interrupted).
  - vm_compute. reflexivity.
  - vm_compute. lia.
Defined.

Lemma tick_n_advances n s :
  isRunning s = true → isPaused s = false →
  currentStep s + n ≤ length (animationQueue s) →
  isRunning (tick_n n s) = true ∧ isPaused (tick_n n s) = false ∧
  animationQueue (tick_n n s) = animationQueue s ∧
  currentStep (tick_n n s) = currentStep s + n.
Proof.
  revert s. induction n as [|n IH]; intros s Hrun Hpause Hlen.
  - simpl. repeat split; try done; lia.
  - destruct (animationQueue s !! currentStep s) as [step|] eqn:Hstep.
    2:{ apply lookup_ge_None in Hstep. lia. }
    destruct (playback_applies_step step s Hstep) as [_ Htick].
    simpl. rewrite Htick, Hrun, Hpause. simpl.
    destruct (advanced_fields step s) as (H1 & H2 & H3 & H4).
    destruct (IH (advanced step s)) as (G1 & G2 & G3 & G4);
      rewrite ?H1, ?H2, ?H3, ?H4; [done|done|lia|].
    rewrite G1, G2, G3, G4, H3, H4. repeat split; try done; lia.
Qed.

(** A running store that is not paused reaches the end of its sequence: after
    as many turns of the animation loop as events are left, and one more,
    the cursor is at the end, the run is no longer running, and further
    turns change nothing. *)
Theorem playback_finishes :
  ∀ s : Store,
    isRunning s = true → isPaused s = false →
    currentStep s ≤ length (animationQueue s) →
    let s' := tick_n (S (length (animationQueue s) - currentStep s)) s in
    currentStep s' = length (animationQueue s) ∧
    animationQueue s' = animationQueue s ∧
    isRunning s' = false ∧
    runAnimation_tick s' = s'.
Proof.
  intros s Hrun Hpause Hlen s'. subst s'.
  set (k := length (animationQueue s) - currentStep s).
  destruct (tick_n_advances k s Hrun Hpause) as (G1 & G2 & G3 & G4);
    [unfold k; lia|].
  assert (Hk : ∀ m t, tick_n (S m) t = runAnimation_tick (tick_n m t)).
  { induction m as [|m IH]; intros t; [done|].
    change (tick_n (S (S m)) t) with (tick_n (S m) (runAnimation_tick t)).
    rewrite IH. done. }
  rewrite Hk. set (t := tick_n k s) in *.
  assert (Hend : currentStep t = length (animationQueue t)).
  { rewrite G4, G3. unfold k. lia. }
  assert (Htick : runAnimation_tick t =
                  with_run t false (isPaused t) (animationQueue t) (currentStep t)).
  { unfold runAnimation_tick.
    rewrite bool_decide_eq_false_2 by lia. simpl.
    rewrite bool_decide_eq_true_2 by lia. done. }
  rewrite Htick. cbn [with_run currentStep animationQueue isRunning].
  split; [by rewrite Hend, G3|]. split; [exact G3|]. split; [done|].
  unfold runAnimation_tick. cbn [with_run currentStep animationQueue isRunning
    isPaused].
  rewrite bool_decide_eq_false_2 by lia. simpl.
  rewrite bool_decide_eq_true_2 by lia. done.
Qed.

Lemma playback_finishes_witness :
  let s' := tick_n (S (length (animationQueue abc_interrupted)
                       - currentStep abc_interrupted)) abc_interrupted in
  currentStep s' = length (animationQueue abc_interrupted) ∧
  animationQueue s' = animationQueue abc_interrupted ∧
  isRunning s' = false ∧
  runAnimation_tick s' = s'.
Proof.
  apply (playback_finishes abc_interrupted).
  - vm_compute. reflexivity.
  - vm_compute. reflexivity.
  - vm_compute. lia.
Defined.

(** ** The traversal-order log *)

Lemma find_update_first_proj {A B} (g : A → B) (p q : A → bool) (f : A → A)
    (l : list A) :
  (∀ a, g (f a) = g a) → (∀ a, q (f a) = q a) →
  g <$> List.find q (update_first p f l) = g <$> List.find q l.
Proof.
  intros Hg Hq. induction l as [|a l IH]; [done|]. simpl.
  destruct (p a); simpl.
  - rewrite Hq. destruct (q a); simpl; [by rewrite Hg|done].
  - destruct (q a); [done|exact IH].
Qed.

Lemma label_of_demote i (ns : list Node) :
  node_label <$> List.find (has_id i) (demote_current <$> ns) =
  node_label <$> List.find (has_id i) ns.
Proof.
  rewrite find_demote. destruct (List.find _ _) as [n|]; [|done]. simpl.
  unfold demote_current. by destruct (decide _).
Qed.

Lemma label_of_executeStep step s i :
  label_of (executeStep step s) i = label_of s i.
Proof.
  unfold label_of.
  destruct step as [j e d|j e d|j d]; simpl;
    (rewrite find_update_first_proj; [apply label_of_demote| |]); intros n;
    try done.
  - by destruct d.
  - unfold has_id. by rewrite assign_distance_id.
  - destruct (decide _); [|done]. by destruct d.
  - destruct (decide _); [|done]. unfold has_id. by rewrite assign_distance_id.
Qed.

Lemma orderList_executeStep step s :
  orderList (executeStep step s) =
  orderList s ++ omap (label_of s) (visit_nodes [step]).
Proof.
  destruct step as [j e d|j e d|j d]; simpl; rewrite ?app_nil_r; try done.
  unfold label_of. rewrite <- label_of_demote.
  destruct (List.find _ _); simpl; [done|by rewrite app_nil_r].
Qed.

(** The traversal-order log records the visits and nothing else: playing a
    sequence of events appends, for each visit event in order, the label of
    the node that [nodes.find] gives for its id, and nothing for a visit of
    an id that is not present or for another event. *)
Theorem order_log_lists_visited_labels :
  ∀ (evs : list Step) (s : Store),
    orderList (play evs s) =
    orderList s ++ omap (label_of s) (visit_nodes evs).
Proof.
  induction evs as [|ev evs IH]; intros s.
  - by rewrite app_nil_r.
  - change (play (ev :: evs) s) with (play evs (executeStep ev s)).
    rewrite IH, orderList_executeStep.
    change (ev :: evs) with ([ev] ++ evs).
    rewrite visit_nodes_app, omap_app, app_assoc. f_equal.
    apply list_omap_ext, Forall_Forall2_diag, Forall_forall.
    intros i _. apply label_of_executeStep.
Qed.

(** ** At most one current node *)

Lemma no_current_after_demote (ns : list Node) :
  filter (λ n, node_state n = st_current) (demote_current <$> ns) = [].
Proof.
  induction ns as [|n ns IH]; [done|]. rewrite fmap_cons, filter_cons.
  rewrite decide_False; [exact IH|].
  unfold demote_current. destruct (decide _); simpl; congruence.
Qed.

Lemma update_first_current_count (p : Node → bool) (f : Node → Node)
    (ns : list Node) :
  filter (λ n, node_state n = st_current) ns = [] →
  length (filter (λ n, node_state n = st_current) (update_first p f ns)) ≤ 1.
Proof.
  induction ns as [|n ns IH]; [simpl; lia|].
  rewrite filter_cons. destruct (decide _); [done|]. intros Hnil. simpl.
  destruct (p n).
  - rewrite filter_cons, Hnil. destruct (decide _); simpl; lia.
  - rewrite filter_cons, decide_False by done. by apply IH.
Qed.

Lemma filter_filter_length {A} (P Q : A → Prop) `{!∀ x, Decision (P x)}
    `{!∀ x, Decision (Q x)} (l : list A) :
  length (filter P (filter Q l)) ≤ length (filter P l).
Proof.
  induction l as [|a l IH]; [done|].
  rewrite !(filter_cons _ a). destruct (decide (Q a)), (decide (P a));
    rewrite ?filter_cons; repeat case_decide; simpl; try tauto; lia.
Qed.

Lemma executeStep_current step s : length (current_nodes (executeStep step s)) ≤ 1.
Proof.
  unfold current_nodes.
  destruct step; simpl; apply update_first_current_count, no_current_after_demote.
Qed.

Lemma createEdge_nodes from to w s :
  nodes (outcome_store (createEdge from to w s)) = nodes s.
Proof.
  unfold createEdge. destruct (List.find _ _); [done|].
  cbn [adjacencyList with_edges].
  destruct (adjacency_push _ _ _) as [adj1|]; [|done].
  destruct (decide _); [|done]. by destruct (adjacency_push _ _ adj1).
Qed.

Lemma reset_no_current s : current_nodes (resetTraversal s) = [].
Proof.
  unfold current_nodes. simpl. induction (nodes s) as [|n ns IH]; [done|].
  rewrite fmap_cons, filter_cons. by rewrite decide_False.
Qed.

Lemma create_sample_edges_nodes es s :
  nodes (outcome_store (create_sample_edges es s)) = nodes s.
Proof.
  revert s. induction es as [|[[f t] w] es IH]; intros s; [done|]. simpl.
  destruct (nodes s !! f) as [nf|]; [|done].
  destruct (nodes s !! t) as [nt|]; [|done].
  pose proof (createEdge_nodes nf nt w s) as Hn.
  destruct (createEdge nf nt w s) as [s'|s']; simpl in *; [|done].
  by rewrite IH.
Qed.

Lemma addNodes_current (ps : list (Z * Z)) s :
  current_nodes (foldl (λ st pos, addNode pos.1 pos.2 st) s ps) = current_nodes s.
Proof.
  revert s. induction ps as [|p ps IH]; intros s; [done|].
  simpl. rewrite IH. unfold current_nodes. simpl.
  rewrite filter_app, filter_cons, decide_False by done.
  by rewrite filter_nil, app_nil_r.
Qed.

Lemma runAnimation_tick_current s :
  length (current_nodes s) ≤ 1 → length (current_nodes (runAnimation_tick s)) ≤ 1.
Proof.
  intros Hc. unfold runAnimation_tick.
  destruct (_ && _).
  - destruct (isPaused s); [done|]. destruct (_ !! _) as [step|]; [|done].
    apply (executeStep_current step s).
  - by destruct (bool_decide (length (animationQueue s) ≤ currentStep s)).
Qed.

Lemma perform_current a s s' :
  length (current_nodes s) ≤ 1 → perform a s = Some s' →
  length (current_nodes s') ≤ 1.
Proof.
  intros Hc. destruct a; simpl.
  - intros [= <-]. unfold current_nodes in *. simpl.
    rewrite filter_app, filter_cons, decide_False by done.
    by rewrite filter_nil, app_nil_r.
  - destruct (decide _); [|done]. intros [= <-].
    unfold current_nodes. by rewrite createEdge_nodes.
  - destruct (decide _); [|done]. by intros [= <-].
  - destruct (decide _); [|done]. intros [= <-]. unfold current_nodes in *.
    simpl. etrans; [apply filter_filter_length|done].
  - by intros [= <-].
  - by intros [= <-].
  - by intros [= <-].
  - unfold startTraversal. destruct (startNode s) as [start|]; [|by intros [= <-]].
    destruct (isRunning s); [by intros [= <-]|].
    destruct (generator _ _) as [steps|]; [|done].
    intros [= <-]. apply runAnimation_tick_current.
    change (length (current_nodes (resetTraversal s)) ≤ 1).
    rewrite reset_no_current. simpl. lia.
  - intros [= <-]. by apply runAnimation_tick_current.
  - by intros [= <-].
  - unfold stepTraversal.
    assert (Hexec : ∀ s2, length (current_nodes s2) ≤ 1 →
      match animationQueue s2 !! currentStep s2 with
      | Some step =>
          Some (with_run (executeStep step s2) (isRunning (executeStep step s2))
                  (isPaused (executeStep step s2))
                  (animationQueue (executeStep step s2))
                  (S (currentStep (executeStep step s2))))
      | None => Some s2
      end = Some s' → length (current_nodes s') ≤ 1).
    { intros s2 H2. destruct (_ !! _) as [step|].
      - intros [= <-]. apply (executeStep_current step s2).
      - by intros [= <-]. }
    destruct (animationQueue s) as [|st q] eqn:Hqs.
    + destruct (startNode s) as [start|].
      * destruct (generator (resetTraversal s) start) as [steps|]; [|done].
        apply Hexec.
        change (length (current_nodes (resetTraversal s)) ≤ 1).
        rewrite reset_no_current. simpl. lia.
      * by apply Hexec.
    + by apply Hexec.
  - intros [= <-]. rewrite reset_no_current. simpl. lia.
  - intros [= <-]. unfold clearGraph. rewrite reset_no_current. simpl. lia.
  - intros [= <-]. unfold loadSampleGraph.
    assert (Hs : current_nodes (outcome_store (create_sample_edges sampleEdges
      (foldl (λ st pos, addNode pos.1 pos.2 st) (clearGraph s) sampleNodes))) = []).
    { unfold current_nodes. rewrite create_sample_edges_nodes.
      fold (current_nodes (foldl (λ st pos, addNode pos.1 pos.2 st)
                             (clearGraph s) sampleNodes)).
      rewrite addNodes_current. unfold clearGraph. apply reset_no_current. }
    destruct (create_sample_edges _ _) as [s3|s3]; simpl in *.
    + destruct (nodes s3 !! 0); simpl;
        change (length (current_nodes s3) ≤ 1); rewrite Hs; simpl; lia.
    + rewrite Hs. simpl. lia.
Qed.

(** In every store that the program can be in, at most one node has the
    visual state current. *)
Theorem at_most_one_current_node :
  ∀ s : Store, store_reachable s → length (current_nodes s) ≤ 1.
Proof.
  intros s [acts Hrun].
  assert (Hgen : ∀ s0, length (current_nodes s0) ≤ 1 →
                       run_actions acts s0 = Some s →
                       length (current_nodes s) ≤ 1).
  { clear Hrun. induction acts as [|a acts IH]; intros s0 Hc; simpl.
    - by intros [= <-].
    - destruct (perform a s0) as [s1|] eqn:Hp; [|done].
      apply IH. by eapply perform_current. }
  eapply Hgen; [|exact Hrun]. simpl. lia.
Qed.

Lemma at_most_one_current_node_witness :
  length (current_nodes abc_interrupted) ≤ 1.
Proof.
  apply (at_most_one_current_node abc_interrupted).
  exists abc_interrupted_actions. vm_compute. reflexivity.
Defined.

(** ** What the events of a run say about each other *)

Lemma each_prefix_nil (P : list Step → Step → Prop) : each_prefix P [].
Proof. intros pre ev post H. by destruct pre. Qed.

Lemma each_prefix_cons (P : list Step → Step → Prop) (x : Step)
    (l : list Step) :
  P [] x → each_prefix (λ pre, P (x :: pre)) l → each_prefix P (x :: l).
Proof.
  intros Hx Hl pre ev post Heq. destruct pre as [|y pre]; simpl in Heq.
  - by injection Heq as <- _.
  - injection Heq as <- Heq. by eapply Hl.
Qed.

Lemma each_prefix_app (P : list Step → Step → Prop) (l1 l2 : list Step) :
  each_prefix P l1 → each_prefix (λ pre, P (l1 ++ pre)) l2 →
  each_prefix P (l1 ++ l2).
Proof.
  revert P. induction l1 as [|x l1 IH]; intros P H1 H2; [exact H2|].
  simpl. apply each_prefix_cons.
  - by apply (H1 [] x l1).
  - apply IH; [|exact H2].
    intros pre ev post ->. by apply (H1 (x :: pre) ev post).
Qed.

Lemma each_prefix_Forall (P : list Step → Step → Prop) (Q : Step → Prop)
    (l : list Step) :
  Forall Q l →
  (∀ pre ev, Forall Q pre → Q ev → P pre ev) → each_prefix P l.
Proof.
  intros Hall HP pre ev post ->.
  apply Forall_app in Hall as [Hpre Hev]. apply Forall_cons in Hev as [Hev _].
  by apply HP.
Qed.

Lemma enqueue_nodes_app (l1 l2 : list Step) :
  enqueue_nodes (l1 ++ l2) = enqueue_nodes l1 ++ enqueue_nodes l2.
Proof. apply omap_app. Qed.

Lemma offers_no_visits adj V c d (offs : list Step) :
  Forall (offer_event adj V c d) offs →
  visit_nodes offs = [] ∧ visit_events offs = [].
Proof.
  induction 1 as [|ev offs (x & w & od & -> & _) _ [IH1 IH2]]; [done|].
  split; [exact IH1|exact IH2].
Qed.

Section SearchEvents.
Context {St : Type}.
Variable body : St → option (St * list Step).
Variable vis : St → gset nat.
Variable front : St → list nat.
Variable adj : Adjacency.
Variable start : nat.
Hypothesis Hbody : ∀ st st' evs,
  body st = Some (st', evs) →
  search_iteration adj (vis st) (front st) (vis st') (front st') evs.

Lemma search_inv_step st acc st' evs :
  search_inv adj start (vis st) (front st) acc →
  body st = Some (st', evs) →
  search_inv adj start (vis st') (front st') (acc ++ evs).
Proof.
  intros (Hvis & Hfront & Henq & Hvisit) Hb.
  destruct (Hbody _ _ _ Hb) as (c & rest & Hperm & Hcase).
  assert (Hrest : rest ⊆ enqueue_nodes acc).
  { destruct Hfront as [Hsub|[Hone _]].
    - intros x Hx. apply Hsub. rewrite Hperm. by apply elem_of_cons; right.
    - rewrite Hone in Hperm. apply Permutation_singleton_l in Hperm.
      injection Hperm as _ <-. intros x Hx. by apply elem_of_nil in Hx. }
  assert (Hc : c = start ∨ c ∈ enqueue_nodes acc).
  { destruct Hfront as [Hsub|[Hone _]].
    - right. apply Hsub. rewrite Hperm. by apply elem_of_cons; left.
    - rewrite Hone in Hperm. apply Permutation_singleton_l in Hperm.
      injection Hperm as <- _. by left. }
  destruct Hcase as [(_ & -> & -> & ->)|(d & offs & HcV & -> & -> & Hoffs & HF)].
  - rewrite app_nil_r. split; [done|]. split; [by left|]. done.
  - destruct (offers_no_visits _ _ _ _ _ Hoffs) as [Hnv Hne].
    assert (Hvn : visit_nodes (acc ++ visit_step c d :: offs) =
                  visit_nodes acc ++ [c]).
    { rewrite visit_nodes_app. f_equal. by apply visit_nodes_visit. }
    split; [|split; [|split]].
    + intros v. rewrite Hvn, elem_of_app, list_elem_of_singleton,
        elem_of_union, elem_of_singleton, Hvis. tauto.
    + left. intros x Hx. rewrite enqueue_nodes_app. apply elem_of_app.
      apply HF, elem_of_app in Hx as [Hx|Hx]; [left; by apply Hrest|by right].
    + apply each_prefix_app; [exact Henq|].
      apply each_prefix_cons; [by intros n e d0|].
      apply (each_prefix_Forall _ (offer_event adj ({[c]} ∪ vis st) c d));
        [exact Hoffs|].
      intros pre ev Hpre (x & w & od & -> & Hod & Hx & Hin) n e d0 [= <- <- <-].
      destruct (offers_no_visits _ _ _ _ _ Hpre) as [Hpv Hpe].
      exists c, w, d. split; [done|]. split; [done|].
      change (visit_step c d :: pre) with ([visit_step c d] ++ pre).
      rewrite !visit_events_app, !visit_nodes_app, Hpv, Hpe, !app_nil_r.
      simpl. rewrite last_snoc. split; [done|]. split; [done|].
      rewrite elem_of_app, list_elem_of_singleton, <- Hvis.
      intros Hn. apply Hx. apply elem_of_union. rewrite elem_of_singleton.
      tauto.
    + apply each_prefix_app; [exact Hvisit|].
      apply each_prefix_cons.
      * intros n e d0 [= <- <- <-]. rewrite app_nil_r. done.
      * apply (each_prefix_Forall _ (offer_event adj ({[c]} ∪ vis st) c d));
          [exact Hoffs|].
        by intros pre ev _ (x & w & od & -> & _) n e d0.
Qed.

Lemma search_events fuel st0 out :
  vis st0 = ∅ → front st0 = [start] →
  while_loop body fuel st0 = Some out →
  each_prefix (enqueue_justified adj) out ∧
  each_prefix (visit_discovered start) out.
Proof.
  intros Hv Hf Hrun.
  destruct (while_loop_invariant body
              (λ st acc, search_inv adj start (vis st) (front st) acc))
    with (fuel := fuel) (st := st0) (pre := @nil Step) (out := out)
    as (st' & _ & _ & _ & Henq & Hvisit).
  - intros st acc st' evs. apply search_inv_step.
  - rewrite Hv, Hf. split; [|split; [by right|]].
    + intros v. rewrite elem_of_empty. simpl. by rewrite elem_of_nil.
    + split; apply each_prefix_nil.
  - exact Hrun.
  - done.
Qed.
End SearchEvents.

Lemma offered_offer_events adj V c (nbrs : list AdjEntry) :
  nbrs ⊆ neighbors adj c →
  Forall (offer_event adj V c None)
    ((λ n, enqueue_step c n None) <$> offered V nbrs).
Proof.
  intros Hsub. apply Forall_fmap, Forall_forall. intros x Hx.
  apply elem_of_offered in Hx as [HxV [w Hw]]. exists x, w, None.
  split; [done|]. split; [done|]. split; [done|]. by apply Hsub.
Qed.

Lemma enqueue_nodes_offered c (d : nat → option Z) (l : list nat) :
  enqueue_nodes ((λ n, enqueue_step c n (d n)) <$> l) = l.
Proof. induction l as [|n l IH]; [done|]. simpl. by f_equal. Qed.

Lemma bfs_search_iteration adj st st' evs :
  bfs_body adj st = Some (st', evs) →
  search_iteration adj st.1 st.2 st'.1 st'.2 evs.
Proof.
  destruct st as [V Q], st' as [V' Q']. unfold bfs_body.
  destruct Q as [|c Q]; [done|].
  destruct (decide (c ∈ V)) as [Hc|Hc].
  - intros [= <- <- <-]. exists c, Q. split; [done|]. by left.
  - rewrite bfs_offer_spec. intros [= <- <- <-].
    exists c, Q. split; [done|]. right.
    exists None, ((λ n, enqueue_step c n None) <$>
                    offered ({[c]} ∪ V) (neighbors adj c)).
    split; [done|]. split; [done|]. split; [done|].
    split; [by apply offered_offer_events|].
    simpl. by rewrite (enqueue_nodes_offered c (λ _, None)).
Qed.

Lemma dfs_search_iteration adj st st' evs :
  dfs_body adj st = Some (st', evs) →
  search_iteration adj st.1 st.2 st'.1 st'.2 evs.
Proof.
  destruct st as [V Q], st' as [V' Q']. unfold dfs_body.
  destruct Q as [|c Q]; [done|].
  destruct (decide (c ∈ V)) as [Hc|Hc].
  - intros [= <- <- <-]. exists c, Q. split; [done|]. by left.
  - rewrite dfs_offer_spec. intros [= <- <- <-].
    exists c, Q. split; [done|]. right.
    exists None, ((λ n, enqueue_step c n None) <$>
                    offered ({[c]} ∪ V) (reverse (neighbors adj c))).
    split; [done|]. split; [done|]. split; [done|]. split.
    + apply offered_offer_events. intros x Hx. by rewrite elem_of_reverse in Hx.
    + simpl. rewrite (enqueue_nodes_offered c (λ _, None)).
      intros x Hx. rewrite elem_of_app in Hx. rewrite elem_of_app.
      rewrite elem_of_reverse in Hx. tauto.
Qed.

Lemma dijkstra_relax_events adj V c d nbrs D pq D' pq' evs :
  dijkstra_relax V c d nbrs D pq = (D', pq', evs) →
  nbrs ⊆ neighbors adj c →
  Forall (offer_event adj V c (Some d)) evs ∧
  pq'.*1 = pq.*1 ++ enqueue_nodes evs.
Proof.
  revert D pq D' pq' evs.
  induction nbrs as [|[n w] nbrs IH]; intros D pq D' pq' evs;
    cbn [dijkstra_relax].
  - intros [= <- <- <-] _. split; [constructor|]. by rewrite app_nil_r.
  - intros Hr Hsub.
    assert (Hsub' : nbrs ⊆ neighbors adj c).
    { intros x Hx. apply Hsub. by apply elem_of_cons; right. }
    destruct (decide (n ∈ V)) as [Hn|Hn]; [by eapply IH|].
    destruct (js_add d w) as [z|] eqn:Hz; [|by eapply IH].
    destruct (lt_distance (Finite z) (D !! n)); [|by eapply IH].
    destruct (dijkstra_relax V c d nbrs _ _) as [[D1 pq1] evs1] eqn:Hr1.
    injection Hr as <- <- <-.
    destruct (IH _ _ _ _ _ Hr1 Hsub') as [Hall Hpq]. split.
    + constructor; [|exact Hall]. exists n, w, (Some z). split; [done|].
      split; [by exists z|].
      split; [done|]. apply Hsub. by apply elem_of_cons; left.
    + rewrite Hpq, fmap_app. simpl. by rewrite <- app_assoc.
Qed.

Lemma dijkstra_search_iteration adj st st' evs :
  dijkstra_body adj st = Some (st', evs) →
  search_iteration adj (dj_visited st) (dj_pq st).*1
    (dj_visited st') (dj_pq st').*1 evs.
Proof.
  unfold dijkstra_body.
  destruct (pq_sort (dj_pq st)) as [|[c d] pq] eqn:Hs; [done|].
  assert (Hperm : (dj_pq st).*1 ≡ₚ c :: pq.*1).
  { rewrite <- (pq_sort_perm (dj_pq st)), Hs. done. }
  destruct (decide (c ∈ dj_visited st)) as [Hc|Hc].
  - intros [= <- <-]. exists c, pq.*1. split; [done|]. by left.
  - destruct (dijkstra_relax _ c d _ _ pq) as [[D1 pq1] evs1] eqn:Hr.
    intros [= <- <-]. exists c, pq.*1. split; [done|].
    right. exists (Some d), evs1. simpl.
    apply (dijkstra_relax_events adj) in Hr as [Hall Hpq]; [|done].
    split; [done|]. split; [done|]. split; [done|]. split; [done|].
    by rewrite Hpq.
Qed.

Lemma run_algorithm_events a ns adj start evs :
  run_algorithm a ns adj start = Some evs →
  each_prefix (enqueue_justified adj) evs ∧
  each_prefix (visit_discovered start) evs.
Proof.
  destruct a; simpl.
  - apply (search_events (bfs_body adj) fst snd adj start);
      [apply bfs_search_iteration|done|done].
  - apply (search_events (dfs_body adj) fst snd adj start);
      [apply dfs_search_iteration|done|done].
  - unfold dijkstra.
    destruct (while_loop _ _ _) as [out|] eqn:Hrun; [|done].
    intros [= <-].
    apply (search_events (dijkstra_body adj) dj_visited
             (λ st, (dj_pq st).*1) adj start) in Hrun as [Henq Hvisit];
      [|apply dijkstra_search_iteration|done|done].
    split; apply each_prefix_cons; done.
Qed.

(** In a run of any of the three algorithms, an enqueue event belongs to
    the visit event before it: its edge is an adjacency entry of the node
    visited last and ends at the node of the event, which has no visit event
    so far.  The event carries a distance exactly when that visit carries
    one, and this distance is the sum of doubles ([js_add]) of the distance
    of the visit and the weight of the entry: their exact sum whenever the
    distance of the visit is not [-Infinity] and the exact sum is at most
    2^53 in absolute value; beyond, the sum is rounded. *)
Theorem enqueue_belongs_to_last_visit :
  ∀ (a : Algorithm) (ns : list Node) (adj : Adjacency) (start : nat)
    (evs pre post : list Step) (n : nat) (e : option (nat * nat))
    (d : option Z),
    run_algorithm a ns adj start = Some evs →
    evs = pre ++ Enqueue n e d :: post →
    ∃ from w dv,
      e = Some (from, n) ∧ (n, w) ∈ neighbors adj from ∧
      last (visit_events pre) = Some (from, dv) ∧
      (n ∉ visit_nodes pre) ∧
      (dv = None → d = None) ∧
      (∀ z, dv = Some z →
         ∃ z', d = Some z' ∧ js_add z w = Finite z' ∧
               (z ≠ neg_infinity → (Z.abs (z + w) ≤ 2 ^ 53)%Z →
                z' = (z + w)%Z)).
Proof.
  intros a ns adj start evs pre post n e d Hrun Heq.
  destruct (run_algorithm_events _ _ _ _ _ Hrun) as [Henq _].
  destruct (Henq pre _ post Heq n e d eq_refl)
    as (from & w & dv & He & Hin & Hlast & Hd & Hn).
  exists from, w, dv. repeat (split; [done|]). split.
  - intros ->. exact Hd.
  - intros z ->. destruct Hd as (z' & -> & Hsum).
    exists z'. split; [done|]. split; [done|].
    intros Hz Hsmall. rewrite (js_add_exact _ _ Hz Hsmall) in Hsum. congruence.
Qed.

Lemma enqueue_belongs_to_last_visit_witness :
  ∃ from w dv,
    Some (1, 2) = Some (from, 2) ∧
    (2, w) ∈ neighbors (adjacencyList abc_store) from ∧
    last (visit_events (take 5 abc_events)) = Some (from, dv) ∧
    (2 ∉ visit_nodes (take 5 abc_events)) ∧
    (dv = None → Some 2%Z = None) ∧
    (∀ z, dv = Some z →
       ∃ z', Some 2%Z = Some z' ∧ js_add z w = Finite z' ∧
             (z ≠ neg_infinity → (Z.abs (z + w) ≤ 2 ^ 53)%Z →
              z' = (z + w)%Z)).
Proof.
  apply (enqueue_belongs_to_last_visit algo_dijkstra (nodes abc_store)
           (adjacencyList abc_store) 0 abc_events (take 5 abc_events)
           (drop 6 abc_events) 2 (Some (1, 2)) (Some 2%Z)).
  - vm_compute. reflexivity.
  - vm_compute. reflexivity.
Defined.

(** In a run of any of the three algorithms, a visit event carries no edge,
    and its node is the start node or the node of an enqueue event before
    it: nothing is visited before it was discovered. *)
Theorem visit_follows_discovery :
  ∀ (a : Algorithm) (ns : list Node) (adj : Adjacency) (start : nat)
    (evs pre post : list Step) (n : nat) (e : option (nat * nat))
    (d : option Z),
    run_algorithm a ns adj start = Some evs →
    evs = pre ++ Visit n e d :: post →
    e = None ∧ (n = start ∨ n ∈ enqueue_nodes pre).
Proof.
  intros a ns adj start evs pre post n e d Hrun Heq.
  destruct (run_algorithm_events _ _ _ _ _ Hrun) as [_ Hvisit].
  exact (Hvisit pre _ post Heq n e d eq_refl).
Qed.

Lemma visit_follows_discovery_witness :
  (None : option (nat * nat)) = None ∧
  (2 = 0 ∨ 2 ∈ enqueue_nodes (take 6 abc_events)).
Proof.
  apply (visit_follows_discovery algo_dijkstra (nodes abc_store)
           (adjacencyList abc_store) 0 abc_events (take 6 abc_events)
           (drop 7 abc_events) 2 None (Some 2%Z)).
  - vm_compute. reflexivity.
  - vm_compute. reflexivity.
Defined.

(** ** The events of a fresh sequence name nodes of the graph *)

Lemma search_iteration_kinds adj V F V' F' evs (i : nat) (d : Z) :
  search_iteration adj V F V' F' evs → SetDistance i d ∉ evs.
Proof.
  intros (c & rest & _ & [(_ & _ & -> & _)|(dc & offs & _ & _ & -> & Hoffs & _)]).
  - apply not_elem_of_nil.
  - intros [Heq|Hin]%elem_of_cons; [done|].
    rewrite Forall_forall in Hoffs.
    by destruct (Hoffs _ Hin) as (x & w & od & Heq & _).
Qed.

Lemma run_algorithm_setDistance a ns adj start evs (i : nat) (d : Z) :
  run_algorithm a ns adj start = Some evs → SetDistance i d ∈ evs → i = start.
Proof.
  assert (Hloop : ∀ {St} (body : St → option (St * list Step))
                    (vis : St → gset nat) (front : St → list nat) fuel st out,
    (∀ st st' evs, body st = Some (st', evs) →
       search_iteration adj (vis st) (front st) (vis st') (front st') evs) →
    while_loop body fuel st = Some out → SetDistance i d ∉ out).
  { intros St body vis front fuel st out Hb Hrun Hin.
    apply (while_loop_Forall body (λ ev, ev ≠ SetDistance i d)) in Hrun.
    - rewrite Forall_forall in Hrun. by apply (Hrun _ Hin).
    - intros st0 st1 evs0 Hb0. apply Forall_forall. intros ev Hev ->.
      by eapply search_iteration_kinds; [eapply Hb|]. }
  destruct a; simpl.
  - intros Hrun Hin. exfalso.
    by eapply (Hloop _ (bfs_body adj) fst snd); [apply bfs_search_iteration|..].
  - intros Hrun Hin. exfalso.
    by eapply (Hloop _ (dfs_body adj) fst snd); [apply dfs_search_iteration|..].
  - unfold dijkstra.
    destruct (while_loop _ _ _) as [out|] eqn:Hrun; [|done].
    intros [= <-] [Heq|Hin]%elem_of_cons; [by injection Heq|].
    exfalso.
    by eapply (Hloop _ (dijkstra_body adj) dj_visited (λ st, (dj_pq st).*1));
      [apply dijkstra_search_iteration|..].
Qed.

Lemma elem_of_enqueue_nodes (n : nat) (evs : list Step) :
  n ∈ enqueue_nodes evs → ∃ e d, Enqueue n e d ∈ evs.
Proof.
  unfold enqueue_nodes. rewrite list_elem_of_omap.
  intros ([i e d|i e d|i d] & Hin & Heq); try done.
  injection Heq as ->. by exists e, d.
Qed.

Lemma run_algorithm_names_nodes a ns adj start evs :
  adjacency_closed ns adj → start ∈ node_id <$> ns →
  run_algorithm a ns adj start = Some evs →
  Forall (λ ev, step_node ev ∈ node_id <$> ns) evs.
Proof.
  intros Hclosed Hstart Hrun.
  destruct (run_algorithm_events _ _ _ _ _ Hrun) as [Henq Hvisit].
  assert (Hen : ∀ n e d, Enqueue n e d ∈ evs → n ∈ node_id <$> ns).
  { intros n e d (pre & post & Heq)%list_elem_of_split.
    destruct (Henq pre _ post Heq n e d eq_refl)
      as (from & w & dv & _ & Hin & _).
    by eapply Hclosed. }
  apply Forall_forall. intros [n e d|n e d|n d] Hin; simpl.
  - apply list_elem_of_split in Hin as (pre & post & Heq).
    destruct (Hvisit pre _ post Heq n e d eq_refl) as [_ [->|Hn]]; [done|].
    apply elem_of_enqueue_nodes in Hn as (e' & d' & Hin').
    apply (Hen n e' d'). rewrite Heq. apply elem_of_app. by left.
  - by eapply Hen.
  - by rewrite (run_algorithm_setDistance _ _ _ _ _ _ _ Hrun Hin).
Qed.

Lemma node_ids_reset (ns : list Node) :
  node_id <$> (reset_node <$> ns) = node_id <$> ns.
Proof. rewrite <- list_fmap_compose. by apply list_fmap_ext. Qed.

(** When Start is pressed on a store that is not running, every event of
    the sequence that it materializes names a node of the graph. *)
Theorem started_sequence_names_nodes :
  ∀ (s s' : Store),
    store_reachable s → isRunning s = false →
    startTraversal s = Some (s', None) →
    Forall (λ ev, step_node ev ∈ node_ids s') (animationQueue s').
Proof.
  intros s s' Hreach Hidle. apply store_reachable_wf in Hreach as Hwf.
  unfold startTraversal. destruct (startNode s) as [start|] eqn:Hs; [|done].
  rewrite Hidle. destruct (generator _ _) as [evs|] eqn:Hgen; [|done].
  intros [= <-]. rewrite runAnimation_tick_queue.
  match goal with
  | |- context [node_ids (runAnimation_tick ?t)] =>
      destruct (runAnimation_tick_same_graph t) as [-> _]
  end.
  unfold node_ids. simpl. rewrite node_ids_reset.
  unfold generator in Hgen. simpl in Hgen.
  rewrite <- (node_ids_reset (nodes s)).
  eapply run_algorithm_names_nodes; [| |exact Hgen].
  - intros k x w Hin. rewrite node_ids_reset.
    by eapply (wf_adjacency_closed _ Hwf).
  - rewrite node_ids_reset. by apply (wf_start _ Hwf).
Qed.

Lemma started_sequence_names_nodes_witness :
  Forall (λ ev, step_node ev ∈
                node_ids (runAnimation_tick
                            (with_run (resetTraversal abc_store) true false
                               abc_events 0)))
    (animationQueue (runAnimation_tick
                       (with_run (resetTraversal abc_store) true false
                          abc_events 0))).
Proof.
  apply (started_sequence_names_nodes abc_store).
  - exists abc_actions. vm_compute. reflexivity.
  - vm_compute. reflexivity.
  - vm_compute. reflexivity.
Defined.

(** ** The order of the visits *)

Lemma first_occurrences_snoc (seen : gset nat) (l : list nat) (x : nat) :
  first_occurrences seen (l ++ [x]) =
  first_occurrences seen l ++
    (if decide (x ∈ seen ∨ x ∈ l) then [] else [x]).
Proof.
  revert seen. induction l as [|y l IH]; intros seen; simpl.
  - destruct (decide (x ∈ seen)) as [Hx|Hx].
    + rewrite decide_True; [done|by left].
    + rewrite decide_False; [done|].
      intros [? | Hin]; [done|]. by apply elem_of_nil in Hin.
  - destruct (decide (y ∈ seen)) as [Hy|Hy]; rewrite IH.
    + f_equal. apply decide_ext. rewrite elem_of_cons.
      split; [tauto|]. intros [? | [-> | ?]]; tauto.
    + simpl. f_equal. f_equal. apply decide_ext.
      rewrite elem_of_cons, elem_of_union, elem_of_singleton. tauto.
Qed.

(** Breadth-first search visits the nodes in the order in which they first
    entered the queue: the nodes of the visit events are the start node and
    the nodes of the enqueue events, in that order, each at its first
    occurrence. *)
Theorem bfs_visits_in_order_of_discovery :
  ∀ (adj : Adjacency) (start : nat),
    ∃ evs, bfs adj start = Some evs ∧
           visit_nodes evs =
           first_occurrences ∅ (start :: enqueue_nodes evs).
Proof.
  intros adj start. destruct (bfs_terminates adj start) as [evs Hrun].
  exists evs. split; [exact Hrun|].
  destruct (while_loop_invariant (bfs_body adj)
    (λ st acc, ∃ seen,
       seen ++ st.2 = start :: enqueue_nodes acc ∧
       visit_nodes acc = first_occurrences ∅ seen ∧
       (∀ v, v ∈ st.1 ↔ v ∈ seen)))
    with (fuel := traversal_fuel adj) (st := ((∅, [start]) : gset nat * list nat))
         (pre := @nil Step) (out := evs)
    as ([V Q] & Hend & seen & Hall & Hvisits & _).
  - intros [V Q] acc [V' Q'] ev (seen & Hall & Hvisits & HV). simpl in *.
    unfold bfs_body. destruct Q as [|c Q]; [done|].
    destruct (decide (c ∈ V)) as [Hc|Hc].
    + intros [= <- <- <-]. exists (seen ++ [c]). simpl.
      rewrite app_nil_r, <- app_assoc. split; [done|].
      rewrite first_occurrences_snoc, decide_True, app_nil_r.
      * split; [done|]. intros v. rewrite elem_of_app, list_elem_of_singleton.
        rewrite HV. split; [tauto|]. intros [? | ->]; [done|]. by apply HV.
      * right. by apply HV.
    + rewrite bfs_offer_spec. intros [= <- <- <-]. exists (seen ++ [c]).
      cbn [fst snd]. split; [|split].
      * rewrite enqueue_nodes_app.
        change (enqueue_nodes (visit_step c None :: ?l)) with (enqueue_nodes l).
        rewrite (enqueue_nodes_offered c (λ _, None)).
        rewrite app_comm_cons, <- Hall. by rewrite <- !app_assoc.
      * rewrite visit_nodes_app, Hvisits, first_occurrences_snoc.
        rewrite decide_False.
        -- f_equal. apply visit_nodes_visit.
           apply (visit_nodes_enqueues c (λ _, None)).
        -- intros [Hin|Hin]; [by apply elem_of_empty in Hin|]. by apply Hc, HV.
      * intros v. rewrite elem_of_union, elem_of_singleton, elem_of_app,
          list_elem_of_singleton, HV. tauto.
  - exists []. split; [done|]. split; [done|]. intros v.
    simpl. by rewrite elem_of_empty, elem_of_nil.
  - exact Hrun.
  - change ([] ++ evs) with evs in *. cbn [fst snd] in *.
    unfold bfs_body in Hend. destruct Q as [|c Q].
    + rewrite app_nil_r in Hall. by rewrite <- Hall.
    + by destruct (decide _); [|destruct (bfs_offer _ _ _ _)].
Qed.

(** Depth-first search goes deeper at once: when a visit event follows an
    enqueue event directly, it visits the node that was just enqueued. *)
Theorem dfs_visits_last_enqueued :
  ∀ (adj : Adjacency) (start : nat) (evs pre post : list Step)
    (n m : nat) (e e' : option (nat * nat)) (d d' : option Z),
    dfs adj start = Some evs →
    evs = pre ++ Enqueue n e d :: Visit m e' d' :: post →
    m = n.
Proof.
  intros adj start evs pre post n m e e' d d' Hrun Heq.
  destruct (while_loop_invariant (dfs_body adj)
    (λ st acc,
       (∀ n e d, last acc = Some (Enqueue n e d) →
                 ∃ rest, st.2 = n :: rest ∧ n ∉ st.1) ∧
       each_prefix (λ pre ev, ∀ n e d m e' d',
         last pre = Some (Enqueue n e d) → ev = Visit m e' d' → m = n) acc))
    with (fuel := traversal_fuel adj) (st := ((∅, [start]) : gset nat * list nat))
         (pre := @nil Step) (out := evs)
    as (st' & _ & _ & Hall).
  - intros [V Q] acc [V' Q'] ev [Htop Hall]. simpl in *.
    unfold dfs_body. destruct Q as [|c Q]; [done|].
    destruct (decide (c ∈ V)) as [Hc|Hc].
    + intros [= <- <- <-]. rewrite app_nil_r. split; [|exact Hall].
      intros n0 e0 d0 Hlast.
      destruct (Htop _ _ _ Hlast) as (rest & [= -> ->] & Hn). done.
    + rewrite dfs_offer_spec. intros [= <- <- <-].
      set (offs := offered ({[c]} ∪ V) (reverse (neighbors adj c))).
      split.
      * intros n0 e0 d0.
        change (visit_step c None :: ?l) with ([visit_step c None] ++ l).
        rewrite !app_assoc.
        destruct offs as [|x offs' _] eqn:Hoffs using rev_ind.
        -- simpl. rewrite app_nil_r, last_snoc. done.
        -- rewrite fmap_app. simpl. rewrite app_assoc, last_snoc.
           intros [= <- <- <-]. rewrite reverse_snoc. simpl.
           exists (reverse offs' ++ Q). split; [done|].
           assert (Hx : x ∈ offs) by (rewrite Hoffs; set_solver).
           by apply elem_of_offered in Hx as [Hx _].
      * apply each_prefix_app; [exact Hall|].
        apply each_prefix_cons.
        -- intros n0 e0 d0 m0 e1 d1 Hlast [= <- <- <-].
           rewrite app_nil_r in Hlast.
           destruct (Htop _ _ _ Hlast) as (rest & [= -> ->] & Hn). done.
        -- intros p ev q Heq0 n0 e0 d0 m0 e1 d1 _ ->.
           assert (Hin : Visit m0 e1 d1 ∈
                         (λ n, enqueue_step c n None) <$> offs).
           { rewrite Heq0. set_solver. }
           apply list_elem_of_fmap in Hin as (y & Hy & _). done.
  - split; [done|apply each_prefix_nil].
  - exact Hrun.
  - simpl in Hall.
    apply (Hall (pre ++ [Enqueue n e d]) (Visit m e' d') post
             ltac:(by rewrite <- app_assoc) n e d m e' d');
      [apply last_snoc|done].
Qed.

Lemma dfs_visits_last_enqueued_witness : 1 = 1.
Proof.
  apply (dfs_visits_last_enqueued (adjacencyList abc_store) 0
           [Visit 0 None None; Enqueue 2 (Some (0, 2)) None;
            Enqueue 1 (Some (0, 1)) None; Visit 1 None None;
            Enqueue 2 (Some (1, 2)) None; Visit 2 None None]
           [Visit 0 None None; Enqueue 2 (Some (0, 2)) None]
           [Enqueue 2 (Some (1, 2)) None; Visit 2 None None]
           1 1 (Some (0, 1)) None None None).
  - vm_compute. reflexivity.
  - reflexivity.
Defined.

(** With weights that are not negative, [dijkstra] visits the nodes in the
    order of their distances: every visit event carries a distance, and
    these distances never decrease along the sequence. *)
Theorem dijkstra_visits_by_distance :
  ∀ (ns : list Node) (adj : Adjacency) (start : nat),
    nonneg_weights adj →
    ∃ evs ds,
      dijkstra ns adj start = Some evs ∧
      (visit_events evs).*2 = Some <$> ds ∧ StronglySorted Z.le ds.
Proof.
  intros ns adj start Hnn. unfold dijkstra.
  destruct (dijkstra_loop_terminates ns adj start) as [out Hrun].
  rewrite Hrun.
  destruct (while_loop_invariant (dijkstra_body adj)
    (λ st acc, ∃ ds,
       (visit_events acc).*2 = Some <$> ds ∧ StronglySorted Z.le ds ∧
       (∀ d0 x dx, d0 ∈ ds → (x, dx) ∈ dj_pq st → (d0 ≤ dx)%Z) ∧
       (∀ x dx, (x, dx) ∈ dj_pq st → (0 ≤ dx)%Z ∧ js_round dx = Finite dx)))
    with (fuel := traversal_fuel adj) (st := dijkstra_init ns start)
         (pre := @nil Step) (out := out)
    as (st' & _ & ds & Hds & Hsorted & _).
  - intros st acc st' evs (ds & Hds & Hsorted & Hle & Hrep).
    unfold dijkstra_body.
    pose proof (pq_sort_perm (dj_pq st)) as Hperm.
    pose proof (pq_sort_sorted (dj_pq st)) as Hpqs.
    destruct (pq_sort (dj_pq st)) as [|[c d] rest] eqn:Hsort; [done|].
    apply StronglySorted_inv in Hpqs as [_ Hmin].
    rewrite Forall_forall in Hmin.
    assert (Hrest : ∀ e, e ∈ rest → e ∈ dj_pq st).
    { intros e He. rewrite <- Hperm. by apply elem_of_cons; right. }
    assert (Hcd : (c, d) ∈ dj_pq st).
    { rewrite <- Hperm. by apply elem_of_cons; left. }
    destruct (decide (c ∈ dj_visited st)) as [HcV|HcV].
    + intros [= <- <-]. exists ds. rewrite app_nil_r. simpl.
      split; [done|]. split; [done|]. split.
      * intros d0 x dx Hd0 Hin. eapply Hle; [done|]. by apply Hrest.
      * intros x dx Hin. by apply (Hrep x dx), Hrest.
    + destruct (dijkstra_relax _ c d _ _ rest) as [[D1 pq1] evs1] eqn:Hr.
      intros [= <- <-]. cbn [dj_pq].
      destruct (dijkstra_relax_pq _ _ _ _ _ _ _ _ _ Hr)
        as (added & -> & _ & Hev & Hadded).
      destruct (Hrep _ _ Hcd) as [Hd0 Hdrep].
      assert (Hnew : ∀ x d', (x, d') ∈ added →
                (d ≤ d')%Z ∧ js_round d' = Finite d').
      { intros x d' Hin. destruct (Hadded _ _ Hin) as (_ & w & Hw & Hsum).
        apply (js_add_ge d w d'); [done|done| |done]. by eapply Hnn. }
      exists (ds ++ [d]). split; [|split; [|split]].
      * rewrite visit_events_app, !fmap_app, Hds. f_equal.
        change (visit_step c (Some d) :: evs1)
          with ([visit_step c (Some d)] ++ evs1).
        rewrite visit_events_app, (visit_events_none evs1 Hev). reflexivity.
      * apply StronglySorted_app. split; [|split; [done|repeat constructor]].
        intros x1 x2 Hx1 ->%list_elem_of_singleton. by eapply Hle.
      * intros d0 x dx [Hd1| ->%list_elem_of_singleton]%elem_of_app
          [Hin|Hin]%elem_of_app.
        -- eapply Hle; [done|]. by apply Hrest.
        -- destruct (Hnew _ _ Hin) as [Hge _].
           pose proof (Hle _ _ _ Hd1 Hcd). lia.
        -- exact (Hmin _ Hin).
        -- by destruct (Hnew _ _ Hin).
      * intros x dx [Hin|Hin]%elem_of_app.
        -- by apply (Hrep x dx), Hrest.
        -- destruct (Hnew _ _ Hin) as [Hge Hfix]. split; [lia|done].
  - exists []. split; [done|]. split; [constructor|]. split.
    + intros d0 x dx Hd0. by apply elem_of_nil in Hd0.
    + intros x dx [= -> ->]%list_elem_of_singleton. split; [done|].
      by vm_compute.
  - exact Hrun.
  - exists (setDistance_step start 0 :: out), ds. split; [done|]. split; [|done].
    exact Hds.
Qed.

Lemma dijkstra_visits_by_distance_witness :
  ∃ evs ds,
    dijkstra (nodes abc_store) (adjacencyList abc_store) 0 = Some evs ∧
    (visit_events evs).*2 = Some <$> ds ∧ StronglySorted Z.le ds.
Proof.
  apply (dijkstra_visits_by_distance (nodes abc_store)
           (adjacencyList abc_store) 0).
  apply nonneg_weights_b_sound. vm_compute. reflexivity.
Defined.

(** ** Labels *)

Lemma pretty_N_go_length (x : N) (s : string) :
  String.length s ≤ String.length (pretty_N_go x s).
Proof.
  revert s. induction (N.lt_wf_0 x) as [x _ IH]; intros s.
  assert (x = 0 ∨ 0 < x)%N as [->|Hx] by lia; [by rewrite pretty_N_go_0|].
  rewrite pretty_N_go_step by done.
  etrans; [|by eapply IH, N.div_lt]. simpl. lia.
Qed.

Lemma pretty_nat_nonempty (k : nat) : pretty k ≠ EmptyString.
Proof.
  unfold pretty, pretty_nat, pretty, pretty_N. case_decide; [done|].
  rewrite pretty_N_go_step by lia. intros Heq.
  pose proof (pretty_N_go_length (N.of_nat k `div` 10)
                (String (pretty_N_char (N.of_nat k `mod` 10)) EmptyString)) as Hl.
  rewrite Heq in Hl. simpl in Hl. lia.
Qed.

Lemma String_eq_inv (c1 c2 : Ascii.ascii) (s1 s2 : string) :
  String c1 s1 = String c2 s2 → c1 = c2 ∧ s1 = s2.
Proof. intros H. by injection H. Qed.

Lemma make_label_inj (a b : nat) : make_label a = make_label b → a = b.
Proof.
  unfold make_label. intros [Hc Hs]%String_eq_inv.
  apply (f_equal Ascii.nat_of_ascii) in Hc.
  pose proof (Nat.mod_upper_bound a 26) as Ha.
  pose proof (Nat.mod_upper_bound b 26) as Hb.
  rewrite !Ascii.nat_ascii_embedding in Hc by lia.
  pose proof (Nat.div_mod_eq a 26) as Hda.
  pose proof (Nat.div_mod_eq b 26) as Hdb.
  destruct (26 <=? a) eqn:Hlea, (26 <=? b) eqn:Hleb.
  - apply (inj pretty) in Hs. lia.
  - by apply pretty_nat_nonempty in Hs.
  - symmetry in Hs. by apply pretty_nat_nonempty in Hs.
  - apply Nat.leb_gt in Hlea, Hleb.
    rewrite (Nat.mod_small a), (Nat.mod_small b) in Hc; lia.
Qed.

Lemma labels_in_order_same s s' :
  node_label <$> nodes s' = node_label <$> nodes s →
  labels_in_order s → labels_in_order s'.
Proof.
  unfold labels_in_order. intros Heq Hs.
  rewrite Heq, Hs. f_equal. f_equal.
  by rewrite <- (length_fmap node_label (nodes s')), Heq, length_fmap.
Qed.

Lemma labels_addNode x y s : labels_in_order s → labels_in_order (addNode x y s).
Proof.
  unfold labels_in_order. simpl. intros Hs.
  rewrite fmap_app, length_app, Hs. simpl.
  rewrite Nat.add_1_r, seq_S, fmap_app. done.
Qed.

Lemma labels_addNodes (ps : list (Z * Z)) s :
  labels_in_order s →
  labels_in_order (foldl (λ st pos, addNode pos.1 pos.2 st) s ps).
Proof.
  revert s. induction ps as [|p ps IH]; intros s Hs; [done|].
  simpl. by apply IH, labels_addNode.
Qed.

Lemma labels_demote (ns : list Node) :
  node_label <$> (demote_current <$> ns) = node_label <$> ns.
Proof.
  rewrite <- list_fmap_compose. apply list_fmap_ext. intros i n _. simpl.
  unfold demote_current. by destruct (decide _).
Qed.

Lemma labels_executeStep step s :
  node_label <$> nodes (executeStep step s) = node_label <$> nodes s.
Proof.
  destruct step as [i e d|i e d|i d]; simpl;
    (rewrite update_first_fmap; [apply labels_demote|]); intros n.
  - by destruct d.
  - destruct (decide _); [|done]. by destruct d.
  - done.
Qed.

Lemma labels_reset (ns : list Node) :
  node_label <$> (reset_node <$> ns) = node_label <$> ns.
Proof. rewrite <- list_fmap_compose. by apply list_fmap_ext. Qed.

Lemma labels_clearGraph s : labels_in_order (clearGraph s).
Proof. done. Qed.

Lemma runAnimation_tick_labels s :
  node_label <$> nodes (runAnimation_tick s) = node_label <$> nodes s.
Proof.
  unfold runAnimation_tick. destruct (_ && _).
  - destruct (isPaused s); [done|]. destruct (_ !! _) as [step|]; [|done].
    apply labels_executeStep.
  - by destruct (bool_decide (length (animationQueue s) ≤ currentStep s)).
Qed.

Lemma perform_labels a s s' :
  is_deleteNode a = false → labels_in_order s → perform a s = Some s' →
  labels_in_order s'.
Proof.
  intros Hnd Hs. destruct a; simpl; try done.
  - intros [= <-]. by apply labels_addNode.
  - destruct (decide _); [|done]. intros [= <-].
    apply (labels_in_order_same s); [|done]. by rewrite createEdge_nodes.
  - destruct (decide _); [|done]. by intros [= <-].
  - by intros [= <-].
  - by intros [= <-].
  - by intros [= <-].
  - unfold startTraversal. destruct (startNode s) as [start|]; [|by intros [= <-]].
    destruct (isRunning s); [by intros [= <-]|].
    destruct (generator _ _) as [steps|]; [|done].
    intros [= <-]. apply (labels_in_order_same s); [|done].
    rewrite runAnimation_tick_labels. apply labels_reset.
  - intros [= <-]. apply (labels_in_order_same s); [|done].
    apply runAnimation_tick_labels.
  - by intros [= <-].
  - unfold stepTraversal.
    assert (Hexec : ∀ s2, labels_in_order s2 →
      match animationQueue s2 !! currentStep s2 with
      | Some step =>
          Some (with_run (executeStep step s2) (isRunning (executeStep step s2))
                  (isPaused (executeStep step s2))
                  (animationQueue (executeStep step s2))
                  (S (currentStep (executeStep step s2))))
      | None => Some s2
      end = Some s' → labels_in_order s').
    { intros s2 H2. destruct (_ !! _) as [step|].
      - intros [= <-]. apply (labels_in_order_same s2); [|done].
        apply labels_executeStep.
      - by intros [= <-]. }
    destruct (animationQueue s) as [|st q] eqn:Hqs.
    + destruct (startNode s) as [start|].
      * destruct (generator (resetTraversal s) start) as [steps|]; [|done].
        apply Hexec. apply (labels_in_order_same s); [|done]. apply labels_reset.
      * by apply Hexec.
    + by apply Hexec.
  - intros [= <-]. apply (labels_in_order_same s); [|done]. apply labels_reset.
  - by intros [= <-].
  - intros [= <-]. unfold loadSampleGraph.
    pose proof (labels_addNodes sampleNodes (clearGraph s) (labels_clearGraph s))
      as Hl.
    pose proof (create_sample_edges_nodes sampleEdges
      (foldl (λ st pos, addNode pos.1 pos.2 st) (clearGraph s) sampleNodes))
      as Hn.
    destruct (create_sample_edges _ _) as [s3|s3]; cbn [outcome_store] in *.
    + destruct (nodes s3 !! 0); cbn [outcome_store];
        apply (labels_in_order_same _ _ (f_equal (fmap node_label) Hn) Hl).
    + apply (labels_in_order_same _ _ (f_equal (fmap node_label) Hn) Hl).
Qed.

(** As long as no node is deleted, the nodes carry the labels of their
    positions (A, B, ..., Z, A1, B1, ...), and no two nodes have the same
    label.  A deletion is excluded because [addNode] computes the label from
    the number of nodes, not from the id. *)
Theorem labels_distinct_without_deletion :
  ∀ (acts : list Action) (s : Store),
    forallb (λ a, negb (is_deleteNode a)) acts = true →
    run_actions acts init_store = Some s →
    node_label <$> nodes s = make_label <$> seq 0 (length (nodes s)) ∧
    NoDup (node_label <$> nodes s).
Proof.
  intros acts s Hacts Hrun.
  assert (Hgen : ∀ s0, labels_in_order s0 →
                       run_actions acts s0 = Some s → labels_in_order s).
  { clear Hrun. induction acts as [|a acts IH]; intros s0 Hl; simpl.
    - by intros [= <-].
    - simpl in Hacts. apply andb_true_iff in Hacts as [Ha Hacts].
      destruct (perform a s0) as [s1|] eqn:Hp; [|done].
      apply IH; [done|]. eapply perform_labels; [|exact Hl|exact Hp].
      by destruct (is_deleteNode a). }
  assert (Hl : labels_in_order s) by (apply (Hgen init_store); done).
  split; [exact Hl|]. rewrite Hl.
  apply NoDup_fmap_2; [|apply NoDup_seq].
  intros a b. apply make_label_inj.
Qed.

Lemma labels_distinct_without_deletion_witness :
  node_label <$> nodes abc_store =
    make_label <$> seq 0 (length (nodes abc_store)) ∧
  NoDup (node_label <$> nodes abc_store).
Proof.
  apply (labels_distinct_without_deletion abc_actions abc_store).
  - vm_compute. reflexivity.
  - vm_compute. reflexivity.
Defined.

(** ** Starting a traversal *)

Lemma run_algorithm_head a ns adj start evs :
  run_algorithm a ns adj start = Some evs →
  ∃ rest, evs = first_event a start :: rest.
Proof.
  destruct a; simpl.
  - intros Hrun.
    destruct (while_loop_unfold _ _ _ _ _ _ Hrun (bfs_first_iteration adj start))
      as (rest & _ & ->).
    by eexists.
  - intros Hrun.
    destruct (while_loop_unfold _ _ _ _ _ _ Hrun (dfs_first_iteration adj start))
      as (rest & _ & ->).
    by eexists.
  - unfold dijkstra. destruct (while_loop _ _ _) as [out|]; [|done].
    intros [= <-]. by eexists.
Qed.

Lemma startTraversal_success s start :
  startNode s = Some start → isRunning s = false →
  ∃ rest,
    run_algorithm (algorithm s) (reset_node <$> nodes s) (adjacencyList s) start
      = Some (first_event (algorithm s) start :: rest) ∧
    startTraversal s =
      Some (advanced (first_event (algorithm s) start)
              (with_run (resetTraversal s) true false
                 (first_event (algorithm s) start :: rest) 0), None).
Proof.
  intros Hstart Hidle.
  destruct (run_algorithm_terminates (algorithm s) (reset_node <$> nodes s)
              (adjacencyList s) start) as [evs Hevs].
  destruct (run_algorithm_head _ _ _ _ _ Hevs) as [rest ->].
  exists rest. split; [exact Hevs|].
  unfold startTraversal, generator. rewrite Hstart, Hidle.
  cbn [resetTraversal nodes adjacencyList algorithm animationQueue currentStep
       app].
  rewrite Hevs.
  set (ev := first_event (algorithm s) start).
  destruct (playback_applies_step ev
              (with_run (resetTraversal s) true false (ev :: rest) 0) eq_refl)
    as [_ Htick].
  by rewrite Htick.
Qed.

(** When a start node is set and no traversal is running, Start always
    succeeds without a message: the generator finishes.  Start discards what
    an earlier traversal left, puts the whole event sequence of the selected
    algorithm in the queue and applies its first event at once (the visit of
    the start node for [bfs] and [dfs], setDistance(start, 0) for
    [dijkstra]): before any other handler runs, the store is the reset
    store with this event applied, the cursor is 1, and the store is running
    and not paused.  The graph is as it was. *)
Theorem startTraversal_applies_first_event :
  ∀ (s : Store) (start : nat),
    startNode s = Some start → isRunning s = false →
    ∃ s' rest,
      startTraversal s = Some (s', None) ∧
      run_algorithm (algorithm s) (reset_node <$> nodes s) (adjacencyList s)
        start = Some (first_event (algorithm s) start :: rest) ∧
      animationQueue s' = first_event (algorithm s) start :: rest ∧
      currentStep s' = 1 ∧ isRunning s' = true ∧ isPaused s' = false ∧
      nodes s' =
        nodes (executeStep (first_event (algorithm s) start) (resetTraversal s)) ∧
      edges s' = reset_edge <$> edges s ∧
      orderList s' =
        orderList (executeStep (first_event (algorithm s) start)
                     (resetTraversal s)) ∧
      same_graph s s'.
Proof.
  intros s start Hstart Hidle.
  destruct (startTraversal_success s start Hstart Hidle) as (rest & Hrun & Hst).
  eexists _, rest. split; [exact Hst|]. split; [exact Hrun|].
  split; [done|]. split; [done|]. split; [done|]. split; [done|].
  split; [by destruct (algorithm s)|].
  split; [by destruct (algorithm s)|].
  split; [by destruct (algorithm s)|].
  by eapply startTraversal_same_graph.
Qed.

Lemma startTraversal_applies_first_event_witness :
  ∃ s' rest,
    startTraversal abc_store = Some (s', None) ∧
    run_algorithm (algorithm abc_store) (reset_node <$> nodes abc_store)
      (adjacencyList abc_store) 0
      = Some (first_event (algorithm abc_store) 0 :: rest) ∧
    animationQueue s' = first_event (algorithm abc_store) 0 :: rest ∧
    currentStep s' = 1 ∧ isRunning s' = true ∧ isPaused s' = false ∧
    nodes s' =
      nodes (executeStep (first_event (algorithm abc_store) 0)
               (resetTraversal abc_store)) ∧
    edges s' = reset_edge <$> edges abc_store ∧
    orderList s' =
      orderList (executeStep (first_event (algorithm abc_store) 0)
                   (resetTraversal abc_store)) ∧
    same_graph abc_store s'.
Proof.
  apply (startTraversal_applies_first_event abc_store 0).
  - vm_compute. reflexivity.
  - vm_compute. reflexivity.
Defined.

(** ** The sample graph *)

(** Loading the sample graph never throws and keeps nothing of the graph
    or of the playback that was there: the result is the same as on a
    freshly loaded page with the same two select values.  It has the eight
    nodes 0..7 labelled A..H, the ten sample edges, node 0 as start node,
    and no traversal. *)
Theorem loadSampleGraph_replaces_everything :
  ∀ s : Store,
    ∃ s',
      loadSampleGraph s = Returned s' ∧
      loadSampleGraph (with_config init_store (graphType s) (algorithm s)) =
        Returned s' ∧
      node_ids s' = seq 0 8 ∧
      node_label <$> nodes s' = make_label <$> seq 0 8 ∧
      edge_keys s' = sampleEdges ∧
      startNode s' = Some 0 ∧ nodeIdCounter s' = 8 ∧
      isRunning s' = false ∧ animationQueue s' = [] ∧ orderList s' = [].
Proof.
  intros s.
  assert (Hclear : clearGraph s =
                   clearGraph (with_config init_store (graphType s) (algorithm s)))
    by done.
  unfold loadSampleGraph. rewrite Hclear.
  destruct (graphType s), (algorithm s); eexists;
    (split; [vm_compute; reflexivity|]);
    (split; [vm_compute; reflexivity|]);
    vm_compute; repeat split; reflexivity.
Qed.

(** ** Stepping from an idle store *)

(** Pressing Step while nothing is materialized and nothing is running
    gives the store that Start followed by Pause gives: the sequence is
    materialized, its first event is applied, the cursor is 1, and the
    store is running and paused. *)
Theorem step_from_idle_is_start_then_pause :
  ∀ (s s' : Store),
    animationQueue s = [] → isRunning s = false →
    startTraversal s = Some (s', None) →
    stepTraversal s = Some (togglePause s').
Proof.
  intros s s' Hq Hidle Hst.
  destruct (startNode s) as [start|] eqn:Hstart.
  2:{ unfold startTraversal in Hst. by rewrite Hstart in Hst. }
  destruct (startTraversal_success s start Hstart Hidle) as (rest & Hrun & Hst').
  rewrite Hst' in Hst. injection Hst as <-.
  unfold stepTraversal, generator. rewrite Hq, Hstart.
  cbn [resetTraversal nodes adjacencyList algorithm animationQueue currentStep
       app].
  rewrite Hrun. by destruct (algorithm s).
Qed.

Lemma step_from_idle_is_start_then_pause_witness :
  stepTraversal abc_store =
  Some (togglePause
          (advanced (SetDistance 0 0)
             (with_run (resetTraversal abc_store) true false abc_events 0))).
Proof.
  apply (step_from_idle_is_start_then_pause abc_store).
  - vm_compute. reflexivity.
  - vm_compute. reflexivity.
  - vm_compute. reflexivity.
Defined.

(** ** The picture at the end of the playback *)

Lemma update_first_nodup (i : nat) (f : Node → Node) (ns : list Node) :
  NoDup (node_id <$> ns) →
  update_first (has_id i) f ns = (λ n, if has_id i n then f n else n) <$> ns.
Proof.
  induction ns as [|a ns IH]; [done|]. rewrite fmap_cons.
  intros [Ha Hnd]%NoDup_cons. simpl. destruct (has_id i a) eqn:Hi.
  - f_equal. rewrite <- (list_fmap_id ns) at 1. apply list_fmap_ext.
    intros k n Hk. simpl. destruct (has_id i n) eqn:Hn; [|done].
    exfalso. apply Ha. apply bool_decide_eq_true in Hi, Hn.
    rewrite Hi, <- Hn. apply list_elem_of_fmap. exists n. split; [done|].
    by eapply list_elem_of_lookup_2.
  - f_equal. by apply IH.
Qed.

Lemma executeStep_nodes step s :
  NoDup (node_ids s) → nodes (executeStep step s) = node_after step <$> nodes s.
Proof.
  intros Hnd.
  assert (Hnd' : NoDup (node_id <$> (demote_current <$> nodes s))).
  { by rewrite node_ids_demote. }
  destruct step as [i e d|i e d|i d]; simpl;
    rewrite (update_first_nodup _ _ _ Hnd'), <- list_fmap_compose;
    by apply list_fmap_ext.
Qed.

Lemma play_nodes evs s :
  NoDup (node_ids s) → nodes (play evs s) = node_after_all evs <$> nodes s.
Proof.
  revert s. induction evs as [|ev evs IH]; intros s Hnd.
  - simpl. by rewrite list_fmap_id.
  - change (play (ev :: evs) s) with (play evs (executeStep ev s)).
    rewrite IH.
    + rewrite executeStep_nodes by done. rewrite <- list_fmap_compose.
      by apply list_fmap_ext.
    + destruct (executeStep_same_graph ev s) as [Hids _]. by rewrite Hids.
Qed.

Lemma node_after_id ev n : node_id (node_after ev n) = node_id n.
Proof.
  unfold node_after, demote_current.
  destruct ev as [i e d|i e d|i d]; simpl;
    repeat (case_decide || case_match); simpl;
    rewrite ?assign_distance_id; done.
Qed.

Lemma node_after_all_id evs n : node_id (node_after_all evs n) = node_id n.
Proof.
  unfold node_after_all. induction evs as [|ev evs IH] using rev_ind; [done|].
  by rewrite foldl_snoc, node_after_id.
Qed.

Lemma assign_distance_state d n :
  node_state (assign_distance d n) = node_state n.
Proof. by destruct d. Qed.

(** The visual state of a node after any sequence of events, by the events
    that name it. *)
Lemma node_after_all_state evs n :
  node_state n = st_unvisited →
  let m := node_after_all evs n in
  (node_id n ∈ visit_nodes evs →
     node_state m = st_visited ∨ node_state m = st_current) ∧
  (node_id n ∉ visit_nodes evs → node_id n ∈ enqueue_nodes evs →
     node_state m = st_inQueue) ∧
  (node_id n ∉ visit_nodes evs → node_id n ∉ enqueue_nodes evs →
     node_state m = st_unvisited).
Proof.
  intros Hn. simpl. induction evs as [|ev evs IH] using rev_ind.
  - split; [|split].
    + intros Hin. by apply elem_of_nil in Hin.
    + intros _ Hin. by apply elem_of_nil in Hin.
    + done.
  - unfold node_after_all in *. rewrite foldl_snoc.
    pose proof (node_after_all_id evs n) as Hid. unfold node_after_all in Hid.
    set (m := foldl (λ m ev, node_after ev m) n evs) in *.
    rewrite visit_nodes_app, enqueue_nodes_app, !elem_of_app.
    destruct IH as (IH1 & IH2 & IH3).
    assert (Hstate : ∀ st, node_state m = st →
      node_state (demote_current m) =
      match st with st_current => st_visited | _ => st end).
    { intros st <-. unfold demote_current.
      destruct (decide _) as [->|Hne]; [done|]. by destruct (node_state m). }
    assert (Hidd : node_id (demote_current m) = node_id n).
    { unfold demote_current. by destruct (decide _). }
    unfold node_after, has_id. rewrite Hidd.
    destruct (decide (node_id n ∈ visit_nodes evs)) as [Hv|Hv];
      [|destruct (decide (node_id n ∈ enqueue_nodes evs)) as [He|He]].
    + assert (Hd : node_state (demote_current m) = st_visited).
      { destruct (IH1 Hv) as [Hs|Hs]; by rewrite (Hstate _ Hs). }
      split; [|split; intros Hnv; exfalso; apply Hnv; by left].
      intros _.
      destruct ev as [i e d|i e d|i d]; simpl; case_bool_decide; simpl;
        rewrite ?assign_distance_state; simpl; try (by left); try (by right).
      rewrite decide_False by congruence. by left.
    + assert (Hd : node_state (demote_current m) = st_inQueue).
      { by rewrite (Hstate _ (IH2 Hv He)). }
      destruct ev as [i e d|i e d|i d]; simpl; case_bool_decide; simpl;
        rewrite ?assign_distance_state, ?elem_of_nil, ?list_elem_of_singleton;
        simpl; try rewrite decide_False by congruence;
        (split; [|split]); intuition congruence.
    + assert (Hd : node_state (demote_current m) = st_unvisited).
      { by rewrite (Hstate _ (IH3 Hv He)). }
      destruct ev as [i e d|i e d|i d]; simpl; case_bool_decide; simpl;
        rewrite ?assign_distance_state, ?elem_of_nil, ?list_elem_of_singleton;
        simpl; try rewrite decide_True by congruence;
        rewrite ?assign_distance_state; simpl;
        (split; [|split]); intuition congruence.
Qed.

Lemma run_algorithm_visits_reachable a ns adj start evs :
  adjacency_closed ns adj → (a = algo_dijkstra → small_weights adj) →
  run_algorithm a ns adj start = Some evs →
  ∀ v, v ∈ visit_nodes evs ↔ reachable adj start v.
Proof.
  intros Hclosed Hsmall. destruct a; simpl.
  - apply bfs_visits_reachable.
  - apply dfs_visits_reachable.
  - apply dijkstra_visits_reachable; [done|by apply Hsmall].
Qed.

Lemma run_algorithm_enqueues_visited a ns adj start evs v :
  adjacency_closed ns adj → (a = algo_dijkstra → small_weights adj) →
  run_algorithm a ns adj start = Some evs →
  v ∈ enqueue_nodes evs → v ∈ visit_nodes evs.
Proof.
  intros Hclosed Hsmall Hrun Hv.
  apply (run_algorithm_visits_reachable _ _ _ _ _ Hclosed Hsmall Hrun).
  apply elem_of_enqueue_nodes in Hv as (e & d & Hin).
  apply list_elem_of_split in Hin as (pre & post & Heq).
  destruct (run_algorithm_events _ _ _ _ _ Hrun) as [Henq _].
  destruct (Henq pre _ post Heq v e d eq_refl)
    as (from & w & dv & _ & Hw & Hlast & _).
  apply (reachable_step _ _ from v w); [|exact Hw].
  apply (run_algorithm_visits_reachable _ _ _ _ _ Hclosed Hsmall Hrun).
  rewrite Heq, visit_nodes_app, elem_of_app. left.
  rewrite visit_nodes_events. apply list_elem_of_fmap. exists (from, dv).
  split; [done|]. by apply last_Some_elem_of.
Qed.

(** *** The turns of the loop, on the nodes *)

Lemma tick_n_add a b s : tick_n (a + b) s = tick_n b (tick_n a s).
Proof. revert s. induction a as [|a IH]; intros s; [done|]. simpl. apply IH. Qed.

Lemma tick_n_nodes k t :
  NoDup (node_ids t) → isRunning t = true → isPaused t = false →
  currentStep t + k ≤ length (animationQueue t) →
  nodes (tick_n k t) =
  node_after_all (take k (drop (currentStep t) (animationQueue t))) <$> nodes t.
Proof.
  revert t. induction k as [|k IH]; intros t Hnd Hrun Hpause Hlen.
  - simpl. by rewrite list_fmap_id.
  - destruct (animationQueue t !! currentStep t) as [step|] eqn:Hstep.
    2:{ apply lookup_ge_None in Hstep. lia. }
    destruct (playback_applies_step step t Hstep) as [_ Htick].
    rewrite Hrun, Hpause in Htick. simpl in Htick.
    destruct (advanced_fields step t) as (H1 & H2 & H3 & H4).
    simpl. rewrite Htick. rewrite (IH (advanced step t)).
    + rewrite H3, H4, (drop_S _ _ _ Hstep). cbn [take].
      change (nodes (advanced step t)) with (nodes (executeStep step t)).
      rewrite executeStep_nodes by done. rewrite <- list_fmap_compose.
      by apply list_fmap_ext.
    + destruct (executeStep_same_graph step t) as [Hids _].
      change (node_ids (advanced step t)) with (node_ids (executeStep step t)).
      by rewrite Hids.
    + by rewrite H1.
    + by rewrite H2.
    + rewrite H3, H4. lia.
Qed.

Lemma tick_n_finished k t :
  length (animationQueue t) ≤ currentStep t →
  nodes (tick_n k t) = nodes t ∧ algorithm (tick_n k t) = algorithm t.
Proof.
  revert t. induction k as [|k IH]; intros t Hlen; [done|].
  assert (Htick : runAnimation_tick t =
                  with_run t false (isPaused t) (animationQueue t) (currentStep t)).
  { unfold runAnimation_tick.
    rewrite (bool_decide_eq_false_2 (currentStep t < _)) by lia.
    by rewrite (bool_decide_eq_true_2 _ Hlen). }
  simpl. rewrite Htick.
  apply (IH (with_run t false (isPaused t) (animationQueue t) (currentStep t))).
  exact Hlen.
Qed.

Lemma tick_n_algorithm k t : algorithm (tick_n k t) = algorithm t.
Proof.
  revert t. induction k as [|k IH]; intros t; [done|]. simpl. rewrite IH.
  unfold runAnimation_tick. destruct (_ && _).
  - destruct (isPaused t); [done|]. destruct (_ !! _) as [step|]; [|done].
    by destruct step.
  - by destruct (bool_decide _).
Qed.

(** When all the events have been played, the nodes are those that the
    events give, whatever the number of further turns. *)
Lemma full_playback_nodes k t :
  NoDup (node_ids t) → isRunning t = true → isPaused t = false →
  currentStep t = 0 → length (animationQueue t) ≤ k →
  nodes (tick_n k t) = node_after_all (animationQueue t) <$> nodes t.
Proof.
  intros Hnd Hrun Hpause Hcur Hlen.
  replace k with (length (animationQueue t) + (k - length (animationQueue t)))
    by lia.
  rewrite tick_n_add.
  destruct (tick_n_advances (length (animationQueue t)) t Hrun Hpause)
    as (_ & _ & Hq & Hc); [lia|].
  destruct (tick_n_finished (k - length (animationQueue t))
              (tick_n (length (animationQueue t)) t)) as [-> _].
  { rewrite Hq, Hc. lia. }
  rewrite tick_n_nodes by (done || lia).
  by rewrite Hcur, drop_0, firstn_all.
Qed.

(** What Start followed by [k] turns of the loop gives, when these play
    the whole sequence. *)
Lemma started_playback_nodes s s' start k :
  store_wf s → startNode s = Some start → isRunning s = false →
  startTraversal s = Some (s', None) →
  length (animationQueue s') ≤ S k →
  ∃ evs,
    run_algorithm (algorithm s) (reset_node <$> nodes s) (adjacencyList s) start
      = Some evs ∧
    nodes (tick_n k s') = node_after_all evs <$> (reset_node <$> nodes s) ∧
    algorithm (tick_n k s') = algorithm s.
Proof.
  intros Hwf Hstart Hidle. unfold startTraversal. rewrite Hstart, Hidle.
  destruct (generator _ _) as [evs|] eqn:Hgen; [|done].
  intros [= <-]. unfold generator in Hgen. simpl in Hgen.
  rewrite runAnimation_tick_queue. simpl. intros Hlen.
  exists evs. split; [exact Hgen|].
  change (tick_n k (runAnimation_tick ?t)) with (tick_n (S k) t).
  split; [|by rewrite tick_n_algorithm].
  rewrite full_playback_nodes; try done.
  unfold node_ids. simpl. rewrite node_ids_reset. apply (wf_ids_nodup _ Hwf).
Qed.

(** The picture at the end of a traversal.  Start is pressed on a store
    that is not running; for [dijkstra] the weights are small (their
    absolute values sum to at most 2^53).  When the turns of the loop have
    played the whole sequence, and after any number of further turns, the
    nodes that can be reached from the start node are visited or current,
    and every other node is unvisited. *)
Theorem finished_playback_marks_reachable :
  ∀ (s s' : Store) (start k : nat) (n : Node),
    store_reachable s → startNode s = Some start → isRunning s = false →
    (algorithm s = algo_dijkstra → small_weights (adjacencyList s)) →
    startTraversal s = Some (s', None) →
    length (animationQueue s') ≤ S k →
    n ∈ nodes (tick_n k s') →
    (reachable (adjacencyList s) start (node_id n) →
       node_state n = st_visited ∨ node_state n = st_current) ∧
    (¬ reachable (adjacencyList s) start (node_id n) →
       node_state n = st_unvisited).
Proof.
  intros s s' start k n Hreach Hstart Hidle Hsmall Hst Hlen.
  apply store_reachable_wf in Hreach as Hwf.
  destruct (started_playback_nodes s s' start k Hwf Hstart Hidle Hst Hlen)
    as (evs & Hgen & -> & _).
  rewrite <- list_fmap_compose.
  intros (n0 & -> & Hn0)%list_elem_of_fmap. simpl.
  assert (Hclosed : adjacency_closed (reset_node <$> nodes s) (adjacencyList s)).
  { intros i x w Hin. rewrite node_ids_reset.
    by eapply (wf_adjacency_closed _ Hwf). }
  pose proof (run_algorithm_visits_reachable _ _ _ _ _ Hclosed Hsmall Hgen)
    as Hvis.
  destruct (node_after_all_state evs (reset_node n0) eq_refl)
    as (H1 & _ & H3).
  rewrite node_after_all_id. simpl in *. split.
  - intros Hr. by apply H1, Hvis.
  - intros Hr. apply H3.
    + by rewrite Hvis.
    + intros He. apply Hr, Hvis.
      by eapply run_algorithm_enqueues_visited.
Qed.

Lemma finished_playback_marks_reachable_witness :
  (reachable (adjacencyList abc_store) 0 2 →
     node_state (node_after_all abc_events (reset_node (node_at 2))) = st_visited ∨
     node_state (node_after_all abc_events (reset_node (node_at 2))) = st_current) ∧
  (¬ reachable (adjacencyList abc_store) 0 2 →
     node_state (node_after_all abc_events (reset_node (node_at 2))) =
       st_unvisited).
Proof.
  apply (finished_playback_marks_reachable abc_store
           (runAnimation_tick
              (with_run (resetTraversal abc_store) true false abc_events 0))
           0 6 (node_after_all abc_events (reset_node (node_at 2)))).
  - exists abc_actions. vm_compute. reflexivity.
  - vm_compute. reflexivity.
  - vm_compute. reflexivity.
  - intros _. apply Z.leb_le. vm_compute. reflexivity.
  - vm_compute. reflexivity.
  - vm_compute. lia.
  - vm_compute. do 2 apply list_elem_of_further. apply list_elem_of_here.
Defined.

(** ** The distances at the end of the playback *)

Lemma node_after_keeps_distance ev m (d : num) :
  node_state m ≠ st_unvisited → node_distance m = d →
  (∀ e od, ev ≠ Visit (node_id m) e od) →
  (∀ dj, ev ≠ SetDistance (node_id m) dj) →
  let m' := node_after ev m in
  node_state m' ≠ st_unvisited ∧ node_distance m' = d ∧ node_id m' = node_id m.
Proof.
  intros Hst Hd Hv Hsd. simpl.
  assert (Hdem : node_state (demote_current m) ≠ st_unvisited ∧
                 node_distance (demote_current m) = d ∧
                 node_id (demote_current m) = node_id m).
  { unfold demote_current. by destruct (decide _). }
  destruct Hdem as (Hs' & Hd' & Hi').
  unfold node_after, has_id. rewrite Hi'.
  case_bool_decide as Hid; [|done].
  destruct ev as [i e od|i e od|i dj]; simpl in *.
  - subst i. by destruct (Hv e od).
  - by rewrite decide_False.
  - subst i. by destruct (Hsd dj).
Qed.

Lemma node_after_all_keeps_distance post m (d : num) :
  node_state m ≠ st_unvisited → node_distance m = d →
  node_id m ∉ visit_nodes post →
  (∀ dj, SetDistance (node_id m) dj ∉ post) →
  node_distance (node_after_all post m) = d.
Proof.
  unfold node_after_all. revert m.
  induction post as [|ev post IH]; intros m Hst Hd Hv Hsd; [done|].
  simpl.
  destruct (node_after_keeps_distance ev m d Hst Hd) as (Hst' & Hd' & Hi').
  - intros e od ->. apply Hv. simpl. by apply elem_of_cons; left.
  - intros dj ->. apply (Hsd dj). by apply elem_of_cons; left.
  - apply IH; [done|done| |].
    + rewrite Hi'. intros Hin. apply Hv.
      change (ev :: post) with ([ev] ++ post).
      rewrite visit_nodes_app, elem_of_app. by right.
    + rewrite Hi'. intros dj Hin. apply (Hsd dj). by apply elem_of_cons; right.
Qed.

Lemma node_after_all_untouched evs m :
  (∀ ev, ev ∈ evs → step_node ev ≠ node_id m) →
  node_distance (node_after_all evs m) = node_distance m.
Proof.
  unfold node_after_all. revert m.
  induction evs as [|ev evs IH]; intros m Hne; [done|]. simpl.
  assert (Hdem : node_distance (demote_current m) = node_distance m ∧
                 node_id (demote_current m) = node_id m).
  { unfold demote_current. by destruct (decide _). }
  destruct Hdem as [Hd Hi].
  assert (Hafter : node_after ev m = demote_current m).
  { unfold node_after, has_id. rewrite Hi. rewrite bool_decide_eq_false_2; [done|].
    intros Heq. apply (Hne ev); [by apply elem_of_cons; left|done]. }
  rewrite Hafter, IH, Hd; [done|].
  rewrite Hi. intros ev' Hin. apply Hne. by apply elem_of_cons; right.
Qed.

Lemma elem_of_visit_nodes (n : nat) (evs : list Step) :
  n ∈ visit_nodes evs → ∃ e d, Visit n e d ∈ evs.
Proof.
  unfold visit_nodes. rewrite list_elem_of_omap.
  intros ([i e d|i e d|i d] & Hin & Heq); try done.
  injection Heq as ->. by exists e, d.
Qed.

Lemma dijkstra_shape ns adj start evs :
  dijkstra ns adj start = Some evs →
  ∃ out, evs = SetDistance start 0 :: out ∧ ∀ j dj, SetDistance j dj ∉ out.
Proof.
  unfold dijkstra. destruct (while_loop _ _ _) as [out|] eqn:Hrun; [|done].
  intros [= <-]. exists out. split; [done|]. intros j dj Hin.
  apply (while_loop_Forall (dijkstra_body adj) (λ ev, ev ≠ SetDistance j dj))
    in Hrun.
  - rewrite Forall_forall in Hrun. by apply (Hrun _ Hin).
  - intros st0 st1 evs0 Hb0. apply Forall_forall. intros ev Hev ->.
    by eapply search_iteration_kinds; [eapply dijkstra_search_iteration|].
Qed.

(** The numbers at the end of a run of [dijkstra].  The weights are not
    negative and small (they sum to at most 2^53), and Start is pressed on
    a store that is not running.  When the turns of the loop have played
    the whole sequence, and after any number of further turns, the field
    [distance] of every node that can be reached from the start node holds
    its shortest distance, and that of every other node holds [Infinity];
    so a distance that [drawNode] writes above a node is the shortest
    distance of that node. *)
Theorem finished_dijkstra_distances_are_shortest :
  ∀ (s s' : Store) (start k : nat) (n : Node),
    store_reachable s → algorithm s = algo_dijkstra →
    nonneg_weights (adjacencyList s) → small_weights (adjacencyList s) →
    startNode s = Some start → isRunning s = false →
    startTraversal s = Some (s', None) →
    length (animationQueue s') ≤ S k →
    n ∈ nodes (tick_n k s') →
    (∀ d, shortest_distance (adjacencyList s) start (node_id n) d →
       node_distance n = Finite d) ∧
    (¬ reachable (adjacencyList s) start (node_id n) →
       node_distance n = Infinity) ∧
    (∀ d, drawn_distance (tick_n k s') n = Some d →
       shortest_distance (adjacencyList s) start (node_id n) d).
Proof.
  intros s s' start k n Hreach Halgo Hnn Hsmall Hstart Hidle Hst Hlen.
  apply store_reachable_wf in Hreach as Hwf.
  destruct (started_playback_nodes s s' start k Hwf Hstart Hidle Hst Hlen)
    as (evs & Hgen & Hnodes & Halg).
  rewrite Hnodes, <- list_fmap_compose.
  intros (n0 & -> & Hn0)%list_elem_of_fmap. simpl.
  assert (Hclosed : adjacency_closed (reset_node <$> nodes s) (adjacencyList s)).
  { intros i x w Hin. rewrite node_ids_reset.
    by eapply (wf_adjacency_closed _ Hwf). }
  assert (Hsmall' : algorithm s = algo_dijkstra → small_weights (adjacencyList s))
    by done.
  pose proof (run_algorithm_visits_reachable _ _ _ _ _ Hclosed Hsmall' Hgen)
    as Hvis.
  pose proof (λ i d, run_algorithm_setDistance _ _ _ _ _ i d Hgen) as Hsd.
  pose proof (λ v, run_algorithm_enqueues_visited _ _ _ _ _ v Hclosed Hsmall'
                     Hgen) as Henq.
  rewrite Halgo in Hgen. simpl in Hgen.
  assert (Hvisited : ∀ e od, Visit (node_id n0) e od ∈ evs →
    ∃ d, shortest_distance (adjacencyList s) start (node_id n0) d ∧
         node_distance (node_after_all evs (reset_node n0)) = Finite d).
  { intros e od Hin.
    destruct (dijkstra_visits_shortest _ _ _ _ Hclosed Hnn Hsmall Hgen _ _ _ Hin)
      as (d & -> & Hshort).
    exists d. split; [exact Hshort|].
    pose proof (dijkstra_visited_once _ _ _ _ Hgen) as Hnd.
    destruct (dijkstra_shape _ _ _ _ Hgen) as (out & Hout & Hnosd).
    apply list_elem_of_split in Hin as (pre & post & Heq).
    assert (Hpost : ∀ ev, ev ∈ post → ev ∈ out).
    { intros ev Hev. rewrite Heq in Hout. destruct pre as [|p pre]; [done|].
      injection Hout as _ <-. rewrite elem_of_app. right.
      by apply elem_of_cons; right. }
    rewrite Heq. unfold node_after_all.
    rewrite foldl_app. simpl.
    set (m0 := foldl (λ m ev, node_after ev m) (reset_node n0) pre).
    assert (Hm0 : node_id m0 = node_id n0).
    { apply (node_after_all_id pre (reset_node n0)). }
    set (m1 := node_after (Visit (node_id n0) e (Some d)) m0).
    assert (Hm1 : node_state m1 = st_current ∧ node_distance m1 = Finite d ∧
                  node_id m1 = node_id n0).
    { unfold m1, node_after, has_id. simpl.
      assert (Hi : node_id (demote_current m0) = node_id n0).
      { unfold demote_current. by destruct (decide _). }
      rewrite Hi, bool_decide_eq_true_2 by done. done. }
    destruct Hm1 as (Hs1 & Hd1 & Hi1).
    apply (node_after_all_keeps_distance post m1 (Finite d)).
    - by rewrite Hs1.
    - done.
    - rewrite Hi1. intros Hin.
      rewrite Heq, visit_nodes_app in Hnd.
      apply NoDup_app in Hnd as (_ & _ & Hnd).
      change (visit_nodes (Visit (node_id n0) e (Some d) :: post))
        with (node_id n0 :: visit_nodes post) in Hnd.
      by apply NoDup_cons in Hnd as [Hnd _].
    - rewrite Hi1. intros dj Hin. by apply (Hnosd (node_id n0) dj), Hpost. }
  assert (Hunvisited : node_id n0 ∉ visit_nodes evs →
    node_distance (node_after_all evs (reset_node n0)) = Infinity).
  { intros Hnv.
    change (node_distance (node_after_all evs (reset_node n0)) =
            node_distance (reset_node n0)).
    apply node_after_all_untouched. simpl.
    intros [i e od|i e od|i dj] Hin Heq; simpl in Heq; subst i; apply Hnv.
    - apply list_elem_of_omap. by exists (Visit (node_id n0) e od).
    - apply Henq. apply list_elem_of_omap.
      by exists (Enqueue (node_id n0) e od).
    - rewrite (Hsd _ _ Hin). apply Hvis. constructor. }
  rewrite node_after_all_id. simpl. split; [|split].
  - intros d [Hpath Hleast].
    assert (Hin : node_id n0 ∈ visit_nodes evs).
    { apply Hvis. by eapply path_cost_reachable. }
    apply elem_of_visit_nodes in Hin as (e & od & Hin).
    destruct (Hvisited _ _ Hin) as (d' & [Hpath' Hleast'] & ->).
    f_equal. pose proof (Hleast _ Hpath'). pose proof (Hleast' _ Hpath). lia.
  - intros Hr. apply Hunvisited. by rewrite Hvis.
  - intros d Hdrawn. unfold drawn_distance in Hdrawn.
    destruct (decide (node_id n0 ∈ visit_nodes evs)) as [Hin|Hnv].
    + apply elem_of_visit_nodes in Hin as (e & od & Hin).
      destruct (Hvisited _ _ Hin) as (d' & Hshort & Hd).
      rewrite Halg, Halgo, Hd in Hdrawn.
      destruct (node_state _); try done. by simplify_eq.
    + by rewrite Halg, Halgo, (Hunvisited Hnv) in Hdrawn.
Qed.

Lemma finished_dijkstra_distances_are_shortest_witness :
  (∀ d, shortest_distance (adjacencyList abc_store) 0 1 d →
     node_distance (node_after_all abc_events (reset_node (node_at 1))) =
       Finite d) ∧
  (¬ reachable (adjacencyList abc_store) 0 1 →
     node_distance (node_after_all abc_events (reset_node (node_at 1))) =
       Infinity) ∧
  (∀ d, drawn_distance
          (tick_n 6 (runAnimation_tick
                       (with_run (resetTraversal abc_store) true false
                          abc_events 0)))
          (node_after_all abc_events (reset_node (node_at 1))) = Some d →
     shortest_distance (adjacencyList abc_store) 0 1 d).
Proof.
  apply (finished_dijkstra_distances_are_shortest abc_store
           (runAnimation_tick
              (with_run (resetTraversal abc_store) true false abc_events 0))
           0 6 (node_after_all abc_events (reset_node (node_at 1)))).
  - exists abc_actions. vm_compute. reflexivity.
  - vm_compute. reflexivity.
  - apply nonneg_weights_b_sound. vm_compute. reflexivity.
  - apply Z.leb_le. vm_compute. reflexivity.
  - vm_compute. reflexivity.
  - vm_compute. reflexivity.
  - vm_compute. reflexivity.
  - vm_compute. lia.
  - vm_compute. apply list_elem_of_further. apply list_elem_of_here.
Defined.
